(** * Reconciliation of purchase-order and invoice line items

    A shallow embedding of [token_similarity] and [compare_structures] from
    [batch_po_invoice_app.py], together with the part of Python's [difflib]
    ([SequenceMatcher(None, a, b).ratio()]) and of [re] ([findall] with the
    pattern [\w+]) that the two functions call.

    Conventions of the embedding.
    - Python [float] is IEEE binary64, here Rocq's primitive [float]; [/], [+],
      [*], [>] and [>=] are the primitive operations.
    - Python [int] values that count things (lengths, indices) are [nat]; they
      become floats through [float_of_nat], which is exact below [2^53].
    - A Python [str] is a [string] whose characters are read as the code points
      U+0000 to U+00FF.
    - Python [set] is [gset], a [dict] used as a map is [gmap]; JSON values
      are the inductive type [pyval], and an exception is a value of [exn]
      returned through the [result] monad. *)

From Stdlib Require Import ZArith Lia Floats Ascii String.
From stdpp Require Import base option list sorting gmap sets strings.

Set Warnings "-clear-no-such-hyp".

Open Scope string_scope.
Open Scope nat_scope.
Open Scope list_scope.

(** ** Characters and strings *)

Module PyStr.

Definition code (c : ascii) : N := N_of_ascii c.

(** Characters with a distinct lowercase form: A-Z and, in the Latin-1
    supplement, U+00C0 to U+00DE without the multiplication sign U+00D7. *)
Definition is_upper (c : ascii) : bool :=
  let n := code c in
  ((65 <=? n) && (n <=? 90) || (192 <=? n) && (n <=? 222) && negb (n =? 215))%N.

Definition char_lower (c : ascii) : ascii :=
  if is_upper c then ascii_of_N (code c + 32) else c.

(** [s.lower()] *)
Fixpoint lower (s : string) : string :=
  match s with
  | EmptyString => EmptyString
  | String c s' => String (char_lower c) (lower s')
  end.

(** The class [\w] of a [str] pattern: alphanumeric characters and the
    underscore. *)
Definition is_word (c : ascii) : bool :=
  let n := code c in
  ((48 <=? n) && (n <=? 57) || (65 <=? n) && (n <=? 90) || (n =? 95)
   || (97 <=? n) && (n <=? 122)
   || (n =? 170) || (n =? 178) || (n =? 179) || (n =? 181) || (n =? 185)
   || (n =? 186) || (188 <=? n) && (n <=? 190)
   || (192 <=? n) && (n <=? 214) || (216 <=? n) && (n <=? 246)
   || (248 <=? n) && (n <=? 255))%N.

(** [re.findall(r"\w+", s)]: the maximal runs of word characters, from left
    to right.  [cur] holds the run being read, last character first. *)
Fixpoint findall_word_from (cur : list ascii) (s : string) : list string :=
  match s with
  | EmptyString =>
      match cur with
      | [] => []
      | _ => [string_of_list_ascii (rev cur)]
      end
  | String c s' =>
      if is_word c then findall_word_from (c :: cur) s'
      else
        match cur with
        | [] => findall_word_from [] s'
        | _ => string_of_list_ascii (rev cur) :: findall_word_from [] s'
        end
  end.

Definition findall_word (s : string) : list string := findall_word_from [] s.

End PyStr.

(** ** difflib.SequenceMatcher, as called with [isjunk = None] *)

(** [Match(a, b, size)] *)
Definition block : Type := nat * nat * nat.

Definition block_size (x : block) : nat := x.2.

(** The order of tuples, used by [matching_blocks.sort()]. *)
Definition block_le (x y : block) : Prop :=
  x.1.1 < y.1.1 ∨ (x.1.1 = y.1.1 ∧ (x.1.2 < y.1.2 ∨ (x.1.2 = y.1.2 ∧ x.2 ≤ y.2))).

#[global] Instance block_le_dec : RelDecision block_le.
Proof. intros x y. unfold block_le. apply _. Defined.

Section SequenceMatcher.
Context `{Countable A}.

(** The first loop of [__chain_b]: every element of [b] mapped to the list
    of its positions, in increasing order. *)
Definition b2j_all (b : list A) : gmap A (list nat) :=
  foldl (λ (m : gmap A (list nat)) (ie : nat * A),
           <[ie.2 := default [] (m !! ie.2) ++ [ie.1]]> m)
        ∅ (imap pair b).

(** [__chain_b] with [isjunk = None] and [autojunk = True]: no element is
    junk, and when [b] has 200 elements or more those that occur more than
    [n // 100 + 1] times are popular and leave the map. *)
Definition chain_b (b : list A) : gmap A (list nat) :=
  let n := length b in
  if 200 <=? n
  then filter (λ kv : A * list nat, length kv.2 ≤ n / 100 + 1) (b2j_all b)
  else b2j_all b.

(** [j2len.get(j - 1, 0)]; the key [-1] is never present. *)
Definition j2lenget_pred (j2len : gmap nat nat) (j : nat) : nat :=
  match j with
  | O => 0
  | S j' => default 0 (j2len !! j')
  end.

(** The inner loop of [find_longest_match] over [b2j.get(a[i], nothing)]. *)
Fixpoint flm_row (blo bhi i : nat) (j2len : gmap nat nat) (js : list nat)
    (newj2len : gmap nat nat) (best : block) : gmap nat nat * block :=
  match js with
  | [] => (newj2len, best)
  | j :: js' =>
      if j <? blo then flm_row blo bhi i j2len js' newj2len best
      else if bhi <=? j then (newj2len, best)
      else
        let k := j2lenget_pred j2len j + 1 in
        flm_row blo bhi i j2len js' (<[j := k]> newj2len)
                (if block_size best <? k then (i + 1 - k, j + 1 - k, k) else best)
  end.

(** The outer loop, over [i] in [range(alo, ahi)]. *)
Definition flm_rows (a : list A) (b2j : gmap A (list nat)) (blo bhi : nat)
    (rows : list nat) (st : gmap nat nat * block) : gmap nat nat * block :=
  foldl (λ st i,
           let js := match a !! i with
                     | Some x => default [] (b2j !! x)
                     | None => []
                     end in
           flm_row blo bhi i st.1 js ∅ st.2)
        st rows.

(** [while besti > alo and bestj > blo and a[besti-1] == b[bestj-1]]; with
    no junk the test [not isbjunk(b[bestj-1])] is always true. *)
Fixpoint extend_left (a b : list A) (alo blo besti bestj bestsize : nat) : block :=
  match besti, bestj with
  | S i', S j' =>
      if (alo <? besti) && (blo <? bestj)
         && match a !! i', b !! j' with
            | Some x, Some y => bool_decide (x = y)
            | _, _ => false
            end
      then extend_left a b alo blo i' j' (bestsize + 1)
      else (besti, bestj, bestsize)
  | _, _ => (besti, bestj, bestsize)
  end.

(** [while besti+bestsize < ahi and bestj+bestsize < bhi and
    a[besti+bestsize] == b[bestj+bestsize]]; [n] counts the elements of [a]
    left before [ahi], so the loop has ended when it reaches 0. *)
Fixpoint extend_right (a b : list A) (bhi besti bestj : nat) (n bestsize : nat) : nat :=
  match n with
  | O => bestsize
  | S n' =>
      if (bestj + bestsize <? bhi)
         && match a !! (besti + bestsize), b !! (bestj + bestsize) with
            | Some x, Some y => bool_decide (x = y)
            | _, _ => false
            end
      then extend_right a b bhi besti bestj n' (bestsize + 1)
      else bestsize
  end.

(** [find_longest_match(alo, ahi, blo, bhi)].  The two loops that absorb
    matching junk are absent: [bjunk] is empty. *)
Definition find_longest_match (a b : list A) (b2j : gmap A (list nat))
    (alo ahi blo bhi : nat) : block :=
  let '(_, best) := flm_rows a b2j blo bhi (seq alo (ahi - alo)) (∅, (alo, blo, 0)) in
  let '(besti, bestj, bestsize) := extend_left a b alo blo best.1.1 best.1.2 best.2 in
  (besti, bestj,
   extend_right a b bhi besti bestj (ahi - (besti + bestsize)) bestsize).

(** The [while queue:] loop of [get_matching_blocks].  The head of [queue]
    is the element [queue.pop()] returns; [None] is returned only when
    [fuel] iterations did not empty the queue. *)
Fixpoint blocks_loop (a b : list A) (b2j : gmap A (list nat)) (fuel : nat)
    (queue : list (nat * nat * nat * nat)) (matching_blocks : list block)
    : option (list block) :=
  match queue with
  | [] => Some matching_blocks
  | (alo, ahi, blo, bhi) :: queue' =>
      match fuel with
      | O => None
      | S fuel' =>
          let '(i, j, k) := find_longest_match a b b2j alo ahi blo bhi in
          if k =? 0 then blocks_loop a b b2j fuel' queue' matching_blocks
          else
            let q1 := if (alo <? i) && (blo <? j)
                      then (alo, i, blo, j) :: queue' else queue' in
            let q2 := if (i + k <? ahi) && (j + k <? bhi)
                      then (i + k, ahi, j + k, bhi) :: q1 else q1 in
            blocks_loop a b b2j fuel' q2 (matching_blocks ++ [(i, j, k)])
      end
  end.

(** The loop that merges adjacent blocks. *)
Fixpoint collapse (i1 j1 k1 : nat) (blocks non_adjacent : list block) : list block :=
  match blocks with
  | [] => if k1 =? 0 then non_adjacent else non_adjacent ++ [(i1, j1, k1)]
  | (i2, j2, k2) :: rest =>
      if (i1 + k1 =? i2) && (j1 + k1 =? j2)
      then collapse i1 j1 (k1 + k2) rest non_adjacent
      else collapse i2 j2 k2 rest
             (if k1 =? 0 then non_adjacent else non_adjacent ++ [(i1, j1, k1)])
  end.

(** Every pass of the queue loop that finds a block removes at least one
    element of [a] from the ranges still queued, so [2 * len(a) + 1] passes
    empty the queue ([blocks_loop_terminates]). *)
Definition get_matching_blocks (a b : list A) : list block :=
  let la := length a in
  let lb := length b in
  let found := default [] (blocks_loop a b (chain_b b) (2 * la + 1) [(0, la, 0, lb)] []) in
  collapse 0 0 0 (merge_sort block_le found) [] ++ [(la, lb, 0)].

(** [sum(triple[-1] for triple in self.get_matching_blocks())] *)
Definition matches (a b : list A) : nat :=
  foldr (λ x acc, block_size x + acc) 0 (get_matching_blocks a b).

End SequenceMatcher.

(** [int] to [float], exact below [2^53]. *)
Definition float_of_nat (n : nat) : float :=
  PrimFloat.of_uint63 (Uint63.of_Z (Z.of_nat n)).

(** [_calculate_ratio(matches, length)] *)
Definition calculate_ratio (matches length : nat) : float :=
  if length =? 0 then 1%float
  else PrimFloat.div (PrimFloat.mul 2%float (float_of_nat matches)) (float_of_nat length).

(** [SequenceMatcher(None, a, b).ratio()] on two strings. *)
Definition ratio (a b : string) : float :=
  let la := list_ascii_of_string a in
  let lb := list_ascii_of_string b in
  calculate_ratio (matches la lb) (length la + length lb).

(** ** The similarity scorer *)

Definition token_set (s : string) : gset string :=
  list_to_set (PyStr.findall_word (PyStr.lower s)).

(** Line 67: the Jaccard index of the two token sets, the denominator being
    at least 1. *)
Definition token_overlap (a b : string) : float :=
  let a_tokens := token_set a in
  let b_tokens := token_set b in
  PrimFloat.div (float_of_nat (size (a_tokens ∩ b_tokens)))
                (float_of_nat (size (a_tokens ∪ b_tokens) `max` 1)).

(** Line 68. *)
Definition char_sim (a b : string) : float :=
  ratio (PyStr.lower a) (PyStr.lower b).

(** [token_similarity(a, b)] on two strings: the mean of the two measures
    (line 69). *)
Definition token_similarity (a b : string) : float :=
  PrimFloat.div (PrimFloat.add (token_overlap a b) (char_sim a b)) 2%float.

(** ** Python values and exceptions *)

(** The values [json.loads] produces.  A [dict] is the list of its bindings,
    the first binding of a key being the one a lookup finds. *)
#[warnings="-register-all"]
Inductive pyval : Type :=
  | PNone
  | PBool (b : bool)
  | PInt (z : Z)
  | PFloat (f : float)
  | PStr (s : string)
  | PList (l : list pyval)
  | PDict (d : list (string * pyval)).

Inductive exn : Type := AttributeError | TypeError.

Inductive result (T : Type) : Type :=
  | Ok (x : T)
  | Raise (e : exn).
Arguments Ok {T} x.
Arguments Raise {T} e.

#[global] Instance result_bind : MBind result :=
  λ T U (f : T → result U) (m : result T),
    match m with
    | Ok x => f x
    | Raise e => Raise e
    end.

(** Truth value of an object, as [if obj] tests it. *)
Definition py_truthy (v : pyval) : bool :=
  match v with
  | PNone => false
  | PBool b => b
  | PInt z => negb (z =? 0)%Z
  | PFloat f => negb (PrimFloat.eqb f 0%float)
  | PStr s => negb (String.eqb s "")
  | PList l => match l with [] => false | _ => true end
  | PDict d => match d with [] => false | _ => true end
  end.

Fixpoint dict_get (d : list (string * pyval)) (key : string) (dflt : pyval) : pyval :=
  match d with
  | [] => dflt
  | (k, v) :: d' => if String.eqb k key then v else dict_get d' key dflt
  end.

(** [obj.get(key, dflt)]: only a [dict] has the method. *)
Definition py_get (obj : pyval) (key : string) (dflt : pyval) : result pyval :=
  match obj with
  | PDict d => Ok (dict_get d key dflt)
  | _ => Raise AttributeError
  end.

Fixpoint dict_keys (d : list (string * pyval)) (seen : list string) : list pyval :=
  match d with
  | [] => []
  | (k, _) :: d' =>
      if bool_decide (k ∈ seen) then dict_keys d' seen
      else PStr k :: dict_keys d' (k :: seen)
  end.

Fixpoint str_chars (s : string) : list pyval :=
  match s with
  | EmptyString => []
  | String c s' => PStr (String c EmptyString) :: str_chars s'
  end.

(** The elements a [for] loop (or [enumerate]) draws from an object. *)
Definition py_iter (obj : pyval) : result (list pyval) :=
  match obj with
  | PList l => Ok l
  | PStr s => Ok (str_chars s)
  | PDict d => Ok (dict_keys d [])
  | _ => Raise TypeError
  end.

(** The receiver of [.lower()] in [token_similarity]: only a [str] has it. *)
Definition as_str (v : pyval) : result string :=
  match v with
  | PStr s => Ok s
  | _ => Raise AttributeError
  end.

(** [po_struct.get("items", []) if po_struct else []] *)
Definition items_of (struct : pyval) : result pyval :=
  if py_truthy struct then py_get struct "items" (PList []) else Ok (PList []).

(** ** The reconciler *)

Inductive match_status : Type := Match | PartialMatch | Mismatch.

#[global] Instance match_status_eq_dec : EqDecision match_status.
Proof. solve_decision. Defined.

(** One row of the returned data frame; [status] stands for the strings
    ["Match"], ["Partial Match"] and ["Mismatch"]. *)
Record row : Type := Row {
  po_item : pyval;
  po_qty : pyval;
  po_price : pyval;
  po_total : pyval;
  invoice_item : pyval;
  invoice_qty : pyval;
  invoice_price : pyval;
  invoice_total : pyval;
  status : match_status;
  match_score : float
}.

(** The three variables the search for the best invoice item updates. *)
Record best : Type := Best {
  best_match : option pyval;
  best_score : float;
  best_idx : option nat
}.

(** What one pass of the loop over [po_items] leaves: the state of the search
    when it ended, the index added to [inv_used] if any, and the row. *)
Record po_outcome : Type := PoOutcome {
  out_best : best;
  out_claim : option nat;
  out_row : row
}.

Definition blank : pyval := PStr "".

(** [inv_it.get(key, "") if inv_it else ""] *)
Definition get_or_blank (inv_it : option pyval) (key : string) : result pyval :=
  match inv_it with
  | Some v => if py_truthy v then py_get v key blank else Ok blank
  | None => Ok blank
  end.

(** Lines 87-89: the score of an invoice item against a purchase-order item.
    Either [get] raises on an object that is not a [dict], and [lower], the
    first thing [token_similarity] calls, on a description that is not a
    [str]. *)
Definition item_score (po_it inv_it : pyval) : result float :=
  a ← py_get po_it "description" blank;
  b ← py_get inv_it "description" blank;
  a ← as_str a;
  b ← as_str b;
  Ok (token_similarity a b).

(** Lines 84-93: the loop over [enumerate(inv_items)], from index [idx] on. *)
Fixpoint best_loop (po_it : pyval) (inv_used : gset nat) (idx : nat)
    (inv_items : list pyval) (st : best) : result best :=
  match inv_items with
  | [] => Ok st
  | inv_it :: rest =>
      if bool_decide (idx ∈ inv_used) then best_loop po_it inv_used (S idx) rest st
      else
        score ← item_score po_it inv_it;
        best_loop po_it inv_used (S idx) rest
          (if PrimFloat.ltb (best_score st) score
           then Best (Some inv_it) score (Some idx)
           else st)
  end.

(** Lines 96-97: the index that joins [inv_used]. *)
Definition claim_of (st : best) (item_match_threshold : float) : option nat :=
  match best_idx st with
  | Some idx => if PrimFloat.leb item_match_threshold (best_score st) then Some idx else None
  | None => None
  end.

Section Reconciler.
(** The builtins [str] and [round(_, 2)], which the reconciler applies to
    values it passes through; nothing is assumed of them. *)
Variable py_str : pyval → string.
Variable py_round2 : float → float.

(** Lines 107-113. *)
Definition classify (best_score item_match_threshold : float)
    (po_total inv_total : pyval) : match_status :=
  if PrimFloat.leb item_match_threshold best_score
     && String.eqb (py_str po_total) (py_str inv_total)
  then Match
  else if PrimFloat.leb item_match_threshold best_score then PartialMatch
  else Mismatch.

(** Lines 99-126: the row of a purchase-order item, once the search ended. *)
Definition po_row (po_it : pyval) (st : best) (item_match_threshold : float)
    : result row :=
  let inv_it := best_match st in
  po_qty ← py_get po_it "qty" blank;
  inv_qty ← get_or_blank inv_it "qty";
  po_price ← py_get po_it "unit_price" blank;
  inv_price ← get_or_blank inv_it "unit_price";
  po_total ← py_get po_it "total" blank;
  inv_total ← get_or_blank inv_it "total";
  let status := classify (best_score st) item_match_threshold po_total inv_total in
  po_desc ← py_get po_it "description" blank;
  inv_desc ← get_or_blank inv_it "description";
  Ok (Row po_desc po_qty po_price po_total inv_desc inv_qty inv_price inv_total
          status (py_round2 (best_score st))).

(** One pass of the loop of line 78. *)
Definition po_step (inv_items : list pyval) (item_match_threshold : float)
    (inv_used : gset nat) (po_it : pyval) : result (gset nat * po_outcome) :=
  st ← best_loop po_it inv_used 0 inv_items (Best None 0%float None);
  let claim := claim_of st item_match_threshold in
  let inv_used' := match claim with
                   | Some idx => inv_used ∪ {[idx]}
                   | None => inv_used
                   end in
  r ← po_row po_it st item_match_threshold;
  Ok (inv_used', PoOutcome st claim r).

(** The loop of line 78, over the purchase-order items. *)
Fixpoint po_loop (inv_items : list pyval) (item_match_threshold : float)
    (inv_used : gset nat) (po_items : list pyval)
    : result (gset nat * list po_outcome) :=
  match po_items with
  | [] => Ok (inv_used, [])
  | po_it :: rest =>
      '(inv_used', o) ← po_step inv_items item_match_threshold inv_used po_it;
      '(inv_used'', os) ← po_loop inv_items item_match_threshold inv_used' rest;
      Ok (inv_used'', o :: os)
  end.

(** The row of an invoice item no purchase-order item claimed. *)
Definition leftover_row (inv_it : pyval) : result row :=
  d ← py_get inv_it "description" blank;
  q ← py_get inv_it "qty" blank;
  p ← py_get inv_it "unit_price" blank;
  t ← py_get inv_it "total" blank;
  Ok (Row blank blank blank blank d q p t Mismatch 0%float).

(** Lines 129-142: the loop over [enumerate(inv_items)], from index [idx]. *)
Fixpoint leftover_loop (inv_used : gset nat) (idx : nat) (inv_items : list pyval)
    : result (list row) :=
  match inv_items with
  | [] => Ok []
  | inv_it :: rest =>
      if bool_decide (idx ∈ inv_used) then leftover_loop inv_used (S idx) rest
      else
        r ← leftover_row inv_it;
        rs ← leftover_loop inv_used (S idx) rest;
        Ok (r :: rs)
  end.

(** The run of [compare_structures] with what its loops decided: the
    outcome of every purchase-order item, the final [inv_used], and the
    rows of the unclaimed invoice items.  An object that cannot be iterated
    raises [TypeError] where it is first drawn from: [po_items] at line 78,
    [inv_items] at line 84 (the first statement of the loop body that may
    raise) or, when there is no purchase-order item, at line 129. *)
Definition reconcile (po_struct inv_struct : pyval) (item_match_threshold : float)
    : result (list po_outcome * gset nat * list row) :=
  po_items ← items_of po_struct;
  inv_items ← items_of inv_struct;
  po_items ← py_iter po_items;
  inv_items ← py_iter inv_items;
  '(inv_used, outcomes) ← po_loop inv_items item_match_threshold ∅ po_items;
  leftovers ← leftover_loop inv_used 0 inv_items;
  Ok (outcomes, inv_used, leftovers).

(** [compare_structures(po_struct, inv_struct, item_match_threshold)]: the
    rows of the data frame, in order. *)
Definition compare_structures (po_struct inv_struct : pyval)
    (item_match_threshold : float) : result (list row) :=
  '(outcomes, _, leftovers) ← reconcile po_struct inv_struct item_match_threshold;
  Ok (map out_row outcomes ++ leftovers).

End Reconciler.

(** ** Sample instances of the builtins, for running the reconciler *)

Definition digit_char (n : nat) : ascii := ascii_of_nat (48 + n).

Fixpoint digits_of (fuel n : nat) (acc : string) : string :=
  match fuel with
  | O => acc
  | S fuel' =>
      let acc' := String (digit_char (n `mod` 10)) acc in
      if n <? 10 then acc' else digits_of fuel' (n / 10) acc'
  end.

(** [str] on [None], booleans, integers and strings.  The [repr] of floats
    and of containers is not modelled: they print as a fixed tag. *)
Definition str_of_scalar (v : pyval) : string :=
  match v with
  | PNone => "None"
  | PBool true => "True"
  | PBool false => "False"
  | PInt z =>
      let n := Z.abs_nat z in
      let ds := digits_of (S n) n "" in
      if (z <? 0)%Z then String "-" ds else ds
  | PStr s => s
  | PFloat _ => "<float>"
  | PList _ => "<list>"
  | PDict _ => "<dict>"
  end.

(** A stand-in for [round(_, 2)] that leaves its argument as it is. *)
Definition round2_id (x : float) : float := x.

Definition item (desc : string) (fields : list (string * pyval)) : pyval :=
  PDict (("description", PStr desc) :: fields).

Definition doc (items : list pyval) : pyval := PDict [("items", PList items)].


(** The threshold the application passes: the slider, between 50 and 95,
    divided by [100.0] (line 148). *)
Definition slider_threshold (percent : nat) : float :=
  PrimFloat.div (float_of_nat percent) 100%float.

(** ** Vocabulary of the statements *)

(** The items of a document: what line 74 (or 75) reads, as a [for] loop
    draws them. *)
Definition document_items (struct : pyval) : result (list pyval) :=
  v ← items_of struct; py_iter v.

(** A field of an item, blank when the key is absent. *)
Definition field (it : pyval) (key : string) : pyval :=
  match it with
  | PDict d => dict_get d key blank
  | _ => blank
  end.

(** A field of the invoice item a row reports, blank when it reports none. *)
Definition reported_field (inv_it : option pyval) (key : string) : pyval :=
  match inv_it with
  | Some it => field it key
  | None => blank
  end.

Definition has_key (it : pyval) (key : string) : bool :=
  match it with
  | PDict d => bool_decide (key ∈ d.*1)
  | _ => false
  end.

(** The indices the purchase-order rows claimed, in row order. *)
Definition claims (outcomes : list po_outcome) : list nat := omap out_claim outcomes.

(** [inv_used] when the [k]-th purchase-order item is reached. *)
Definition used_before (outcomes : list po_outcome) (k : nat) : gset nat :=
  list_to_set (claims (take k outcomes)).

(** The invoice items from index [idx] on whose index is not in [inv_used]. *)
Fixpoint unclaimed_from (inv_used : gset nat) (idx : nat) (inv_items : list pyval)
    : list pyval :=
  match inv_items with
  | [] => []
  | inv_it :: rest =>
      if bool_decide (idx ∈ inv_used) then unclaimed_from inv_used (S idx) rest
      else inv_it :: unclaimed_from inv_used (S idx) rest
  end.

Definition unclaimed (inv_used : gset nat) (inv_items : list pyval) : list pyval :=
  unclaimed_from inv_used 0 inv_items.

(** The row of a leftover invoice item, as the specification describes it. *)
Definition trailing_row (inv_it : pyval) : row :=
  Row blank blank blank blank
      (field inv_it "description") (field inv_it "qty")
      (field inv_it "unit_price") (field inv_it "total")
      Mismatch 0%float.

Definition is_matched (r : row) : bool :=
  match status r with
  | Match | PartialMatch => true
  | Mismatch => false
  end.

Definition count_matched (rows : list row) : nat :=
  length (filter (λ r, is_matched r = true) rows).

Definition count_mismatch (rows : list row) : nat :=
  length (filter (λ r, is_matched r = false) rows).

(** A line item as the data model has it: a [dict] whose description, when
    present, is a string. *)
Definition item_ok (it : pyval) : Prop :=
  match it with
  | PDict d => ∃ s, dict_get d "description" blank = PStr s
  | _ => False
  end.

(** A document whose [items] entry is a list of line items. *)
Definition document_ok (struct : pyval) : Prop :=
  ∃ d items, struct = PDict d ∧ dict_get d "items" (PList []) = PList items
             ∧ Forall item_ok items.

(** A document that is null, or a [dict] without the key [items]. *)
Definition document_absent (struct : pyval) : Prop :=
  struct = PNone ∨ ∃ d, struct = PDict d ∧ "items" ∉ d.*1.

(** The state of the search at lines 79-81. *)
Definition best0 : best := Best None 0%float None.

(** [inv_used] after a pass that claimed [claim]. *)
Definition add_claim (inv_used : gset nat) (claim : option nat) : gset nat :=
  match claim with
  | Some idx => inv_used ∪ {[idx]}
  | None => inv_used
  end.

(** A string has a word character. *)
Fixpoint has_word_char (s : string) : bool :=
  match s with
  | EmptyString => false
  | String c s' => PyStr.is_word c || has_word_char s'
  end.

(** The rule of lines 104-113 for the row [o] of a purchase-order item
    [po_it] that found the indices in [inv_used] claimed: the row carries
    [po_it.get("total", "")] and the total of the selected invoice item, the
    empty string standing for an absent key and for an absent selection; its
    status is [Match] exactly when the best score is at least the threshold
    and [str] gives the two totals the same string, [PartialMatch] exactly
    when the best score is at least the threshold and the strings differ,
    [Mismatch] exactly when the test [best_score >= threshold] fails, as it
    does when the best score is below the threshold; and with no unclaimed
    invoice item the best score is [0.0] and the invoice fields are blank. *)
Definition status_rule (py_str : pyval → string) (threshold : float) (inv_items : list pyval)
  (inv_used : gset nat) (po_it : pyval) (o : po_outcome) : Prop :=
po_total (out_row o) = field po_it "total"
∧ invoice_total (out_row o) = reported_field (best_match (out_best o)) "total"
∧ (status (out_row o) = Match ↔
     PrimFloat.leb threshold (best_score (out_best o)) = true
     ∧ py_str (po_total (out_row o)) = py_str (invoice_total (out_row o)))
∧ (status (out_row o) = PartialMatch ↔
     PrimFloat.leb threshold (best_score (out_best o)) = true
     ∧ py_str (po_total (out_row o)) ≠ py_str (invoice_total (out_row o)))
∧ (status (out_row o) = Mismatch ↔
     PrimFloat.leb threshold (best_score (out_best o)) = false)
∧ (PrimFloat.ltb (best_score (out_best o)) threshold = true →
     status (out_row o) = Mismatch)
∧ ((∀ j, j < length inv_items → j ∈ inv_used) →
     out_best o = best0
     ∧ invoice_item (out_row o) = blank ∧ invoice_qty (out_row o) = blank
     ∧ invoice_price (out_row o) = blank ∧ invoice_total (out_row o) = blank).

(** The rule of lines 79-97 for the outcome [o] of a purchase-order item
    [po_it] that found the indices in [inv_used] claimed: every invoice item
    whose index is not in [inv_used] was scored; either none was selected,
    and then no score is above [0.0], or an unclaimed item was selected whose
    score is above [0.0], is not below the score of any unclaimed item, and
    is not matched or exceeded by an unclaimed item of a smaller index; the
    selected index is claimed exactly when the best score is at least the
    threshold; and the row reports the fields of the selected item, claimed
    or not. *)
Definition selection_rule (threshold : float) (inv_items : list pyval)
  (inv_used : gset nat) (po_it : pyval) (o : po_outcome) : Prop :=
(∀ j inv_it, inv_items !! j = Some inv_it → j ∉ inv_used →
   ∃ sc, item_score po_it inv_it = Ok sc
         ∧ PrimFloat.ltb (best_score (out_best o)) sc = false
         ∧ ∀ i, best_idx (out_best o) = Some i → j < i →
                PrimFloat.leb (best_score (out_best o)) sc = false)
∧ (out_best o = best0
   ∨ ∃ i inv_it sc, inv_items !! i = Some inv_it
                    ∧ (i ∉ inv_used)
                    ∧ item_score po_it inv_it = Ok sc
                    ∧ PrimFloat.ltb 0 sc = true
                    ∧ out_best o = Best (Some inv_it) sc (Some i))
∧ (∀ i, out_claim o = Some i ↔
        best_idx (out_best o) = Some i
        ∧ PrimFloat.leb threshold (best_score (out_best o)) = true)
∧ invoice_item (out_row o) = reported_field (best_match (out_best o)) "description"
∧ invoice_qty (out_row o) = reported_field (best_match (out_best o)) "qty"
∧ invoice_price (out_row o) = reported_field (best_match (out_best o)) "unit_price"
∧ invoice_total (out_row o) = reported_field (best_match (out_best o)) "total".

(** ** What the application does with the rows *)

(** Line 187: [sum(df["Status"] == "Match")], the numerator of the summary
    ["{total_matches}/{len(df)} items matched"]. *)
Definition total_matches (rows : list row) : nat :=
length (filter (λ r, status r = Match) rows).

(** ** Items reduced to what the reconciler reads *)

#[global] Instance result_fmap : FMap result :=
λ T U (f : T → U) (m : result T),
  match m with
  | Ok x => Ok (f x)
  | Raise e => Raise e
  end.

(** An item with every key but [description] and [total] removed; an object
    that is not a [dict] is left as it is. *)
Definition core_of (it : pyval) : pyval :=
match it with
| PDict d => PDict [("description", dict_get d "description" blank);
                    ("total", dict_get d "total" blank)]
| _ => it
end.

(** A row with its four quantity and unit-price cells blanked. *)
Definition without_qty_price (r : row) : row :=
Row (po_item r) blank blank (po_total r)
    (invoice_item r) blank blank (invoice_total r)
    (status r) (match_score r).

Definition is_dict (v : pyval) : Prop := ∃ d, v = PDict d.

(** ** The batch loop *)

(** What the extraction of one uploaded file leaves in [po_data] or
    [inv_data] (lines 160 and 166): the file name, the parsed structure and
    the error message, [None] standing for no message. *)
Record doc_entry : Type := DocEntry {
  entry_name : option string;
  entry_struct : pyval;
  entry_err : option string
}.

(** [fillvalue=(None, None, None)] *)
Definition no_entry : doc_entry := DocEntry None PNone None.

(** [zip_longest(xs, ys, fillvalue=fill)] *)
Fixpoint zip_longest {T : Type} (fill : T) (xs ys : list T) : list (T * T) :=
match xs with
| [] => (λ y, (fill, y)) <$> ys
| x :: xs' =>
    match ys with
    | [] => (x, fill) :: ((λ x', (x', fill)) <$> xs')
    | y :: ys' => (x, y) :: zip_longest fill xs' ys'
    end
end.

(** The message [if po_err:] lets through: a string that is not empty. *)
Definition shown_error (err : option string) : option string :=
match err with
| Some msg => if String.eqb msg "" then None else Some msg
| None => None
end.

(** [po_name or 'N/A'] *)
Definition shown_name (name : option string) : string :=
match name with
| Some s => if String.eqb s "" then "N/A" else s
| None => "N/A"
end.

(** What a press of the button shows, in order: the message of line 155,
    or for every pair the loop reaches its header (line 172) and then the
    error of the purchase order (line 175), or that of the invoice
    (line 178), or the comparison (lines 181-188). *)
Inductive batch_event : Type :=
| UploadsMissing
| Header (po_name inv_name : string)
| PoErrorShown (msg : string)
| InvoiceErrorShown (msg : string)
| Compared (rows : list row).

(** How the loop ended: it drew every pair, or an exception left it. *)
Inductive batch_end : Type := Finished | Aborted.

Section BatchLoop.
Variable py_str : pyval → string.
Variable py_round2 : float → float.
(** Whether the display of the frame built from the rows (lines 183-188:
    the styled data frame, the count of the [Status] column, the summary)
    runs to its end; nothing is assumed of it. *)
Variable shows : list row → bool.
(** The uploaded files, and what lines 158-160 and 164-166 make of one. *)
Context {file : Type}.
Variable extract_po : file → doc_entry.
Variable extract_inv : file → doc_entry.

(** Lines 174-188 for one pair: the event shown after the header, [None]
    when [compare_structures] or the display raises.  What a raising display
    had shown before it raised is not recorded. *)
Definition pair_result (threshold : float) (po inv : doc_entry)
  : option batch_event :=
match shown_error (entry_err po) with
| Some msg => Some (PoErrorShown msg)
| None =>
    match shown_error (entry_err inv) with
    | Some msg => Some (InvoiceErrorShown msg)
    | None =>
        match compare_structures py_str py_round2 (entry_struct po) (entry_struct inv)
                threshold with
        | Ok rows => if shows rows then Some (Compared rows) else None
        | Raise _ => None
        end
    end
end.

(** The loop of line 171 over the pairs left: nothing catches an exception,
    so the first pair that raises ends the loop after its header. *)
Fixpoint run_pairs (threshold : float) (pairs : list (doc_entry * doc_entry))
  : list batch_event * batch_end :=
match pairs with
| [] => ([], Finished)
| (po, inv) :: rest =>
    let header := Header (shown_name (entry_name po)) (shown_name (entry_name inv)) in
    match pair_result threshold po inv with
    | Some ev =>
        let '(evs, e) := run_pairs threshold rest in (header :: ev :: evs, e)
    | None => ([header], Aborted)
    end
end.

(** The pairs line 171 draws: the extracted documents by position. *)
Definition batch_pairs (po_files inv_files : list file) : list (doc_entry * doc_entry) :=
zip_longest no_entry (extract_po <$> po_files) (extract_inv <$> inv_files).

(** Lines 154-188: the guard on the two uploads, then the loop. *)
Definition run_batch (threshold : float) (po_files inv_files : list file)
  : list batch_event * batch_end :=
match po_files, inv_files with
| [], _ => ([UploadsMissing], Finished)
| _, [] => ([UploadsMissing], Finished)
| _, _ => run_pairs threshold (batch_pairs po_files inv_files)
end.

End BatchLoop.

(** The row of a purchase-order item for which no invoice item was
    selected, under a threshold above [0.0]. *)
Definition unmatched_po_row (py_round2 : float → float) (po_it : pyval) : row :=
Row (field po_it "description") (field po_it "qty")
    (field po_it "unit_price") (field po_it "total")
    blank blank blank blank Mismatch (py_round2 0%float).

(** ** The text handed to [json.loads] *)

(** [c.isspace()] for a code point below 256. *)
Definition is_space (c : ascii) : bool :=
let n := N_of_ascii c in
((9 <=? n) && (n <=? 13) || (28 <=? n) && (n <=? 32) || (n =? 133) || (n =? 160))%N.

Fixpoint lstrip (s : list ascii) : list ascii :=
match s with
| [] => []
| c :: s' => if is_space c then lstrip s' else s
end.

Definition rstrip (s : list ascii) : list ascii := rev (lstrip (rev s)).

(** [s.strip()] *)
Definition strip (s : list ascii) : list ascii := rstrip (lstrip s).

(** The suffix of [s] that starts at its first ["{"]. *)
Fixpoint from_first_open (s : list ascii) : option (list ascii) :=
match s with
| [] => None
| c :: s' => if Ascii.eqb c "{" then Some s else from_first_open s'
end.

(** The longest prefix of [s] that ends in ["}"]. *)
Fixpoint through_last_close (s : list ascii) : option (list ascii) :=
match s with
| [] => None
| c :: s' =>
    match through_last_close s' with
    | Some t => Some (c :: t)
    | None => if Ascii.eqb c "}" then Some [c] else None
    end
end.

(** [re.search(r"(\{[\s\S]*\})", raw)]: the leftmost match starts at the
    first ["{"], and the greedy [[\s\S]*] runs to the last ["}"] after it;
    when no ["}"] follows the first ["{"], none follows a later one. *)
Definition search_braces (raw : list ascii) : option (list ascii) :=
match from_first_open raw with
| Some (c :: rest) =>
    match through_last_close rest with
    | Some t => Some (c :: t)
    | None => None
    end
| _ => None
end.

(** Lines 55-57: [raw = resp.text.strip()] and
    [json_text = m.group(1) if m else raw]. *)
Definition json_text (text : string) : string :=
let raw := strip (list_ascii_of_string text) in
string_of_list_ascii (default raw (search_braces raw)).

(** ** The text of a PDF *)

(** [if t: pages_text.append(t)] over the texts of the pages, [None]
    standing for a page [extract_text()] finds nothing on (lines 31-35). *)
Definition pages_text (pages : list (option string)) : list string :=
omap (λ t : option string,
        match t with
        | Some s => if String.eqb s "" then None else Some s
        | None => None
        end) pages.

(** [sep.join(parts)] *)
Fixpoint join (sep : list ascii) (parts : list (list ascii)) : list ascii :=
match parts with
| [] => []
| p :: rest =>
    match rest with
    | [] => p
    | _ => p ++ sep ++ join sep rest
    end
end.

(** Line 36: ["\n\n".join(pages_text).strip()], what [extract_text_from_pdf]
    returns when the file could be read. *)
Definition extract_text (pages : list (option string)) : string :=
string_of_list_ascii
  (strip (join ["010"%char; "010"%char] (list_ascii_of_string <$> pages_text pages))).

(** A string of white space only. *)
Definition all_space (s : string) : bool := forallb is_space (list_ascii_of_string s).

(** * Facts *)

(** ** Binary64 comparisons *)

(** Order facts on binary64 comparisons, read off [SFcompare]. *)
Module FloatOrder.

Definition cmp (x y : float) : option comparison := SFcompare (Prim2SF x) (Prim2SF y).

Lemma ltb_cmp x y : PrimFloat.ltb x y = true ↔ cmp x y = Some Lt.
Proof.
  rewrite ltb_spec. unfold SFltb, cmp.
  destruct (SFcompare _ _) as [[]|]; split; congruence.
Qed.

Lemma leb_cmp x y : PrimFloat.leb x y = true ↔ cmp x y = Some Lt ∨ cmp x y = Some Eq.
Proof.
  rewrite leb_spec. unfold SFleb, cmp.
  destruct (SFcompare _ _) as [[]|]; split; try tauto; try congruence.
  all: intros [?|?]; congruence.
Qed.

Ltac sf_cases :=
  repeat match goal with
  | x : spec_float |- _ => destruct x
  | b : bool |- _ => destruct b
  end; simpl in *; try congruence.

Ltac cmp_cases :=
  repeat match goal with
  | H : context [Z.compare ?a ?b] |- _ =>
      destruct (Z.compare_spec a b); simpl in H; try congruence
  | |- context [Z.compare ?a ?b] =>
      destruct (Z.compare_spec a b); simpl; try congruence
  | H : context [Pos.compare_cont Eq ?a ?b] |- _ =>
      change (Pos.compare_cont Eq a b) with (Pos.compare a b) in H;
      destruct (Pos.compare_spec a b); simpl in H; try congruence
  | |- context [Pos.compare_cont Eq ?a ?b] =>
      change (Pos.compare_cont Eq a b) with (Pos.compare a b);
      destruct (Pos.compare_spec a b); simpl; try congruence
  end; try lia.

Lemma SFcompare_trans x y z c1 c2 :
  SFcompare x y = Some c1 → SFcompare y z = Some c2 →
  c1 ≠ Gt → c2 ≠ Gt →
  SFcompare x z = Some (match c1, c2 with Eq, Eq => Eq | _, _ => Lt end).
Proof.
  intros H1 H2 N1 N2.
  destruct c1; try congruence; destruct c2; try congruence; clear N1 N2.
  all: sf_cases; cmp_cases.
Qed.

Lemma SFcompare_refl x : SFcompare x x = None ∨ SFcompare x x = Some Eq.
Proof. sf_cases; auto; right; rewrite ?Z.compare_refl; simpl;
  change (Pos.compare_cont Eq m m) with (Pos.compare m m);
  rewrite Pos.compare_refl; reflexivity. Qed.

Lemma SFcompare_total x y a b :
  SFcompare x x = Some a → SFcompare y y = Some b →
  SFcompare x y = Some Lt ∨ SFcompare y x = Some Lt ∨ SFcompare y x = Some Eq.
Proof.
  intros Hx Hy. sf_cases; auto.
  all: rewrite (Z.compare_antisym e e0);
    change (Pos.compare_cont Eq m0 m) with (Pos.compare m0 m);
    change (Pos.compare_cont Eq m m0) with (Pos.compare m m0);
    rewrite (Pos.compare_antisym m m0);
    destruct (e ?= e0)%Z; simpl; auto;
    destruct (m ?= m0)%positive; simpl; auto.
Qed.

Lemma SFcompare_defined_l x y c : SFcompare x y = Some c → SFcompare x x = Some Eq.
Proof. intros Hc. destruct (SFcompare_refl x) as [Hn|]; [|done]. sf_cases. Qed.

Lemma SFcompare_defined_r x y c : SFcompare x y = Some c → SFcompare y y = Some Eq.
Proof. intros Hc. destruct (SFcompare_refl y) as [Hn|]; [|done]. sf_cases. Qed.

Lemma SFcompare_Lt_not_le x y :
  SFcompare x y = Some Lt → SFcompare y x = Some Gt.
Proof. intros Hc. sf_cases; cmp_cases. Qed.


Lemma ltb_leb x y : PrimFloat.ltb x y = true → PrimFloat.leb x y = true.
Proof. rewrite ltb_cmp, leb_cmp. auto. Qed.

Lemma leb_trans x y z :
  PrimFloat.leb x y = true → PrimFloat.leb y z = true → PrimFloat.leb x z = true.
Proof.
  rewrite !leb_cmp. unfold cmp.
  intros [H1|H1] [H2|H2];
    rewrite (SFcompare_trans _ _ _ _ _ H1 H2) by done; auto.
Qed.

Lemma ltb_leb_trans x y z :
  PrimFloat.ltb x y = true → PrimFloat.leb y z = true → PrimFloat.ltb x z = true.
Proof.
  rewrite !ltb_cmp, leb_cmp. unfold cmp.
  intros H1 [H2|H2];
    rewrite (SFcompare_trans _ _ _ _ _ H1 H2) by done; auto.
Qed.

Lemma leb_ltb_trans x y z :
  PrimFloat.leb x y = true → PrimFloat.ltb y z = true → PrimFloat.ltb x z = true.
Proof.
  rewrite !ltb_cmp, leb_cmp. unfold cmp.
  intros [H1|H1] H2;
    rewrite (SFcompare_trans _ _ _ _ _ H1 H2) by done; auto.
Qed.

Lemma ltb_trans x y z :
  PrimFloat.ltb x y = true → PrimFloat.ltb y z = true → PrimFloat.ltb x z = true.
Proof. intros H1 H2. eapply ltb_leb_trans; [done|by apply ltb_leb]. Qed.

Lemma ltb_irrefl x : PrimFloat.ltb x x = false.
Proof.
  apply not_true_is_false. rewrite ltb_cmp. unfold cmp.
  destruct (SFcompare_refl (Prim2SF x)) as [->| ->]; congruence.
Qed.

Lemma ltb_not_leb x y : PrimFloat.ltb x y = true → PrimFloat.leb y x = false.
Proof.
  intros H1. apply not_true_is_false. intros H2.
  pose proof (ltb_leb_trans _ _ _ H1 H2) as H3.
  rewrite ltb_irrefl in H3. done.
Qed.

Lemma leb_not_ltb x y : PrimFloat.leb x y = true → PrimFloat.ltb y x = false.
Proof.
  intros H1. apply not_true_is_false. intros H2.
  pose proof (leb_ltb_trans _ _ _ H1 H2) as H3.
  rewrite ltb_irrefl in H3. done.
Qed.

(** A float is a number when it compares with itself. *)
Definition is_number (x : float) : Prop := PrimFloat.leb x x = true.

Lemma is_number_cmp x : is_number x ↔ cmp x x = Some Eq.
Proof.
  unfold is_number. rewrite leb_cmp. unfold cmp.
  destruct (SFcompare_refl (Prim2SF x)) as [->| ->]; split; try tauto; try congruence.
  intros [?|?]; congruence.
Qed.

Lemma ltb_number_l x y : PrimFloat.ltb x y = true → is_number x.
Proof. rewrite ltb_cmp, is_number_cmp. apply SFcompare_defined_l. Qed.

Lemma ltb_number_r x y : PrimFloat.ltb x y = true → is_number y.
Proof. rewrite ltb_cmp, is_number_cmp. apply SFcompare_defined_r. Qed.

Lemma leb_number_l x y : PrimFloat.leb x y = true → is_number x.
Proof. rewrite leb_cmp, is_number_cmp. intros [?|?]; by eapply SFcompare_defined_l. Qed.

Lemma leb_number_r x y : PrimFloat.leb x y = true → is_number y.
Proof. rewrite leb_cmp, is_number_cmp. intros [?|?]; by eapply SFcompare_defined_r. Qed.

Lemma number_total x y :
  is_number x → is_number y → PrimFloat.ltb x y = true ∨ PrimFloat.leb y x = true.
Proof.
  rewrite !is_number_cmp, ltb_cmp, leb_cmp. unfold cmp. intros Hx Hy.
  destruct (SFcompare_total _ _ _ _ Hx Hy) as [?|[?|?]]; auto.
Qed.

Lemma zero_is_number : is_number 0%float.
Proof. reflexivity. Qed.

End FloatOrder.


(** ** Binary64 arithmetic on converted integers *)

Module FloatArith.

Definition digits (m : positive) : Z := Zpos (digits2_pos m).

(** A mantissa of 53 bits with an exponent in range is already rounded. *)
Lemma binary_round_aux_canonical (s : bool) (m : positive) (e : Z) :
  digits m = 53%Z → (-1074 <= e <= 971)%Z →
  binary_round_aux prec emax s (Zpos m) e loc_Exact = S754_finite s m e.
Proof.
  unfold digits. intros Hd He.
  unfold binary_round_aux, shr_fexp, Zdigits2. rewrite Hd.
  assert (Hf : (fexp prec emax (53 + e) - e = 0)%Z).
  { unfold fexp, emin, prec, emax. lia. }
  rewrite Hf. simpl. rewrite Hd, Hf. simpl.
  unfold emax, prec. destruct (Z.leb_spec e (1024 - 53)); [done|lia].
Qed.

Lemma div_self (x : float) (m : positive) (e : Z) :
  Prim2SF x = S754_finite false m e → PrimFloat.div x x = 1%float.
Proof.
  intros Hx. apply Prim2SF_inj. rewrite div_spec, Hx.
  unfold SF64div, SFdiv, SFdiv_core_binary.
  replace (Zdigits2 (Z.pos m) + e - (Zdigits2 (Z.pos m) + e))%Z with 0%Z by lia.
  rewrite Z.sub_diag.
  change (Z.min (fexp prec emax 0) 0) with (-53)%Z.
  change (0 - -53)%Z with 53%Z.
  rewrite Z.shiftl_mul_pow2 by lia.
  pose proof (Z.div_eucl_eq (Z.pos m * 2 ^ 53) (Z.pos m) ltac:(lia)) as Hq.
  pose proof (Z.mod_pos_bound (Z.pos m * 2 ^ 53) (Z.pos m) ltac:(lia)) as Hr.
  unfold Z.modulo in Hr.
  destruct (Z.div_eucl (Z.pos m * 2 ^ 53) (Z.pos m)) as [q r].
  assert (q = 2 ^ 53 ∧ r = 0)%Z as [-> ->].
  { generalize dependent (2 ^ 53)%Z. intros P HP.
    assert (P - q = 0)%Z by nia. lia. }
  assert (new_location (Z.pos m) 0 = loc_Exact) as ->.
  { unfold new_location. destruct (Z.even _); reflexivity. }
  reflexivity.
Qed.


Lemma digits_pos (p : positive) : (1 <= digits p)%Z.
Proof. unfold digits. lia. Qed.

Lemma iter_xO_spec (p k : positive) :
  digits (Pos.iter xO p k) = (digits p + Z.pos k)%Z
  ∧ Z.pos (Pos.iter xO p k) = (Z.pos p * 2 ^ Z.pos k)%Z.
Proof.
  induction k as [|k IH] using Pos.peano_ind.
  - simpl. unfold digits. simpl. lia.
  - rewrite Pos.iter_succ. destruct IH as [IH1 IH2]. split.
    + unfold digits in *. simpl. lia.
    + rewrite Pos2Z.inj_xO, IH2, Pos2Z.inj_succ, Z.pow_succ_r by lia. lia.
Qed.

(** An integer below [2^53] converts exactly. *)
Lemma binary_round_small (p : positive) :
  (digits p <= 53)%Z →
  ∃ m e, binary_round prec emax false p 0 = S754_finite false m e
         ∧ digits m = 53%Z ∧ e = (digits p - 53)%Z
         ∧ Z.pos m = (Z.pos p * 2 ^ (- e))%Z.
Proof.
  intros Hd. pose proof (digits_pos p) as H1.
  unfold binary_round, shl_align.
  assert (fexp prec emax (Z.pos (digits2_pos p) + 0) = digits p - 53)%Z as ->.
  { unfold fexp, emin, prec, emax, digits. lia. }
  rewrite Z.sub_0_r.
  destruct (Z.eq_dec (digits p) 53%Z) as [He|Hne].
  - rewrite He. simpl. exists p, 0%Z.
    rewrite binary_round_aux_canonical by (done || lia).
    repeat split; try done; lia.
  - set (k := Z.to_pos (53 - digits p)).
    assert (digits p - 53 = Z.neg k)%Z as Hk by (subst k; lia).
    rewrite Hk. destruct (iter_xO_spec p k) as [Hi1 Hi2].
    exists (Pos.iter xO p k), (Z.neg k).
    rewrite binary_round_aux_canonical by (subst k; lia).
    split; [done|]. split; [lia|]. split; [lia|]. rewrite Hi2. reflexivity.
Qed.

Lemma digits_bound (p : positive) (k : Z) :
  (0 <= k)%Z → (Z.pos p < 2 ^ k)%Z ↔ (digits p <= k)%Z.
Proof.
  unfold digits. revert k. induction p as [p IH|p IH|]; intros k Hk; simpl.
  - rewrite Pos2Z.inj_succ. destruct (Z.eq_dec k 0%Z) as [->|].
    + simpl. lia.
    + specialize (IH (k - 1)%Z ltac:(lia)).
      replace k with (Z.succ (k - 1)) at 1 by lia.
      rewrite Z.pow_succ_r by lia. lia.
  - rewrite Pos2Z.inj_succ. destruct (Z.eq_dec k 0%Z) as [->|].
    + simpl. lia.
    + specialize (IH (k - 1)%Z ltac:(lia)).
      replace k with (Z.succ (k - 1)) at 1 by lia.
      rewrite Z.pow_succ_r by lia. lia.
  - destruct (Z.eq_dec k 0%Z) as [->|]; [simpl; lia|].
    assert (2 ^ 1 <= 2 ^ k)%Z by (apply Z.pow_le_mono_r; lia). lia.
Qed.

Lemma float_of_nat_spec (n : nat) :
  1 ≤ n → (Z.of_nat n < 2 ^ 53)%Z →
  ∃ m e, Prim2SF (float_of_nat n) = S754_finite false m e
         ∧ digits m = 53%Z ∧ (-52 <= e <= 0)%Z
         ∧ Z.pos m = (Z.of_nat n * 2 ^ (- e))%Z.
Proof.
  intros Hn Hlt. unfold float_of_nat.
  rewrite of_uint63_spec, Uint63.of_Z_spec.
  rewrite Z.mod_small by (change Uint63.wB with (2 ^ 63)%Z; lia).
  destruct (Z.of_nat n) as [|p|p] eqn:Hp; try lia.
  assert (digits p <= 53)%Z as Hdp by (apply digits_bound; lia).
  simpl. destruct (binary_round_small p Hdp) as (m & e & -> & Hd & He & Hm).
  exists m, e. pose proof (digits_pos p). repeat split; try done; lia.
Qed.


(** Doubling a float of 53 bits adds one to its exponent. *)
Lemma mul2_spec (m : positive) (e : Z) :
  digits m = 53%Z → (-1074 <= e + 1 <= 971)%Z →
  SF64mul (Prim2SF 2) (S754_finite false m e) = S754_finite false m (e + 1).
Proof.
  intros Hd He.
  assert (digits2_pos m = 53%positive) as Hd' by (unfold digits in Hd; lia).
  change (Prim2SF 2) with (S754_finite false 4503599627370496 (-51)).
  unfold SF64mul, SFmul, binary_round_aux, shr_fexp.
  set (M := (4503599627370496 * m)%positive).
  assert (Zdigits2 (Z.pos M) = 105%Z) as ->.
  { change (Zdigits2 (Z.pos M)) with (digits M).
    assert (M = Pos.iter xO m 52) as -> by reflexivity.
    rewrite (proj1 (iter_xO_spec m 52)), Hd. reflexivity. }
  assert (fexp prec emax (105 + (-51 + e)) - (-51 + e) = 52)%Z as ->.
  { unfold fexp, emin, prec, emax. lia. }
  assert (shr (shr_record_of_loc (Z.pos M) loc_Exact) (-51 + e) 52
          = (Build_shr_record (Z.pos m) false false, (e + 1)%Z)) as ->.
  { unfold shr. replace (-51 + e + 52)%Z with (e + 1)%Z by lia.
    subst M. reflexivity. }
  simpl. unfold Zdigits2. fold (digits m). rewrite Hd.
  assert (fexp prec emax (53 + (e + 1)) - (e + 1) = 0)%Z as ->.
  { unfold fexp, emin, prec, emax. lia. }
  simpl. unfold emax, prec. destruct (Z.leb_spec (e + 1) (1024 - 53)); [done|lia].
Qed.

Lemma digits_53 (m : positive) :
  digits m = 53%Z ↔ (2 ^ 52 <= Z.pos m < 2 ^ 53)%Z.
Proof.
  pose proof (digits_bound m 53 ltac:(lia)).
  pose proof (digits_bound m 52 ltac:(lia)). lia.
Qed.

(** [2.0 * n / (n + n)] is 1.0 for a positive [n] below [2^52]. *)
Lemma double_div_double (n : nat) :
  1 ≤ n → (Z.of_nat n < 2 ^ 52)%Z →
  PrimFloat.div (PrimFloat.mul 2 (float_of_nat n)) (float_of_nat (n + n)) = 1%float.
Proof.
  intros Hn Hlt.
  destruct (float_of_nat_spec n) as (m & e & Hx & Hd & He & Hm); [lia..|].
  destruct (float_of_nat_spec (n + n)) as (m' & e' & Hy & Hd' & He' & Hm'); [lia..|].
  assert (e' = e + 1 ∧ m' = m)%Z as [-> ->].
  { apply digits_53 in Hd, Hd'. rewrite Hm in Hd. rewrite Hm' in Hd'.
    assert (Z.of_nat (n + n) = 2 * Z.of_nat n)%Z as Hnn by lia.
    rewrite Hnn in *.
    assert (e' = e + 1)%Z as ->.
    { destruct (Z.lt_trichotomy e' (e + 1)) as [Hc|[Hc|Hc]]; [|done|].
      - exfalso.
        replace (- e')%Z with ((- e) + (- e' + e))%Z in Hd' by lia.
        rewrite Z.pow_add_r in Hd' by lia.
        assert (2 ^ 0 <= 2 ^ (- e' + e))%Z by (apply Z.pow_le_mono_r; lia).
        change (2 ^ 0)%Z with 1%Z in *. nia.
      - exfalso.
        replace (- e)%Z with ((- e') + (e' - e))%Z in Hd by lia.
        rewrite Z.pow_add_r in Hd by lia.
        assert (2 ^ 2 <= 2 ^ (e' - e))%Z by (apply Z.pow_le_mono_r; lia).
        change (2 ^ 2)%Z with 4%Z in *. nia. }
    split; [done|].
    assert (Z.pos m' = Z.pos m) as Heq; [|by injection Heq].
    rewrite Hm, Hm'.
    replace (- e)%Z with (Z.succ (- (e + 1)))%Z by lia.
    rewrite Z.pow_succ_r by lia. lia. }
  assert (PrimFloat.mul 2 (float_of_nat n) = float_of_nat (n + n)) as ->.
  { apply Prim2SF_inj. rewrite mul_spec, Hx, Hy. apply mul2_spec; [done|lia]. }
  by eapply div_self.
Qed.

(** [n / n] is 1.0 for a positive [n] below [2^53]. *)
Lemma float_of_nat_div_self (n : nat) :
  1 ≤ n → (Z.of_nat n < 2 ^ 53)%Z →
  PrimFloat.div (float_of_nat n) (float_of_nat n) = 1%float.
Proof.
  intros Hn Hlt.
  destruct (float_of_nat_spec n) as (m & e & Hx & _); [done..|].
  by eapply div_self.
Qed.

End FloatArith.

(** ** SequenceMatcher *)

Section SequenceMatcherFacts.
Context `{Countable A}.

(** What [b2j] holds for an element: nothing when it does not occur, else
    its positions in increasing order. *)
Definition b2j_entry_ok (b : list A) (x : A) (e : option (list nat)) : Prop :=
  match e with
  | Some js => StronglySorted lt js ∧ ∀ j, j ∈ js ↔ b !! j = Some x
  | None => ∀ j, b !! j ≠ Some x
  end.

Lemma b2j_all_snoc (b : list A) (x : A) :
  b2j_all (b ++ [x])
  = <[x := default [] (b2j_all b !! x) ++ [length b]]> (b2j_all b).
Proof.
  unfold b2j_all. rewrite imap_app, foldl_app. simpl.
  rewrite Nat.add_0_r. reflexivity.
Qed.

Lemma b2j_all_spec (b : list A) (x : A) : b2j_entry_ok b x (b2j_all b !! x).
Proof.
  revert x. induction b as [|y b IH] using rev_ind; intros x.
  - unfold b2j_all. simpl. rewrite lookup_empty. simpl. intros j. by destruct j.
  - rewrite b2j_all_snoc. destruct (decide (x = y)) as [->|Hne].
    + rewrite lookup_insert_eq. specialize (IH y). simpl.
      assert (Hold : StronglySorted lt (default [] (b2j_all b !! y))
                     ∧ ∀ j, j ∈ default [] (b2j_all b !! y) ↔ b !! j = Some y).
      { destruct (b2j_all b !! y) as [js|]; simpl in *; [done|].
        split; [constructor|]. intros j. split; [by intros ?%elem_of_nil|].
        intros Hj. by apply IH in Hj. }
      destruct Hold as [Hs Hm]. split.
      * apply StronglySorted_app_2; [|done|repeat constructor].
        intros j1 j2 Hj1 ->%list_elem_of_singleton.
        apply Hm in Hj1. by apply lookup_lt_Some in Hj1.
      * intros j. rewrite elem_of_app, list_elem_of_singleton, Hm. split.
        -- intros [Hj| ->].
           ++ by apply lookup_app_l_Some.
           ++ by rewrite list_lookup_middle.
        -- intros Hj. apply lookup_snoc_Some in Hj as [[_ ?]|[? _]]; auto.
    + rewrite lookup_insert_ne by done. specialize (IH x).
      destruct (b2j_all b !! x) as [js|]; simpl in *.
      * destruct IH as [Hs Hm]. split; [done|]. intros j. rewrite Hm. split.
        -- by apply lookup_app_l_Some.
        -- intros Hj. apply lookup_snoc_Some in Hj as [[_ ?]|[? ?]]; [done|congruence].
      * intros j Hj. apply lookup_snoc_Some in Hj as [[_ ?]|[? ?]]; [by eapply IH|congruence].
Qed.

Lemma chain_b_spec (b : list A) (x : A) (js : list nat) :
  chain_b b !! x = Some js →
  StronglySorted lt js ∧ ∀ j, j ∈ js ↔ b !! j = Some x.
Proof.
  intros Hl. assert (b2j_all b !! x = Some js) as Hall.
  { unfold chain_b in Hl. destruct (200 <=? length b); [|done].
    by apply map_lookup_filter_Some in Hl as [? _]. }
  pose proof (b2j_all_spec b x) as Hs. by rewrite Hall in Hs.
Qed.


(** *** The block [find_longest_match] returns lies in the range of [a] *)

Definition j2len_le (m : gmap nat nat) (c : nat) : Prop :=
  ∀ j v, m !! j = Some v → v ≤ c.

Definition best_in (alo hi : nat) (x : block) : Prop :=
  alo ≤ x.1.1 ∧ x.1.1 + x.2 ≤ hi.

Lemma j2lenget_pred_le (m : gmap nat nat) (c j : nat) :
  j2len_le m c → j2lenget_pred m j ≤ c.
Proof.
  intros Hm. destruct j as [|j]; simpl; [lia|].
  destruct (m !! j) as [v|] eqn:Hv; simpl; [by eapply Hm|lia].
Qed.

Lemma flm_row_bounds (alo blo bhi i : nat) (j2len : gmap nat nat) (js : list nat)
    (new : gmap nat nat) (x : block) :
  alo ≤ i → j2len_le j2len (i - alo) →
  j2len_le new (S i - alo) → best_in alo (S i) x →
  j2len_le (flm_row blo bhi i j2len js new x).1 (S i - alo)
  ∧ best_in alo (S i) (flm_row blo bhi i j2len js new x).2.
Proof.
  intros Hi Hold. revert new x.
  induction js as [|j js IH]; intros new x Hnew Hx; simpl; [done|].
  destruct (j <? blo); [by apply IH|].
  destruct (bhi <=? j); [done|].
  pose proof (j2lenget_pred_le j2len (i - alo) j Hold) as Hk.
  apply IH.
  - intros j' v. destruct (decide (j' = j)) as [->|Hne].
    + rewrite lookup_insert_eq. intros [= <-]. lia.
    + rewrite lookup_insert_ne by done. apply Hnew.
  - destruct (block_size x <? j2lenget_pred j2len j + 1); [|done].
    unfold best_in. simpl. lia.
Qed.

Lemma flm_rows_bounds (a : list A) (b2j : gmap A (list nat)) (alo blo bhi : nat)
    (len i0 : nat) (st : gmap nat nat * block) :
  alo ≤ i0 → j2len_le st.1 (i0 - alo) → best_in alo i0 st.2 →
  best_in alo (i0 + len) (flm_rows a b2j blo bhi (seq i0 len) st).2.
Proof.
  revert i0 st. induction len as [|len IH]; intros i0 st Hi Hm Hx; simpl.
  - by rewrite Nat.add_0_r.
  - replace (i0 + S len) with (S i0 + len) by lia.
    assert (j2len_le (∅ : gmap nat nat) (S i0 - alo)) as He.
    { intros j v. by rewrite lookup_empty. }
    assert (best_in alo (S i0) st.2) as Hx0.
    { unfold best_in in *. lia. }
    destruct (flm_row_bounds alo blo bhi i0 st.1
                (match a !! i0 with Some x => default [] (b2j !! x) | None => [] end)
                ∅ st.2 Hi Hm He Hx0) as [Hm' Hx'].
    apply IH; [lia|done|done].
Qed.

Lemma extend_left_bounds (a b : list A) (alo blo hi besti bestj bestsize : nat) :
  best_in alo hi (besti, bestj, bestsize) →
  best_in alo hi (extend_left a b alo blo besti bestj bestsize).
Proof.
  revert bestj bestsize. induction besti as [|i IH]; intros bestj bestsize Hx.
  - by destruct bestj.
  - destruct bestj as [|j]; [done|]. cbn [extend_left].
    destruct (_ && _) eqn:Hc; [|done].
    apply IH. apply andb_prop in Hc as [Hc _]. apply andb_prop in Hc as [Hc _].
    apply Nat.ltb_lt in Hc. unfold best_in in *. simpl in *. lia.
Qed.

Lemma extend_right_bounds (a b : list A) (bhi besti bestj n bestsize : nat) :
  bestsize ≤ extend_right a b bhi besti bestj n bestsize
  ∧ extend_right a b bhi besti bestj n bestsize ≤ bestsize + n.
Proof.
  revert bestsize. induction n as [|n IH]; intros bestsize; simpl; [lia|].
  destruct (_ && _); [|lia]. specialize (IH (bestsize + 1)). lia.
Qed.

Lemma find_longest_match_bounds (a b : list A) (b2j : gmap A (list nat))
    (alo ahi blo bhi : nat) :
  alo ≤ ahi → best_in alo ahi (find_longest_match a b b2j alo ahi blo bhi).
Proof.
  intros Hle. unfold find_longest_match.
  pose proof (flm_rows_bounds a b2j alo blo bhi (ahi - alo) alo (∅, (alo, blo, 0))) as Hr.
  destruct (flm_rows _ _ _ _ _ _) as [m x].
  replace (alo + (ahi - alo)) with ahi in Hr by lia.
  assert (best_in alo ahi x) as Hx.
  { apply Hr; [done| |].
    - intros j v. simpl. by rewrite lookup_empty.
    - unfold best_in. simpl. lia. }
  destruct x as [[xi xj] xk].
  pose proof (extend_left_bounds a b alo blo ahi xi xj xk Hx) as Hl. simpl.
  destruct (extend_left a b alo blo xi xj xk) as [[besti bestj] bestsize].
  pose proof (extend_right_bounds a b bhi besti bestj (ahi - (besti + bestsize)) bestsize).
  unfold best_in in *. simpl in *. lia.
Qed.

(** *** The queue loop of [get_matching_blocks] ends *)

Definition queue_measure (queue : list (nat * nat * nat * nat)) : nat :=
  foldr (λ q acc, 2 * (q.1.1.2 - q.1.1.1) + 1 + acc) 0 queue.

Definition queue_ok (queue : list (nat * nat * nat * nat)) : Prop :=
  Forall (λ q, q.1.1.1 ≤ q.1.1.2) queue.

Lemma blocks_loop_enough_fuel (a b : list A) (b2j : gmap A (list nat)) (fuel : nat)
    (queue : list (nat * nat * nat * nat)) (acc : list block) :
  queue_ok queue → queue_measure queue ≤ fuel →
  is_Some (blocks_loop a b b2j fuel queue acc).
Proof.
  revert queue acc. induction fuel as [|fuel IH]; intros queue acc Hok Hm.
  - destruct queue as [|[[[alo ahi] blo] bhi] queue]; simpl in *; [by eexists|lia].
  - destruct queue as [|[[[alo ahi] blo] bhi] queue]; simpl in *; [by eexists|].
    apply Forall_cons in Hok as [Hq Hok]. simpl in Hq.
    pose proof (find_longest_match_bounds a b b2j alo ahi blo bhi Hq) as Hb.
    destruct (find_longest_match a b b2j alo ahi blo bhi) as [[i j] k].
    unfold best_in in Hb. simpl in Hb.
    destruct (k =? 0) eqn:Hk; [apply IH; [done|lia]|].
    apply Nat.eqb_neq in Hk.
    destruct ((alo <? i) && (blo <? j)) eqn:H1, ((i + k <? ahi) && (j + k <? bhi)) eqn:H2;
      apply IH; unfold queue_ok; repeat (apply Forall_cons; split); simpl; try done; lia.
Qed.

Lemma blocks_loop_terminates (a b : list A) :
  is_Some (blocks_loop a b (chain_b b) (2 * length a + 1) [(0, length a, 0, length b)] []).
Proof.
  apply blocks_loop_enough_fuel.
  - unfold queue_ok. repeat constructor. simpl. lia.
  - simpl. lia.
Qed.


(** *** A sequence matched against itself *)

Section SelfMatch.
Variable s : list A.
Variable b2j : gmap A (list nat).
Hypothesis b2j_ok :
  ∀ x js, b2j !! x = Some js → StronglySorted lt js ∧ ∀ j, j ∈ js ↔ s !! j = Some x.

(** The number of consecutive elements with an entry in [b2j] that end
    just before position [i]. *)
Fixpoint run_before (i : nat) : nat :=
  match i with
  | O => 0
  | S i' =>
      match s !! i' with
      | Some x => if bool_decide (is_Some (b2j !! x)) then S (run_before i') else 0
      | None => 0
      end
  end.

Lemma run_before_le (i : nat) : run_before i ≤ i.
Proof.
  induction i as [|i IH]; simpl; [lia|].
  destruct (s !! i); [|lia]. destruct (bool_decide _); lia.
Qed.

Lemma run_before_S (i : nat) (x : A) (js : list nat) :
  s !! i = Some x → b2j !! x = Some js → run_before (S i) = S (run_before i).
Proof.
  intros Hi Hx. simpl. rewrite Hi.
  rewrite bool_decide_eq_true_2; [done|by eexists].
Qed.

Lemma run_before_S_None (i : nat) (x : A) :
  s !! i = Some x → b2j !! x = None → run_before (S i) = 0.
Proof.
  intros Hi Hx. simpl. rewrite Hi.
  rewrite bool_decide_eq_false_2; [done|]. rewrite Hx. by intros [? ?].
Qed.

Arguments run_before : simpl never.

Definition on_diagonal (hi : nat) (x : block) : Prop :=
  x.1.1 = x.1.2 ∧ x.1.1 + x.2 ≤ hi.

Definition new_ok (i : nat) (new : gmap nat nat) : Prop :=
  ∀ j v, new !! j = Some v → v ≤ run_before (S j) ∧ v ≤ run_before (S i).

Lemma self_row (i : nat) (x : A) (js0 : list nat) (j2len : gmap nat nat) :
  s !! i = Some x → b2j !! x = Some js0 →
  (∀ j, j2lenget_pred j2len j ≤ run_before j ∧ j2lenget_pred j2len j ≤ run_before i) →
  j2lenget_pred j2len i = run_before i →
  ∀ (js : list nat) (new : gmap nat nat) (best : block),
    StronglySorted lt js → (∀ j, j ∈ js → s !! j = Some x) →
    on_diagonal (S i) best →
    (∀ y, y ≤ i → run_before y ≤ best.2) →
    (i ∈ js ∨ (run_before (S i) ≤ best.2 ∧ new !! i = Some (run_before (S i)))) →
    new_ok i new →
    on_diagonal (S i) (flm_row 0 (length s) i j2len js new best).2
    ∧ (∀ y, y ≤ S i → run_before y ≤ (flm_row 0 (length s) i j2len js new best).2.2)
    ∧ (flm_row 0 (length s) i j2len js new best).1 !! i = Some (run_before (S i))
    ∧ new_ok i (flm_row 0 (length s) i j2len js new best).1.
Proof.
  intros Hi Hx Hpre Hdiag.
  pose proof (run_before_S i x js0 Hi Hx) as HSi.
  induction js as [|j js IH]; intros new best Hsorted Hjs Hbest Hle Hi3 Hnew.
  - simpl. destruct Hi3 as [Hin|[Hrb Hnewi]]; [by apply elem_of_nil in Hin|].
    split; [done|]. split; [|done].
    intros y Hy. destruct (decide (y = S i)) as [->|]; [done|]. apply Hle. lia.
  - apply StronglySorted_cons in Hsorted as [Hfa Hsorted].
    rewrite Forall_forall in Hfa.
    assert (s !! j = Some x) as Hj by (apply Hjs; left).
    pose proof (run_before_S j x js0 Hj Hx) as HSj.
    pose proof (lookup_lt_Some _ _ _ Hj) as Hjlt.
    cbn [flm_row]. change (j <? 0) with false. cbv iota.
    destruct (Nat.leb_spec (length s) j) as [?|_]; [lia|].
    set (k := j2lenget_pred j2len j + 1).
    assert (k ≤ run_before (S j) ∧ k ≤ run_before (S i)) as [Hk1 Hk2].
    { destruct (Hpre j). subst k. lia. }
    assert (new_ok i (<[j := k]> new)) as Hnew'.
    { intros j' v. destruct (decide (j' = j)) as [->|Hne].
      - rewrite lookup_insert_eq. by intros [= <-].
      - rewrite lookup_insert_ne by done. apply Hnew. }
    assert (∀ j', j' ∈ js → s !! j' = Some x) as Hjs'.
    { intros j' Hj'. apply Hjs. by right. }
    destruct (Nat.lt_trichotomy j i) as [Hlt|[->|Hgt]].
    + assert (run_before (S j) ≤ best.2) by (apply Hle; lia).
      destruct (Nat.ltb_spec (block_size best) k) as [Hc|_];
        [unfold block_size in Hc; lia|].
      apply IH; try done.
      destruct Hi3 as [Hin|[Hrb Hnewi]].
      * left. apply elem_of_cons in Hin as [->|?]; [lia|done].
      * right. split; [done|]. rewrite lookup_insert_ne by lia. done.
    + assert (k = run_before (S i)) as Hk by (subst k; lia).
      pose proof (run_before_le (S i)).
      apply IH; try done.
      * destruct (block_size best <? k); [|done].
        unfold on_diagonal in *. cbn [fst snd]. lia.
      * intros y Hy. specialize (Hle y Hy).
        destruct (Nat.ltb_spec (block_size best) k) as [Hc|_];
          unfold block_size in *; cbn [fst snd]; lia.
      * right. rewrite lookup_insert_eq. split; [|by rewrite Hk].
        destruct (Nat.ltb_spec (block_size best) k) as [Hc|Hc];
          unfold block_size in *; cbn [fst snd]; lia.
    + assert (i ∉ j :: js) as Hnotin.
      { intros [->|Hin]%elem_of_cons; [lia|]. apply Hfa in Hin. lia. }
      destruct Hi3 as [Hin|[Hrb Hnewi]]; [done|].
      destruct (Nat.ltb_spec (block_size best) k) as [Hc|_];
        [unfold block_size in Hc; lia|].
      apply IH; try done.
      right. split; [done|]. rewrite lookup_insert_ne by lia. done.
Qed.

Definition self_inv (i : nat) (st : gmap nat nat * block) : Prop :=
  (∀ j, j2lenget_pred st.1 j ≤ run_before j ∧ j2lenget_pred st.1 j ≤ run_before i)
  ∧ j2lenget_pred st.1 i = run_before i
  ∧ on_diagonal i st.2
  ∧ ∀ y, y ≤ i → run_before y ≤ st.2.2.

Lemma self_rows (len i0 : nat) (st : gmap nat nat * block) :
  i0 + len ≤ length s → self_inv i0 st →
  self_inv (i0 + len) (flm_rows s b2j 0 (length s) (seq i0 len) st).
Proof.
  revert i0 st. induction len as [|len IH]; intros i0 st Hlen Hinv; simpl.
  - by rewrite Nat.add_0_r.
  - replace (i0 + S len) with (S i0 + len) by lia. apply IH; [lia|].
    destruct Hinv as (HA & HA' & HB1 & HB2).
    destruct (lookup_lt_is_Some_2 s i0) as [x Hx]; [lia|]. rewrite Hx.
    destruct (b2j !! x) as [js0|] eqn:Hjs0; simpl.
    + destruct (b2j_ok x js0 Hjs0) as [Hsorted Hmem].
      assert (on_diagonal (S i0) st.2) as Hd0 by (unfold on_diagonal in *; lia).
      assert (new_ok i0 ∅) as Hn0 by (intros j v; by rewrite lookup_empty).
      assert (∀ j, j ∈ js0 → s !! j = Some x) as Hm0 by (intros j Hj; by apply Hmem).
      assert (i0 ∈ js0) as Hin0 by (by apply Hmem).
      destruct (self_row i0 x js0 st.1 Hx Hjs0 HA HA' js0 ∅ st.2
                  Hsorted Hm0 Hd0 HB2 (or_introl Hin0) Hn0)
        as (H1 & H2 & H3 & H4).
      * split; [|split; [|done]].
        -- intros [|j]; simpl; [lia|].
           destruct (_ !! j) as [v|] eqn:Hv; simpl; [by apply H4|lia].
        -- simpl. by rewrite H3.
    + pose proof (run_before_S_None i0 x Hx Hjs0) as H0.
      split; [|split; [|split]].
      * intros [|j]; simpl; [lia|]. rewrite lookup_empty. simpl. lia.
      * simpl. rewrite lookup_empty. by rewrite H0.
      * unfold on_diagonal in *. simpl. lia.
      * intros y Hy. simpl. destruct (decide (y = S i0)) as [->|]; [lia|].
        apply HB2. lia.
Qed.

Lemma extend_left_self (i sz : nat) :
  i ≤ length s → extend_left s s 0 0 i i sz = (0, 0, sz + i).
Proof.
  revert sz. induction i as [|i IH]; intros sz Hi; simpl.
  - by rewrite Nat.add_0_r.
  - destruct (lookup_lt_is_Some_2 s i) as [x Hx]; [lia|]. rewrite Hx.
    rewrite bool_decide_eq_true_2 by done. simpl.
    rewrite IH by lia. f_equal. lia.
Qed.

Lemma extend_right_self (n sz : nat) :
  sz + n = length s → extend_right s s (length s) 0 0 n sz = length s.
Proof.
  revert sz. induction n as [|n IH]; intros sz Hn; simpl; [lia|].
  destruct (Nat.ltb_spec sz (length s)) as [_|?]; [|lia].
  destruct (lookup_lt_is_Some_2 s sz) as [x Hx]; [lia|]. rewrite Hx.
  rewrite bool_decide_eq_true_2 by done. simpl. apply IH. lia.
Qed.

Lemma find_longest_match_self :
  find_longest_match s s b2j 0 (length s) 0 (length s) = (0, 0, length s).
Proof.
  unfold find_longest_match. rewrite Nat.sub_0_r.
  pose proof (self_rows (length s) 0 (∅, (0, 0, 0))) as Hr.
  destruct (flm_rows _ _ _ _ _ _) as [m [[xi xj] xk]].
  destruct Hr as (_ & _ & [Hd Hle] & _); [lia| |].
  { repeat split; simpl; try lia.
    - destruct j; simpl; [lia|]. rewrite lookup_empty. simpl. lia.
    - destruct j; simpl; [lia|]. rewrite lookup_empty. simpl. lia.
    - intros y Hy. replace y with 0 by lia. done. }
  simpl in Hd, Hle. subst xj. simpl.
  rewrite extend_left_self by lia.
  rewrite extend_right_self by lia. done.
Qed.

End SelfMatch.

Lemma matches_self (s : list A) : matches s s = length s.
Proof.
  unfold matches, get_matching_blocks.
  assert (blocks_loop s s (chain_b s) (2 * length s + 1) [(0, length s, 0, length s)] []
          = Some (if length s =? 0 then [] else [(0, 0, length s)])) as ->.
  { replace (2 * length s + 1) with (S (2 * length s)) by lia.
    generalize (2 * length s). intros fuel. cbn [blocks_loop].
    rewrite (find_longest_match_self s (chain_b s) (chain_b_spec s)).
    destruct (length s =? 0) eqn:Hn; [by destruct fuel|].
    rewrite Nat.ltb_irrefl, Nat.add_0_l, Nat.ltb_irrefl. cbn [andb].
    by destruct fuel. }
  destruct (length s =? 0) eqn:Hn; simpl.
  - apply Nat.eqb_eq in Hn. lia.
  - rewrite Hn. simpl. lia.
Qed.

End SequenceMatcherFacts.

(** ** The similarity scorer *)

Lemma length_list_ascii_of_string (s : string) :
  length (list_ascii_of_string s) = String.length s.
Proof. induction s as [|c s IH]; simpl; congruence. Qed.

Lemma length_lower (s : string) : String.length (PyStr.lower s) = String.length s.
Proof. induction s as [|c s IH]; simpl; congruence. Qed.

Lemma is_word_char_lower (c : ascii) :
  PyStr.is_word (PyStr.char_lower c) = PyStr.is_word c.
Proof. destruct c as [[] [] [] [] [] [] [] []]; reflexivity. Qed.

Lemma has_word_char_lower (s : string) :
  has_word_char (PyStr.lower s) = has_word_char s.
Proof. induction s as [|c s IH]; simpl; [done|]. by rewrite is_word_char_lower, IH. Qed.

Lemma findall_word_from_nonempty (cur : list ascii) (s : string) :
  cur ≠ [] ∨ has_word_char s = true → PyStr.findall_word_from cur s ≠ [].
Proof.
  revert cur. induction s as [|c s IH]; intros cur Hc; simpl in *.
  - destruct Hc as [Hc|Hc]; [|done]. by destruct cur.
  - destruct (PyStr.is_word c) eqn:Hw.
    + apply IH. by left.
    + destruct cur; [|done]. apply IH. destruct Hc as [?|?]; [done|by right].
Qed.

Lemma findall_word_from_length (cur : list ascii) (s : string) :
  length (PyStr.findall_word_from cur s)
  ≤ String.length s + match cur with [] => 0 | _ => 1 end.
Proof.
  revert cur. induction s as [|c s IH]; intros cur; simpl.
  - destruct cur; simpl; lia.
  - destruct (PyStr.is_word c).
    + specialize (IH (c :: cur)). simpl in IH. destruct cur; lia.
    + specialize (IH []). simpl in IH. destruct cur; simpl; lia.
Qed.

Lemma size_list_to_set_le (l : list string) :
  size (list_to_set l : gset string) ≤ length l.
Proof.
  induction l as [|x l IH].
  - by rewrite list_to_set_nil, size_empty.
  - rewrite list_to_set_cons, size_union_alt, size_singleton. cbn [length].
    assert (size (list_to_set l ∖ {[x]} : gset string) ≤ size (list_to_set l : gset string)).
    { apply subseteq_size. set_solver. }
    lia.
Qed.

Lemma token_set_size_le (a : string) : size (token_set a) ≤ String.length a.
Proof.
  unfold token_set, PyStr.findall_word.
  pose proof (size_list_to_set_le (PyStr.findall_word_from [] (PyStr.lower a))).
  pose proof (findall_word_from_length [] (PyStr.lower a)) as Hl.
  rewrite length_lower in Hl. simpl in Hl. lia.
Qed.

Lemma token_set_size_pos (a : string) : has_word_char a = true → 1 ≤ size (token_set a).
Proof.
  intros Ha. unfold token_set, PyStr.findall_word.
  pose proof (findall_word_from_nonempty [] (PyStr.lower a)) as Hne.
  rewrite has_word_char_lower in Hne. specialize (Hne (or_intror Ha)).
  destruct (PyStr.findall_word_from [] (PyStr.lower a)) as [|t ts]; [done|].
  assert (size (list_to_set (t :: ts) : gset string) ≠ 0); [|lia].
  apply size_non_empty_iff. set_solver.
Qed.

Lemma token_overlap_self (a : string) :
  has_word_char a = true → (Z.of_nat (String.length a) < 2 ^ 53)%Z →
  token_overlap a a = 1%float.
Proof.
  intros Ha Hlen. unfold token_overlap.
  pose proof (token_set_size_pos a Ha). pose proof (token_set_size_le a).
  assert (token_set a ∩ token_set a = token_set a) as -> by set_solver.
  assert (token_set a ∪ token_set a = token_set a) as -> by set_solver.
  rewrite Nat.max_l by done.
  apply FloatArith.float_of_nat_div_self; [done|lia].
Qed.

Lemma ratio_self (s : string) :
  (Z.of_nat (String.length s) < 2 ^ 52)%Z → ratio s s = 1%float.
Proof.
  intros Hlen. unfold ratio. rewrite matches_self, length_list_ascii_of_string.
  unfold calculate_ratio.
  destruct (String.length s + String.length s =? 0) eqn:Hz; [done|].
  apply Nat.eqb_neq in Hz.
  apply FloatArith.double_div_double; [lia|done].
Qed.


(** C8. On two empty strings the scorer has a value: the denominator of
    line 67 is [max(0, 1) = 1] and the token component is [0.0], the ratio of
    [SequenceMatcher] is [1.0], and the score is their mean, [0.5]. *)
Theorem empty_strings_score :
size (token_set "" ∪ token_set "") `max` 1 = 1
∧ token_overlap "" "" = 0%float ∧ char_sim "" "" = 1%float
∧ token_similarity "" "" = 0.5%float.
Proof. repeat split; vm_compute; reflexivity. Qed.




(** C7 (amended). A string that has a word character scores [1.0] against
    itself.  The bound on the length keeps the integers of lines 67 and 68
    in the range in which [float_of_nat] is exact. *)
Theorem token_similarity_reflexive (a : string) :
has_word_char a = true → (Z.of_nat (String.length a) < 2 ^ 52)%Z →
token_similarity a a = 1%float.
Proof.
intros Ha Hlen. unfold token_similarity, char_sim.
rewrite token_overlap_self by (done || lia).
rewrite ratio_self by (by rewrite length_lower).
reflexivity.
Qed.

Lemma token_similarity_reflexive_witness :
has_word_char "Widget A HS1234" = true
∧ (Z.of_nat (String.length "Widget A HS1234") < 2 ^ 52)%Z
∧ token_similarity "Widget A HS1234" "Widget A HS1234" = 1%float.
Proof.
split; [reflexivity|]. split; [reflexivity|].
apply (token_similarity_reflexive "Widget A HS1234"); reflexivity.
Defined.

(** A string without a word character is not empty and scores [0.5] against
    itself: its token set is empty. *)
Lemma token_similarity_not_reflexive :
String.length "-" = 1 ∧ token_similarity "-" "-" = 0.5%float
∧ PrimFloat.eqb (token_similarity "-" "-") 1%float = false.
Proof. repeat split; vm_compute; reflexivity. Qed.

(** ** The result monad *)

Lemma bind_Ok {T U : Type} (m : result T) (f : T → result U) (y : U) :
  m ≫= f = Ok y ↔ ∃ x, m = Ok x ∧ f x = Ok y.
Proof.
  destruct m as [x|e]; simpl; split.
  - intros Hf. by exists x.
  - by intros (x' & [= ->] & Hf).
  - done.
  - by intros (x' & ? & _).
Qed.

Ltac inv_bind H :=
  repeat match type of H with
  | _ ≫= _ = Ok _ =>
      let x := fresh "x" in
      let Hx := fresh "Hx" in
      apply bind_Ok in H as (x & Hx & H)
  end.

Lemma py_get_Ok (obj : pyval) (key : string) (dflt v : pyval) :
  py_get obj key dflt = Ok v ↔ ∃ d, obj = PDict d ∧ v = dict_get d key dflt.
Proof.
  destruct obj; simpl; split; try done; try (by intros (? & ? & ?)).
  - intros [= <-]. by eexists.
  - intros (d' & [= <-] & ->). done.
Qed.

Lemma py_get_field (obj : pyval) (key : string) (v : pyval) :
  py_get obj key blank = Ok v → v = field obj key.
Proof. intros (d & -> & ->)%py_get_Ok. done. Qed.

(** ** The search for the best invoice item *)

Section BestLoop.
Variable po_it : pyval.
Variable inv_used : gset nat.

(** What the loop guarantees about the candidates it went through. *)
Definition scanned (idx : nat) (inv_items : list pyval) (st' : best) : Prop :=
  ∀ k inv_it, inv_items !! k = Some inv_it → idx + k ∉ inv_used →
    ∃ sc, item_score po_it inv_it = Ok sc
          ∧ PrimFloat.ltb (best_score st') sc = false
          ∧ ∀ i, best_idx st' = Some i → idx + k < i →
                 PrimFloat.leb (best_score st') sc = false.

Definition selected (idx : nat) (inv_items : list pyval) (st' : best) : Prop :=
  ∃ k inv_it sc, inv_items !! k = Some inv_it ∧ (idx + k ∉ inv_used)
                 ∧ item_score po_it inv_it = Ok sc
                 ∧ st' = Best (Some inv_it) sc (Some (idx + k)).

Lemma best_loop_spec (inv_items : list pyval) (idx : nat) (st st' : best) :
  (∀ i, best_idx st = Some i → i < idx) →
  best_loop po_it inv_used idx inv_items st = Ok st' →
  (st' = st ∨ PrimFloat.ltb (best_score st) (best_score st') = true)
  ∧ scanned idx inv_items st'
  ∧ (st' = st ∨ selected idx inv_items st').
Proof.
  revert idx st. induction inv_items as [|inv_it rest IH]; intros idx st Hidx Hrun.
  - simpl in Hrun. injection Hrun as <-. split; [by left|]. split; [|by left].
    intros k inv_it Hk. by rewrite lookup_nil in Hk.
  - cbn [best_loop] in Hrun. destruct (bool_decide (idx ∈ inv_used)) eqn:Hused.
    + apply bool_decide_eq_true in Hused.
      destruct (IH (S idx) st) as (Hm & Hs & Hsel); [|done|].
      { intros i Hi. apply Hidx in Hi. lia. }
      split; [done|]. split.
      * intros [|k] it Hk Hnot.
        -- by rewrite Nat.add_0_r in Hnot.
        -- simpl in Hk. destruct (Hs k it Hk) as (sc & H1 & H2 & H3).
           { by replace (S idx + k) with (idx + S k) by lia. }
           exists sc. split; [done|]. split; [done|].
           intros i Hi Hlt. apply (H3 i Hi). lia.
      * destruct Hsel as [?|(k & it & sc & H1 & H2 & H3 & H4)]; [by left|right].
        exists (S k), it, sc. replace (idx + S k) with (S idx + k) by lia. done.
    + apply bool_decide_eq_false in Hused.
      apply bind_Ok in Hrun as (sc & Hsc & Hrun).
      set (st1 := if PrimFloat.ltb (best_score st) sc
                  then Best (Some inv_it) sc (Some idx) else st) in *.
      assert (Hst1 : PrimFloat.ltb (best_score st1) sc = false).
      { unfold st1. destruct (PrimFloat.ltb (best_score st) sc) eqn:Hlt; [|done].
        simpl. apply FloatOrder.ltb_irrefl. }
      assert (Hst1i : ∀ i, best_idx st1 = Some i → i < S idx).
      { unfold st1. intros i. destruct (PrimFloat.ltb (best_score st) sc).
        - simpl. intros [= <-]. lia.
        - intros Hi%Hidx. lia. }
      assert (Hst1m : st1 = st ∨ PrimFloat.ltb (best_score st) (best_score st1) = true).
      { unfold st1. destruct (PrimFloat.ltb (best_score st) sc) eqn:Hlt; [by right|by left]. }
      destruct (IH (S idx) st1 Hst1i Hrun) as (Hm & Hs & Hsel).
      split; [|split].
      * destruct Hm as [Hm|Hm]; [by rewrite Hm|].
        destruct Hst1m as [Heq|Hst1m]; [right; by rewrite <- Heq|].
        right. by eapply FloatOrder.ltb_trans.
      * intros [|k] it Hk Hnot.
        -- simpl in Hk. injection Hk as <-. exists sc. split; [done|].
           assert (PrimFloat.ltb (best_score st') sc = false) as Hnlt.
           { destruct Hm as [Hm|Hm]; [by rewrite Hm|].
             apply not_true_is_false. intros Hc.
             pose proof (FloatOrder.ltb_trans _ _ _ Hm Hc) as Hc'. congruence. }
           split; [done|]. intros i Hi Hlt.
           destruct Hm as [Hm|Hm].
           ++ rewrite Hm in Hi. apply Hst1i in Hi. lia.
           ++ apply not_true_is_false. intros Hc.
              pose proof (FloatOrder.ltb_leb_trans _ _ _ Hm Hc) as Hc'. congruence.
        -- simpl in Hk. destruct (Hs k it Hk) as (sc' & H1 & H2 & H3).
           { by replace (S idx + k) with (idx + S k) by lia. }
           exists sc'. split; [done|]. split; [done|].
           intros i Hi Hlt. apply (H3 i Hi). lia.
      * destruct Hsel as [Heq|(k & it & sc' & H1 & H2 & H3 & H4)].
        -- rewrite Heq. unfold st1.
           destruct (PrimFloat.ltb (best_score st) sc); [|by left].
           right. exists 0, inv_it, sc. rewrite Nat.add_0_r. done.
        -- right. exists (S k), it, sc'.
           replace (idx + S k) with (S idx + k) by lia. done.
Qed.

(** The loop on the whole list, from the state of lines 79-81. *)
Lemma best_loop_from_start (inv_items : list pyval) (st' : best) :
  best_loop po_it inv_used 0 inv_items best0 = Ok st' →
  scanned 0 inv_items st'
  ∧ (st' = best0
     ∨ ∃ k inv_it sc, inv_items !! k = Some inv_it ∧ (k ∉ inv_used)
                      ∧ item_score po_it inv_it = Ok sc
                      ∧ PrimFloat.ltb 0 sc = true
                      ∧ st' = Best (Some inv_it) sc (Some k)).
Proof.
  intros Hrun. destruct (best_loop_spec inv_items 0 best0 st') as (Hm & Hs & Hsel);
    [done|done|].
  split; [done|]. destruct Hsel as [?|(k & it & sc & H1 & H2 & H3 & ->)]; [by left|].
  right. exists k, it, sc. simpl in *.
  destruct Hm as [?|Hm]; [done|]. done.
Qed.

End BestLoop.

Lemma item_score_Ok (po_it inv_it : pyval) (sc : float) :
  item_score po_it inv_it = Ok sc →
  ∃ d1 d2 a b, po_it = PDict d1 ∧ inv_it = PDict d2
               ∧ dict_get d1 "description" blank = PStr a
               ∧ dict_get d2 "description" blank = PStr b
               ∧ sc = token_similarity a b.
Proof.
  unfold item_score. intros Hsc. inv_bind Hsc.
  apply py_get_Ok in Hx as (d1 & -> & ->). apply py_get_Ok in Hx0 as (d2 & -> & ->).
  destruct (dict_get d1 _ _) eqn:E1; try done.
  destruct (dict_get d2 _ _) eqn:E2; try done.
  simpl in *. injection Hx1 as <-. injection Hx2 as <-. injection Hsc as <-.
  exists d1, d2, s, s0. done.
Qed.

Lemma get_or_blank_Ok (inv_it : option pyval) (key : string) (v : pyval) :
  get_or_blank inv_it key = Ok v → v = reported_field inv_it key.
Proof.
  destruct inv_it as [it|]; simpl; [|by intros [= <-]].
  destruct (py_truthy it) eqn:Ht.
  - apply py_get_field.
  - intros [= <-]. by destruct it as [| | | | |[]|[]].
Qed.

Lemma get_or_blank_total (inv_it : option pyval) (key : string) :
  (∀ it, inv_it = Some it → ∃ d, it = PDict d) →
  get_or_blank inv_it key = Ok (reported_field inv_it key).
Proof.
  intros Hd. destruct inv_it as [it|]; simpl; [|done].
  destruct (Hd it eq_refl) as [d ->]. simpl. by destruct d.
Qed.

(** ** The rows *)

Section ReconcilerFacts.
Variable py_str : pyval → string.
Variable py_round2 : float → float.

(** The row of a purchase-order item, as the specification describes it. *)
Definition expected_row (po_it : pyval) (st : best) (threshold : float) : row :=
  Row (field po_it "description") (field po_it "qty")
      (field po_it "unit_price") (field po_it "total")
      (reported_field (best_match st) "description")
      (reported_field (best_match st) "qty")
      (reported_field (best_match st) "unit_price")
      (reported_field (best_match st) "total")
      (classify py_str (best_score st) threshold
         (field po_it "total") (reported_field (best_match st) "total"))
      (py_round2 (best_score st)).

Lemma po_row_Ok (po_it : pyval) (st : best) (threshold : float) (r : row) :
  po_row py_str py_round2 po_it st threshold = Ok r →
  (∃ d, po_it = PDict d) ∧ r = expected_row po_it st threshold.
Proof.
  unfold po_row. intros Hr. inv_bind Hr. injection Hr as <-.
  split; [apply py_get_Ok in Hx as (d & -> & _); by eexists|].
  apply py_get_field in Hx, Hx1, Hx3, Hx5.
  apply get_or_blank_Ok in Hx0, Hx2, Hx4, Hx6. by subst.
Qed.

Lemma po_row_total (d : list (string * pyval)) (st : best) (threshold : float) :
  (∀ it, best_match st = Some it → ∃ d', it = PDict d') →
  po_row py_str py_round2 (PDict d) st threshold
  = Ok (expected_row (PDict d) st threshold).
Proof.
  intros Hm. unfold po_row. simpl.
  rewrite !(get_or_blank_total _ _ Hm). simpl. done.
Qed.

Lemma po_step_Ok (inv_items : list pyval) (threshold : float) (inv_used inv_used' : gset nat)
    (po_it : pyval) (o : po_outcome) :
  po_step py_str py_round2 inv_items threshold inv_used po_it = Ok (inv_used', o) →
  best_loop po_it inv_used 0 inv_items best0 = Ok (out_best o)
  ∧ out_claim o = claim_of (out_best o) threshold
  ∧ inv_used' = add_claim inv_used (out_claim o)
  ∧ (∃ d, po_it = PDict d)
  ∧ out_row o = expected_row po_it (out_best o) threshold.
Proof.
  unfold po_step. intros Hs. inv_bind Hs. fold best0 in Hx.
  apply po_row_Ok in Hx0 as [Hd ->]. injection Hs as <- <-. simpl. done.
Qed.

Lemma add_claim_union (inv_used : gset nat) (o : po_outcome) (os : list po_outcome) :
  add_claim inv_used (out_claim o) ∪ list_to_set (claims os)
  = inv_used ∪ list_to_set (claims (o :: os)).
Proof.
  unfold claims, add_claim. simpl. destruct (out_claim o); simpl; set_solver.
Qed.

(** The loop over the purchase-order items, pass by pass. *)
Lemma po_loop_Ok (inv_items : list pyval) (threshold : float) (po_items : list pyval)
    (inv_used inv_used' : gset nat) (outcomes : list po_outcome) :
  po_loop py_str py_round2 inv_items threshold inv_used po_items = Ok (inv_used', outcomes) →
  length outcomes = length po_items
  ∧ inv_used' = inv_used ∪ list_to_set (claims outcomes)
  ∧ ∀ k po_it, po_items !! k = Some po_it →
      ∃ o, outcomes !! k = Some o
           ∧ po_step py_str py_round2 inv_items threshold
               (inv_used ∪ list_to_set (claims (take k outcomes))) po_it
             = Ok (inv_used ∪ list_to_set (claims (take (S k) outcomes)), o).
Proof.
  revert inv_used inv_used' outcomes.
  induction po_items as [|po_it rest IH]; intros U U' outs Hrun.
  - simpl in Hrun. injection Hrun as <- <-. split; [done|]. split.
    + unfold claims. simpl. set_solver.
    + intros k po_it Hk. by rewrite lookup_nil in Hk.
  - cbn [po_loop] in Hrun. apply bind_Ok in Hrun as ([U1 o] & Hstep & Hrun).
    apply bind_Ok in Hrun as ([U2 os] & Hloop & Hrun). injection Hrun as <- <-.
    destruct (IH U1 U2 os Hloop) as (Hlen & HU & Hk).
    pose proof (po_step_Ok _ _ _ _ _ _ Hstep) as (_ & _ & HU1 & _).
    split; [simpl; lia|]. split.
    + rewrite HU, HU1. apply add_claim_union.
    + intros [|k] it Hit.
      * simpl in Hit. injection Hit as <-. exists o. split; [done|].
        change (take 0 (o :: os)) with (@nil po_outcome).
        change (take 1 (o :: os)) with [o].
        rewrite <- add_claim_union, <- HU1.
        assert (U ∪ list_to_set (claims []) = U) as -> by (unfold claims; set_solver).
        assert (U1 ∪ list_to_set (claims []) = U1) as -> by (unfold claims; set_solver).
        done.
      * simpl in Hit. destruct (Hk k it Hit) as (o' & Ho' & Hs). exists o'.
        split; [done|].
        change (take (S k) (o :: os)) with (o :: take k os).
        change (take (S (S k)) (o :: os)) with (o :: take (S k) os).
        rewrite <- !add_claim_union, <- HU1. done.
Qed.

Lemma leftover_row_Ok (inv_it : pyval) (r : row) :
  leftover_row inv_it = Ok r → (∃ d, inv_it = PDict d) ∧ r = trailing_row inv_it.
Proof.
  unfold leftover_row. intros Hr. inv_bind Hr. injection Hr as <-.
  split; [apply py_get_Ok in Hx as (d & -> & _); by eexists|].
  apply py_get_field in Hx, Hx0, Hx1, Hx2. by subst.
Qed.

Lemma leftover_loop_Ok (inv_used : gset nat) (inv_items : list pyval) (idx : nat)
    (rs : list row) :
  leftover_loop inv_used idx inv_items = Ok rs →
  rs = trailing_row <$> unclaimed_from inv_used idx inv_items.
Proof.
  revert idx rs. induction inv_items as [|it rest IH]; intros idx rs Hrun; simpl in *.
  - by injection Hrun as <-.
  - destruct (bool_decide (idx ∈ inv_used)); [by apply IH|].
    inv_bind Hrun. injection Hrun as <-. apply leftover_row_Ok in Hx as [_ ->].
    apply IH in Hx0 as ->. done.
Qed.

Lemma reconcile_Ok (po_struct inv_struct : pyval) (threshold : float)
    (outcomes : list po_outcome) (inv_used : gset nat) (leftovers : list row) :
  reconcile py_str py_round2 po_struct inv_struct threshold
  = Ok (outcomes, inv_used, leftovers) ↔
  ∃ po_items inv_items,
    document_items po_struct = Ok po_items
    ∧ document_items inv_struct = Ok inv_items
    ∧ po_loop py_str py_round2 inv_items threshold ∅ po_items = Ok (inv_used, outcomes)
    ∧ leftover_loop inv_used 0 inv_items = Ok leftovers.
Proof.
  unfold reconcile, document_items. split.
  - intros Hr. inv_bind Hr. destruct x3 as [U outs]. inv_bind Hr.
    injection Hr as <- <- <-. exists x1, x2. rewrite Hx, Hx0. simpl. done.
  - intros (po_items & inv_items & Hp & Hi & Hl & Hlo).
    apply bind_Ok in Hp as (pv & -> & Hp). apply bind_Ok in Hi as (iv & -> & Hi).
    simpl. rewrite Hp, Hi. simpl. rewrite Hl. simpl. rewrite Hlo. done.
Qed.

Lemma compare_structures_Ok (po_struct inv_struct : pyval) (threshold : float)
    (rows : list row) :
  compare_structures py_str py_round2 po_struct inv_struct threshold = Ok rows ↔
  ∃ outcomes inv_used leftovers,
    reconcile py_str py_round2 po_struct inv_struct threshold
    = Ok (outcomes, inv_used, leftovers)
    ∧ rows = map out_row outcomes ++ leftovers.
Proof.
  unfold compare_structures. split.
  - intros Hr. apply bind_Ok in Hr as ([[outs U] lefts] & Hr & Hrows).
    injection Hrows as <-. by exists outs, U, lefts.
  - intros (outs & U & lefts & -> & ->). done.
Qed.

Lemma used_before_0 (outcomes : list po_outcome) : used_before outcomes 0 = ∅.
Proof. done. Qed.

Lemma used_before_S (outcomes : list po_outcome) (k : nat) (o : po_outcome) :
  outcomes !! k = Some o →
  used_before outcomes (S k) = add_claim (used_before outcomes k) (out_claim o).
Proof.
  intros Ho. unfold used_before, claims.
  rewrite (take_S_r _ _ _ Ho), omap_app, list_to_set_app_L. simpl.
  destruct (out_claim o); simpl; set_solver.
Qed.

Lemma used_before_all (outcomes : list po_outcome) :
  used_before outcomes (length outcomes) = list_to_set (claims outcomes).
Proof. unfold used_before. by rewrite firstn_all. Qed.

(** A run of the reconciler, pass by pass. *)
Definition pass_ok (inv_items : list pyval) (threshold : float)
    (outcomes : list po_outcome) (k : nat) (po_it : pyval) (o : po_outcome) : Prop :=
  best_loop po_it (used_before outcomes k) 0 inv_items best0 = Ok (out_best o)
  ∧ out_claim o = claim_of (out_best o) threshold
  ∧ (∃ d, po_it = PDict d)
  ∧ out_row o = expected_row po_it (out_best o) threshold.

Lemma reconcile_passes (po_struct inv_struct : pyval) (threshold : float)
    (outcomes : list po_outcome) (inv_used : gset nat) (leftovers : list row) :
  reconcile py_str py_round2 po_struct inv_struct threshold
  = Ok (outcomes, inv_used, leftovers) →
  ∃ po_items inv_items,
    document_items po_struct = Ok po_items
    ∧ document_items inv_struct = Ok inv_items
    ∧ length outcomes = length po_items
    ∧ inv_used = list_to_set (claims outcomes)
    ∧ leftovers = trailing_row <$> unclaimed inv_used inv_items
    ∧ ∀ k po_it, po_items !! k = Some po_it →
        ∃ o, outcomes !! k = Some o ∧ pass_ok inv_items threshold outcomes k po_it o.
Proof.
  intros (po_items & inv_items & Hp & Hi & Hl & Hlo)%reconcile_Ok.
  exists po_items, inv_items. apply po_loop_Ok in Hl as (Hlen & HU & Hk).
  assert (inv_used = list_to_set (claims outcomes)) as HU' by (rewrite HU; set_solver).
  split; [done|]. split; [done|]. split; [done|]. split; [done|].
  split; [by apply leftover_loop_Ok in Hlo|].
  intros k po_it Hit. destruct (Hk k po_it Hit) as (o & Ho & Hs). exists o.
  split; [done|].
  assert (∅ ∪ list_to_set (claims (take k outcomes)) = used_before outcomes k) as Hu
    by (unfold used_before; set_solver).
  rewrite Hu in Hs. apply po_step_Ok in Hs as (H1 & H2 & _ & H4 & H5). done.
Qed.

Lemma pass_best_match_dict (inv_items : list pyval) (threshold : float)
    (outcomes : list po_outcome) (k : nat) (po_it : pyval) (o : po_outcome) :
  pass_ok inv_items threshold outcomes k po_it o →
  ∀ it, best_match (out_best o) = Some it → ∃ d, it = PDict d.
Proof.
  intros (Hb & _) it Hit. apply best_loop_from_start in Hb as [_ Hsel].
  destruct Hsel as [Heq|(j & it' & sc & _ & _ & Hsc & _ & Heq)]; rewrite Heq in Hit.
  - done.
  - injection Hit as ->. apply item_score_Ok in Hsc as (_ & d2 & _ & _ & _ & -> & _).
    by eexists.
Qed.

(** An index is claimed at a pass only if it was free, and is an index of
    the invoice. *)
Lemma pass_claim_fresh (inv_items : list pyval) (threshold : float)
    (outcomes : list po_outcome) (k : nat) (po_it : pyval) (o : po_outcome) (i : nat) :
  pass_ok inv_items threshold outcomes k po_it o → out_claim o = Some i →
  (i ∉ used_before outcomes k) ∧ i < length inv_items
  ∧ best_idx (out_best o) = Some i
  ∧ PrimFloat.leb threshold (best_score (out_best o)) = true.
Proof.
  intros (Hb & Hc & _) Hi. rewrite Hc in Hi. unfold claim_of in Hi.
  destruct (best_idx (out_best o)) as [i'|] eqn:Hidx; [|done].
  destruct (PrimFloat.leb threshold _) eqn:Hle; [|done]. injection Hi as ->.
  apply best_loop_from_start in Hb as [_ Hsel].
  destruct Hsel as [Heq|(j & it' & sc & Hj & Hfree & _ & _ & Heq)]; rewrite Heq in Hidx.
  - done.
  - injection Hidx as <-. apply lookup_lt_Some in Hj. done.
Qed.

Lemma claims_NoDup (outcomes : list po_outcome) :
  (∀ k o i, outcomes !! k = Some o → out_claim o = Some i → i ∉ used_before outcomes k) →
  NoDup (claims outcomes).
Proof.
  induction outcomes as [|o outcomes IH] using rev_ind; intros Hfresh.
  - constructor.
  - unfold claims. rewrite omap_app. apply NoDup_app. split; [|split].
    + apply IH. intros k o' i Ho' Hi.
      specialize (Hfresh k o' i (lookup_app_l_Some _ _ _ _ Ho') Hi).
      unfold used_before in *.
      rewrite take_app_le in Hfresh; [done|].
      apply lookup_lt_Some in Ho'. lia.
    + intros i Hin Hin'. simpl in Hin'.
      destruct (out_claim o) as [i'|] eqn:Hc; simpl in Hin'; [|by apply elem_of_nil in Hin'].
      apply list_elem_of_singleton in Hin' as ->.
      specialize (Hfresh (length outcomes) o i' (list_lookup_middle _ _ _ _ eq_refl) Hc).
      apply Hfresh. unfold used_before.
      rewrite take_app_le, firstn_all by lia. by apply elem_of_list_to_set.
    + simpl. destruct (out_claim o); simpl; [apply NoDup_singleton|constructor].
Qed.

(** *** Status of a purchase-order row *)

Lemma classify_Match (sc threshold : float) (po_total inv_total : pyval) :
classify py_str sc threshold po_total inv_total = Match ↔
PrimFloat.leb threshold sc = true ∧ py_str po_total = py_str inv_total.
Proof.
unfold classify. destruct (PrimFloat.leb threshold sc); simpl.
- destruct (String.eqb_spec (py_str po_total) (py_str inv_total)); split; try done.
  by intros [_ ?].
- split; [done|]. by intros [? _].
Qed.

Lemma classify_PartialMatch (sc threshold : float) (po_total inv_total : pyval) :
classify py_str sc threshold po_total inv_total = PartialMatch ↔
PrimFloat.leb threshold sc = true ∧ py_str po_total ≠ py_str inv_total.
Proof.
unfold classify. destruct (PrimFloat.leb threshold sc); simpl.
- destruct (String.eqb_spec (py_str po_total) (py_str inv_total)); split; try done.
  by intros [_ ?].
- split; [done|]. by intros [? _].
Qed.

Lemma classify_Mismatch (sc threshold : float) (po_total inv_total : pyval) :
classify py_str sc threshold po_total inv_total = Mismatch ↔
PrimFloat.leb threshold sc = false.
Proof.
unfold classify. destruct (PrimFloat.leb threshold sc); simpl; [|done].
by destruct (String.eqb (py_str po_total) (py_str inv_total)).
Qed.

(** When every invoice index is in [inv_used] the search leaves its state as
    it found it. *)
Lemma best_loop_no_candidate (po_it : pyval) (inv_used : gset nat)
  (inv_items : list pyval) (idx : nat) (st : best) :
(∀ j, idx ≤ j < idx + length inv_items → j ∈ inv_used) →
best_loop po_it inv_used idx inv_items st = Ok st.
Proof.
revert idx. induction inv_items as [|it rest IH]; intros idx Hall; simpl; [done|].
rewrite bool_decide_eq_true_2 by (apply Hall; simpl; lia).
apply IH. intros j Hj. apply Hall. simpl. lia.
Qed.

(** C1 (amended). In every run that returns, the row of every purchase-order
    item follows [status_rule]: [Match] if the best score is at least the
    threshold and the stringified totals are equal, [PartialMatch] if the
    best score is at least the threshold and the stringified totals differ
    (an absent total reads as the empty string, so two absent totals are
    equal), [Mismatch] if the best score is below the threshold, which
    includes an item with no candidate, whose score is [0.0]. *)
Theorem status_classification (po_struct inv_struct : pyval) (threshold : float)
  (outcomes : list po_outcome) (inv_used : gset nat) (leftovers : list row) :
reconcile py_str py_round2 po_struct inv_struct threshold
= Ok (outcomes, inv_used, leftovers) →
∃ po_items inv_items,
  document_items po_struct = Ok po_items
  ∧ document_items inv_struct = Ok inv_items
  ∧ ∀ k po_it, po_items !! k = Some po_it →
      ∃ o, outcomes !! k = Some o
           ∧ status_rule py_str threshold inv_items (used_before outcomes k) po_it o.
Proof.
intros (po_items & inv_items & Hp & Hi & _ & _ & _ & Hk)%reconcile_passes.
exists po_items, inv_items. split; [done|]. split; [done|].
intros k po_it Hit. destruct (Hk k po_it Hit) as (o & Ho & Hb & Hc & Hd & Hr).
exists o. split; [done|]. unfold status_rule.
rewrite Hr. cbn [po_total invoice_total status expected_row].
split; [done|]. split; [done|].
split; [apply classify_Match|]. split; [apply classify_PartialMatch|].
split; [apply classify_Mismatch|]. split.
- intros Hlt. apply classify_Mismatch. by apply FloatOrder.ltb_not_leb.
- intros Hall. rewrite best_loop_no_candidate in Hb.
  + injection Hb as <-. done.
  + intros j Hj. apply Hall. lia.
Qed.

(** *** Selection and claims *)

(** C4 (amended). In every run that returns, the purchase-order items are
    processed in input order, each against the invoice items the earlier
    ones left unclaimed, and each follows [selection_rule]: among the
    unclaimed invoice items whose score is above [0.0] it selects the one
    with the highest score, the first seen on ties; it claims the selected
    index only when the best score is at least the threshold; below the
    threshold the selected item is still reported in the row and stays
    unclaimed. *)
Theorem greedy_selection (po_struct inv_struct : pyval) (threshold : float)
  (outcomes : list po_outcome) (inv_used : gset nat) (leftovers : list row) :
reconcile py_str py_round2 po_struct inv_struct threshold
= Ok (outcomes, inv_used, leftovers) →
∃ po_items inv_items,
  document_items po_struct = Ok po_items
  ∧ document_items inv_struct = Ok inv_items
  ∧ ∀ k po_it, po_items !! k = Some po_it →
      ∃ o, outcomes !! k = Some o
           ∧ selection_rule threshold inv_items (used_before outcomes k) po_it o
           ∧ used_before outcomes (S k)
             = add_claim (used_before outcomes k) (out_claim o).
Proof.
intros (po_items & inv_items & Hp & Hi & _ & _ & _ & Hk)%reconcile_passes.
exists po_items, inv_items. split; [done|]. split; [done|].
intros k po_it Hit. destruct (Hk k po_it Hit) as (o & Ho & Hb & Hc & Hd & Hr).
exists o. split; [done|]. split; [|by apply used_before_S].
apply best_loop_from_start in Hb as [Hscan Hsel]. unfold selection_rule.
split; [|split; [done|split; [|by rewrite Hr]]].
- intros j inv_it Hj Hfree. by apply (Hscan j inv_it Hj).
- intros i. rewrite Hc. unfold claim_of.
  destruct (best_idx (out_best o)) as [i'|]; [|split; [done|by intros [? _]]].
  destruct (PrimFloat.leb threshold (best_score (out_best o))); split.
  + by intros [= ->].
  + by intros [[= ->] _].
  + done.
  + by intros [_ ?].
Qed.

(** What every pass leaves, whatever the item. *)
Definition outcome_ok (threshold : float) (o : po_outcome) : Prop :=
is_matched (out_row o) = PrimFloat.leb threshold (best_score (out_best o))
∧ out_claim o = claim_of (out_best o) threshold
∧ (out_best o = best0
   ∨ ∃ m sc i, PrimFloat.ltb 0 sc = true ∧ out_best o = Best m sc (Some i)).

Lemma reconcile_outcomes_ok (po_struct inv_struct : pyval) (threshold : float)
  (outcomes : list po_outcome) (inv_used : gset nat) (leftovers : list row) :
reconcile py_str py_round2 po_struct inv_struct threshold
= Ok (outcomes, inv_used, leftovers) →
Forall (outcome_ok threshold) outcomes.
Proof.
intros (po_items & inv_items & _ & _ & Hlen & _ & _ & Hk)%reconcile_passes.
apply Forall_lookup. intros k o Ho.
destruct (lookup_lt_is_Some_2 po_items k) as [po_it Hit].
{ apply lookup_lt_Some in Ho. lia. }
destruct (Hk k po_it Hit) as (o' & Ho' & Hb & Hc & _ & Hr).
assert (o' = o) as -> by congruence.
split; [|split; [done|]].
- rewrite Hr. unfold is_matched. cbn [status expected_row]. unfold classify.
  destruct (PrimFloat.leb threshold _); [|done]. by destruct (String.eqb _ _).
- apply best_loop_from_start in Hb as [_ [?|(i & it & sc & _ & _ & _ & ? & ?)]]; [by left|].
  right. by exists (Some it), sc, i.
Qed.

Lemma reconcile_pass_of_outcome (inv_items po_items : list pyval) (threshold : float)
  (outcomes : list po_outcome) :
length outcomes = length po_items →
(∀ k po_it, po_items !! k = Some po_it →
   ∃ o, outcomes !! k = Some o ∧ pass_ok inv_items threshold outcomes k po_it o) →
∀ k o, outcomes !! k = Some o → ∃ po_it, pass_ok inv_items threshold outcomes k po_it o.
Proof.
intros Hlen Hk k o Ho. destruct (lookup_lt_is_Some_2 po_items k) as [po_it Hit].
{ apply lookup_lt_Some in Ho. lia. }
destruct (Hk k po_it Hit) as (o' & Ho' & Hpass). exists po_it. congruence.
Qed.

Lemma reconcile_claims_NoDup (po_struct inv_struct : pyval) (threshold : float)
  (outcomes : list po_outcome) (inv_used : gset nat) (leftovers : list row) :
reconcile py_str py_round2 po_struct inv_struct threshold
= Ok (outcomes, inv_used, leftovers) →
NoDup (claims outcomes) ∧ inv_used = list_to_set (claims outcomes).
Proof.
intros (po_items & inv_items & _ & _ & Hlen & HU & _ & Hk)%reconcile_passes.
split; [|done]. apply claims_NoDup. intros k o i Ho Hc.
destruct (reconcile_pass_of_outcome _ _ _ _ Hlen Hk k o Ho) as [po_it Hp].
by destruct (pass_claim_fresh _ _ _ _ _ _ _ Hp Hc).
Qed.

(** C5. In every run that returns, the indices the purchase-order rows
    claimed are indices of invoice items, no index is claimed by two rows,
    [inv_used] is the set of the claimed indices, a row with the status
    [Match] or [PartialMatch] has claimed the invoice item it reports, and
    the leftover rows are those of the invoice items whose index is not
    claimed: an invoice item is paired with at most one purchase-order row,
    or has a row of its own. *)
Theorem claims_one_to_one (po_struct inv_struct : pyval) (threshold : float)
  (outcomes : list po_outcome) (inv_used : gset nat) (leftovers : list row) :
reconcile py_str py_round2 po_struct inv_struct threshold
= Ok (outcomes, inv_used, leftovers) →
∃ inv_items,
  document_items inv_struct = Ok inv_items
  ∧ NoDup (claims outcomes)
  ∧ (∀ k1 k2 o1 o2 i, outcomes !! k1 = Some o1 → outcomes !! k2 = Some o2 →
       out_claim o1 = Some i → out_claim o2 = Some i → k1 = k2)
  ∧ (∀ i, i ∈ claims outcomes → i < length inv_items)
  ∧ (∀ k o i, outcomes !! k = Some o → is_matched (out_row o) = true →
       best_idx (out_best o) = Some i → out_claim o = Some i)
  ∧ inv_used = list_to_set (claims outcomes)
  ∧ leftovers = trailing_row <$> unclaimed (list_to_set (claims outcomes)) inv_items.
Proof.
intros Hrun. destruct (reconcile_claims_NoDup _ _ _ _ _ _ Hrun) as [Hnd _].
pose proof (reconcile_outcomes_ok _ _ _ _ _ _ Hrun) as Hok.
apply reconcile_passes in Hrun
  as (po_items & inv_items & Hp & Hi & Hlen & HU & Hlo & Hk).
exists inv_items. split; [done|].
pose proof (reconcile_pass_of_outcome _ _ _ _ Hlen Hk) as Hpass.
assert (Hfresh : ∀ k o i, outcomes !! k = Some o → out_claim o = Some i →
          i ∉ used_before outcomes k).
{ intros k o i Ho Hc. destruct (Hpass k o Ho) as [po_it Hp'].
  by destruct (pass_claim_fresh _ _ _ _ _ _ _ Hp' Hc). }
split; [done|]. split; [|split; [|split; [|split; [done|by rewrite <- HU]]]].
- assert (Hlt : ∀ k1 k2 o1 o2 i, outcomes !! k1 = Some o1 → outcomes !! k2 = Some o2 →
            out_claim o1 = Some i → out_claim o2 = Some i → ¬ k1 < k2).
  { intros k1 k2 o1 o2 i Ho1 Ho2 Hc1 Hc2 Hlt.
    apply (Hfresh k2 o2 i Ho2 Hc2). unfold used_before.
    apply elem_of_list_to_set. unfold claims. apply list_elem_of_omap.
    exists o1. split; [|done]. apply list_elem_of_lookup. exists k1.
    rewrite lookup_take_lt by done. done. }
  intros k1 k2 o1 o2 i Ho1 Ho2 Hc1 Hc2.
  destruct (Nat.lt_trichotomy k1 k2) as [Hc|[Hc|Hc]]; [|done|].
  + by destruct (Hlt k1 k2 o1 o2 i).
  + by destruct (Hlt k2 k1 o2 o1 i).
- intros i Hin. unfold claims in Hin. apply list_elem_of_omap in Hin as (o & Ho & Hc).
  apply list_elem_of_lookup in Ho as [k Ho]. destruct (Hpass k o Ho) as [po_it Hp'].
  by destruct (pass_claim_fresh _ _ _ _ _ _ _ Hp' Hc) as (_ & ? & _).
- intros k o i Ho Hm Hidx.
  destruct (proj1 (Forall_lookup _ _) Hok k o Ho) as (Hm' & Hc & _).
  rewrite Hc. unfold claim_of. rewrite Hidx, <- Hm', Hm. done.
Qed.

Lemma unclaimed_from_length (inv_used : gset nat) (inv_items : list pyval) (idx : nat) :
length (unclaimed_from inv_used idx inv_items) ≤ length inv_items.
Proof.
revert idx. induction inv_items as [|it rest IH]; intros idx; simpl; [done|].
specialize (IH (S idx)). destruct (bool_decide (idx ∈ inv_used)); simpl; lia.
Qed.

(** *** Documents that are absent, and documents that are well formed *)

Lemma items_of_absent (struct : pyval) :
document_absent struct → items_of struct = Ok (PList []).
Proof.
intros [->|(d & -> & Hd)]; [done|]. unfold items_of. destruct d as [|kv d]; [done|].
cbn [py_truthy py_get]. f_equal. revert Hd. generalize (kv :: d). clear.
intros l Hl. induction l as [|[k v] l IH]; simpl; [done|].
destruct (String.eqb_spec k "items") as [->|Hne].
- exfalso. apply Hl. simpl. left.
- apply IH. intros Hin. apply Hl. simpl. by right.
Qed.

Lemma document_items_absent (struct : pyval) :
document_absent struct → document_items struct = Ok [].
Proof. intros Ha. unfold document_items. by rewrite items_of_absent. Qed.

Lemma document_items_ok (struct : pyval) :
document_ok struct → ∃ items, document_items struct = Ok items ∧ Forall item_ok items.
Proof.
intros (d & items & -> & Hd & Hok). exists items. split; [|done].
unfold document_items, items_of. destruct d as [|kv d].
- simpl in *. by injection Hd as <-.
- cbn [py_truthy py_get]. rewrite Hd. done.
Qed.

Lemma item_score_total (po_it inv_it : pyval) :
item_ok po_it → item_ok inv_it → ∃ sc, item_score po_it inv_it = Ok sc.
Proof.
destruct po_it as [| | | | | |d1]; try done. destruct inv_it as [| | | | | |d2]; try done.
intros [a Ha] [b Hb]. unfold item_score. simpl. rewrite Ha, Hb. simpl. by eexists.
Qed.

Lemma best_loop_total (po_it : pyval) (inv_used : gset nat) (inv_items : list pyval)
  (idx : nat) (st : best) :
item_ok po_it → Forall item_ok inv_items →
∃ st', best_loop po_it inv_used idx inv_items st = Ok st'.
Proof.
intros Hpo Hinv. revert idx st.
induction Hinv as [|it rest Hit Hrest IH]; intros idx st; simpl; [by eexists|].
destruct (bool_decide (idx ∈ inv_used)); [apply IH|].
destruct (item_score_total po_it it Hpo Hit) as [sc ->]. simpl. apply IH.
Qed.

Lemma po_step_eval (inv_items : list pyval) (threshold : float) (inv_used : gset nat)
  (d : list (string * pyval)) (st : best) :
best_loop (PDict d) inv_used 0 inv_items best0 = Ok st →
(∀ it, best_match st = Some it → ∃ d', it = PDict d') →
po_step py_str py_round2 inv_items threshold inv_used (PDict d)
= Ok (add_claim inv_used (claim_of st threshold),
      PoOutcome st (claim_of st threshold) (expected_row (PDict d) st threshold)).
Proof.
intros Hst Hm. unfold po_step. fold best0. rewrite Hst.
change (Ok st ≫= ?f) with (f st). cbv beta. rewrite (po_row_total d st threshold Hm).
done.
Qed.

Lemma po_step_total (inv_items : list pyval) (threshold : float) (inv_used : gset nat)
  (po_it : pyval) :
item_ok po_it → Forall item_ok inv_items →
∃ res, po_step py_str py_round2 inv_items threshold inv_used po_it = Ok res.
Proof.
intros Hpo Hinv.
destruct (best_loop_total po_it inv_used inv_items 0 best0 Hpo Hinv) as [st Hst].
unfold po_step. fold best0. rewrite Hst. simpl.
destruct po_it as [| | | | | |d]; try done. rewrite po_row_total; [by eexists|].
intros it Hit. apply best_loop_from_start in Hst as [_ Hsel].
destruct Hsel as [Heq|(j & it' & sc & _ & _ & Hsc & _ & Heq)]; rewrite Heq in Hit.
- done.
- injection Hit as ->. apply item_score_Ok in Hsc as (_ & d2 & _ & _ & _ & -> & _).
  by eexists.
Qed.

Lemma po_loop_total (inv_items : list pyval) (threshold : float) (po_items : list pyval)
  (inv_used : gset nat) :
Forall item_ok po_items → Forall item_ok inv_items →
∃ res, po_loop py_str py_round2 inv_items threshold inv_used po_items = Ok res.
Proof.
intros Hpo Hinv. revert inv_used.
induction Hpo as [|po_it rest Hit Hrest IH]; intros U; simpl; [by eexists|].
destruct (po_step_total inv_items threshold U po_it Hit Hinv) as [[U1 o] ->]. simpl.
destruct (IH U1) as [[U2 os] ->]. simpl. by eexists.
Qed.

Lemma leftover_loop_total (inv_used : gset nat) (inv_items : list pyval) (idx : nat) :
Forall item_ok inv_items → ∃ rs, leftover_loop inv_used idx inv_items = Ok rs.
Proof.
intros Hinv. revert idx.
induction Hinv as [|it rest Hit Hrest IH]; intros idx; simpl; [by eexists|].
destruct (bool_decide (idx ∈ inv_used)); [apply IH|].
destruct it as [| | | | | |d]; try done. simpl.
destruct (IH (S idx)) as [rs ->]. simpl. by eexists.
Qed.

Lemma compare_structures_total (po_struct inv_struct : pyval) (threshold : float) :
(document_absent po_struct ∨ document_ok po_struct) →
(document_absent inv_struct ∨ document_ok inv_struct) →
∃ rows, compare_structures py_str py_round2 po_struct inv_struct threshold = Ok rows.
Proof.
intros Hpo Hinv.
assert (∀ s, document_absent s ∨ document_ok s →
             ∃ items, document_items s = Ok items ∧ Forall item_ok items) as Hdoc.
{ intros s [Ha|Hok]; [|by apply document_items_ok].
  exists []. split; [by apply document_items_absent|constructor]. }
destruct (Hdoc _ Hpo) as (po_items & Hp & Hpok).
destruct (Hdoc _ Hinv) as (inv_items & Hi & Hiok).
destruct (po_loop_total inv_items threshold po_items ∅ Hpok Hiok) as [[U outs] Hl].
destruct (leftover_loop_total U inv_items 0 Hiok) as [lefts Hlo].
exists (map out_row outs ++ lefts). apply compare_structures_Ok.
exists outs, U, lefts. split; [|done]. apply reconcile_Ok. by exists po_items, inv_items.
Qed.

Lemma compare_structures_items_l (po1 po2 inv_struct : pyval) (threshold : float) :
items_of po1 = items_of po2 →
compare_structures py_str py_round2 po1 inv_struct threshold
= compare_structures py_str py_round2 po2 inv_struct threshold.
Proof. intros Heq. unfold compare_structures, reconcile. by rewrite Heq. Qed.

Lemma compare_structures_items_r (po_struct inv1 inv2 : pyval) (threshold : float) :
items_of inv1 = items_of inv2 →
compare_structures py_str py_round2 po_struct inv1 threshold
= compare_structures py_str py_round2 po_struct inv2 threshold.
Proof. intros Heq. unfold compare_structures, reconcile. by rewrite Heq. Qed.

(** C9. A document that is null or lacks the key [items] has no items, and in
    either argument position it gives what a document with an empty item
    list gives; with it, the reconciler returns rows, for every threshold,
    whenever the other document is absent in the same sense or is well
    formed. *)
Theorem absent_document_is_empty (struct other : pyval) (threshold : float) :
document_absent struct →
document_items struct = Ok []
∧ compare_structures py_str py_round2 struct other threshold
  = compare_structures py_str py_round2 (doc []) other threshold
∧ compare_structures py_str py_round2 other struct threshold
  = compare_structures py_str py_round2 other (doc []) threshold
∧ (document_absent other ∨ document_ok other →
   (∃ rows, compare_structures py_str py_round2 struct other threshold = Ok rows)
   ∧ (∃ rows, compare_structures py_str py_round2 other struct threshold = Ok rows))
∧ compare_structures py_str py_round2 struct struct threshold = Ok [].
Proof.
intros Ha. pose proof (items_of_absent struct Ha) as Hitems.
split; [by apply document_items_absent|].
split; [by apply compare_structures_items_l|].
split; [by apply compare_structures_items_r|]. split.
- intros Hother. split; apply compare_structures_total; auto.
- unfold compare_structures, reconcile. rewrite Hitems. done.
Qed.

(** *** The threshold [0.0] *)



(** *** Two runs that differ in the threshold *)

(** A search that selects an index free in a larger [inv_used] selects it
    there too. *)
Lemma best_loop_same (po_it : pyval) (inv_items : list pyval) (U1 U2 : gset nat)
  (st1 st2 : best) (y : nat) :
U2 ⊆ U1 →
best_loop po_it U1 0 inv_items best0 = Ok st1 →
best_loop po_it U2 0 inv_items best0 = Ok st2 →
best_idx st2 = Some y → y ∉ U1 → st1 = st2.
Proof.
intros Hsub H1 H2 Hy Hfree.
apply best_loop_from_start in H1 as [Hscan1 Hsel1].
apply best_loop_from_start in H2 as [Hscan2 Hsel2].
destruct Hsel2 as [Heq|(y' & ity & scy & Hity & Hy2 & Hscy & Hposy & ->)];
  [by rewrite Heq in Hy|].
simpl in Hy. injection Hy as ->.
destruct (Hscan1 y ity Hity Hfree) as (sc & Hsc & Hnlt & Hearlier).
rewrite Hscy in Hsc. injection Hsc as <-.
destruct Hsel1 as [->|(i & iti & sci & Hiti & Hi1 & Hsci & Hposi & ->)].
- simpl in Hnlt. congruence.
- simpl in *.
  assert (i ∉ U2) as Hi2 by set_solver.
  destruct (Hscan2 i iti Hiti Hi2) as (sc & Hsc & Hnlt2 & Hearlier2).
  rewrite Hsci in Hsc. injection Hsc as <-. simpl in *.
  pose proof (FloatOrder.ltb_number_r _ _ Hposy) as Hny.
  pose proof (FloatOrder.ltb_number_r _ _ Hposi) as Hni.
  destruct (Nat.lt_trichotomy i y) as [Hlt|[->|Hgt]].
  + exfalso. specialize (Hearlier2 y eq_refl Hlt).
    destruct (FloatOrder.number_total sci scy Hni Hny); congruence.
  + rewrite Hity in Hiti. injection Hiti as <-.
    rewrite Hscy in Hsci. injection Hsci as <-. done.
  + exfalso. specialize (Hearlier i eq_refl Hgt).
    destruct (FloatOrder.number_total scy sci Hny Hni); congruence.
Qed.

Lemma po_step_mono (inv_items : list pyval) (t1 t2 : float) (U1 U2 U1' U2' : gset nat)
  (po_it : pyval) (o1 o2 : po_outcome) :
PrimFloat.leb t1 t2 = true → U2 ⊆ U1 →
po_step py_str py_round2 inv_items t1 U1 po_it = Ok (U1', o1) →
po_step py_str py_round2 inv_items t2 U2 po_it = Ok (U2', o2) →
U2' ⊆ U1'.
Proof.
intros Ht Hsub (Hb1 & Hc1 & -> & _)%po_step_Ok (Hb2 & Hc2 & -> & _)%po_step_Ok.
destruct (out_claim o2) as [y|] eqn:Hy; simpl;
  [|destruct (out_claim o1); simpl; set_solver].
clear Hy. symmetry in Hc2. unfold claim_of in Hc2.
destruct (best_idx (out_best o2)) as [y'|] eqn:Hidx; [|done].
destruct (PrimFloat.leb t2 (best_score (out_best o2))) eqn:Hle; [|done].
injection Hc2 as ->.
destruct (decide (y ∈ U1)) as [Hin|Hfree].
- destruct (out_claim o1); simpl; set_solver.
- pose proof (best_loop_same _ _ _ _ _ _ _ Hsub Hb1 Hb2 Hidx Hfree) as Heq.
  rewrite Hc1, Heq. unfold claim_of. rewrite Hidx.
  rewrite (FloatOrder.leb_trans _ _ _ Ht Hle). simpl. set_solver.
Qed.

Lemma po_loop_mono (inv_items : list pyval) (t1 t2 : float) (po_items : list pyval)
  (U1 U2 U1' U2' : gset nat) (outs1 outs2 : list po_outcome) :
PrimFloat.leb t1 t2 = true → U2 ⊆ U1 →
po_loop py_str py_round2 inv_items t1 U1 po_items = Ok (U1', outs1) →
po_loop py_str py_round2 inv_items t2 U2 po_items = Ok (U2', outs2) →
U2' ⊆ U1'.
Proof.
intros Ht. revert U1 U2 U1' U2' outs1 outs2.
induction po_items as [|po_it rest IH]; intros U1 U2 U1' U2' outs1 outs2 Hsub H1 H2.
- simpl in *. injection H1 as <- _. injection H2 as <- _. done.
- cbn [po_loop] in H1, H2.
  apply bind_Ok in H1 as ([V1 o1] & Hs1 & H1). apply bind_Ok in H1 as ([W1 os1] & Hl1 & H1).
  apply bind_Ok in H2 as ([V2 o2] & Hs2 & H2). apply bind_Ok in H2 as ([W2 os2] & Hl2 & H2).
  injection H1 as <- _. injection H2 as <- _.
  eapply IH; [|done|done]. by eapply po_step_mono.
Qed.

Lemma unclaimed_from_mono (U1 U2 : gset nat) (inv_items : list pyval) (idx : nat) :
U2 ⊆ U1 →
length (unclaimed_from U1 idx inv_items) ≤ length (unclaimed_from U2 idx inv_items).
Proof.
intros Hsub. revert idx. induction inv_items as [|it rest IH]; intros idx; simpl; [done|].
specialize (IH (S idx)).
destruct (decide (idx ∈ U2)) as [Hin|Hnin].
- rewrite !bool_decide_eq_true_2 by set_solver. done.
- rewrite (bool_decide_eq_false_2 (idx ∈ U2)) by done.
  destruct (bool_decide (idx ∈ U1)); simpl; lia.
Qed.

Lemma count_matched_le (outcomes : list po_outcome) :
count_matched (map out_row outcomes) ≤ length outcomes.
Proof.
unfold count_matched. etrans; [apply length_filter|]. by rewrite length_map.
Qed.

Lemma count_matched_all (threshold : float) (outcomes : list po_outcome) :
PrimFloat.leb threshold 0 = true →
Forall (outcome_ok threshold) outcomes →
count_matched (map out_row outcomes) = length outcomes.
Proof.
intros Ht Hok. unfold count_matched.
induction Hok as [|o os (Hm & _ & Hb) _ IH]; [done|].
cbn [map]. rewrite filter_cons_True; [simpl; by rewrite IH|].
rewrite Hm. eapply FloatOrder.leb_trans; [done|].
destruct Hb as [->|(m & sc & i & Hpos & ->)]; [done|]. by apply FloatOrder.ltb_leb.
Qed.

Lemma count_matched_claims (threshold : float) (outcomes : list po_outcome) :
PrimFloat.ltb 0 threshold = true →
Forall (outcome_ok threshold) outcomes →
count_matched (map out_row outcomes) = length (claims outcomes).
Proof.
intros Ht Hok. unfold count_matched, claims.
induction Hok as [|o os (Hm & Hc & Hb) _ IH]; [done|].
cbn [map omap list_omap]. rewrite Hc. unfold claim_of.
destruct (PrimFloat.leb threshold (best_score (out_best o))) eqn:Hle.
- rewrite filter_cons_True by done.
  destruct Hb as [Hb|(m & sc & i & Hpos & Hb)]; rewrite Hb in *; simpl in *.
  + pose proof (FloatOrder.ltb_leb_trans _ _ _ Ht Hle). done.
  + by rewrite IH.
- rewrite filter_cons_False by (rewrite Hm; done).
  by destruct (best_idx (out_best o)).
Qed.

Lemma count_trailing (l : list pyval) :
count_matched (trailing_row <$> l) = 0 ∧ count_mismatch (trailing_row <$> l) = length l.
Proof.
unfold count_matched, count_mismatch. induction l as [|it l [IH1 IH2]]; [done|].
cbn [fmap list_fmap]. rewrite filter_cons_False by done.
rewrite filter_cons_True by done. simpl. split; [done|]. by f_equal.
Qed.

Lemma count_split (rows : list row) :
count_matched rows + count_mismatch rows = length rows.
Proof.
unfold count_matched, count_mismatch. induction rows as [|r rows IH]; [done|].
destruct (is_matched r) eqn:Hr.
- rewrite filter_cons_True, filter_cons_False by (rewrite ?Hr; done). simpl. lia.
- rewrite filter_cons_False, filter_cons_True by (rewrite ?Hr; done). simpl. lia.
Qed.

Lemma count_matched_app (rows1 rows2 : list row) :
count_matched (rows1 ++ rows2) = count_matched rows1 + count_matched rows2.
Proof. unfold count_matched. by rewrite filter_app, length_app. Qed.

(** C3. For the same two documents and two thresholds [t1 <= t2], if both
    runs return, the run with [t2] has at most as many rows with the status
    [Match] or [PartialMatch] as the run with [t1], and at least as many rows
    with the status [Mismatch]. *)
Theorem threshold_monotone (po_struct inv_struct : pyval) (t1 t2 : float)
  (rows1 rows2 : list row) :
PrimFloat.leb t1 t2 = true →
compare_structures py_str py_round2 po_struct inv_struct t1 = Ok rows1 →
compare_structures py_str py_round2 po_struct inv_struct t2 = Ok rows2 →
count_matched rows2 ≤ count_matched rows1
∧ count_mismatch rows1 ≤ count_mismatch rows2.
Proof.
intros Ht (outs1 & U1 & lefts1 & Hr1 & ->)%compare_structures_Ok
          (outs2 & U2 & lefts2 & Hr2 & ->)%compare_structures_Ok.
pose proof (reconcile_outcomes_ok _ _ _ _ _ _ Hr1) as Hok1.
pose proof (reconcile_outcomes_ok _ _ _ _ _ _ Hr2) as Hok2.
destruct (reconcile_claims_NoDup _ _ _ _ _ _ Hr1) as [Hnd1 HU1].
destruct (reconcile_claims_NoDup _ _ _ _ _ _ Hr2) as [Hnd2 HU2].
apply reconcile_Ok in Hr1 as (po1 & inv1 & Hp1 & Hi1 & Hloop1 & Hl1%leftover_loop_Ok).
apply reconcile_Ok in Hr2 as (po2 & inv2 & Hp2 & Hi2 & Hloop2 & Hl2%leftover_loop_Ok).
assert (po2 = po1) as -> by congruence.
assert (inv2 = inv1) as -> by congruence.
assert (U2 ⊆ U1) as Hsub by (by eapply (po_loop_mono inv1 t1 t2 po1 ∅ ∅)).
pose proof (po_loop_Ok _ _ _ _ _ _ Hloop1) as (Hlen1 & _ & _).
pose proof (po_loop_Ok _ _ _ _ _ _ Hloop2) as (Hlen2 & _ & _).
assert (length lefts1 ≤ length lefts2) as Hlefts.
{ rewrite Hl1, Hl2, !length_fmap. by apply unclaimed_from_mono. }
assert (count_matched (map out_row outs2) ≤ count_matched (map out_row outs1)) as Hm.
{ destruct (PrimFloat.leb t1 0) eqn:Ht0.
  - rewrite (count_matched_all t1 outs1 Ht0 Hok1).
    etrans; [apply count_matched_le|]. lia.
  - assert (PrimFloat.ltb 0 t1 = true) as Hpos1.
    { destruct (FloatOrder.number_total 0 t1 FloatOrder.zero_is_number
                  (FloatOrder.leb_number_l _ _ Ht)); [done|congruence]. }
    pose proof (FloatOrder.ltb_leb_trans _ _ _ Hpos1 Ht) as Hpos2.
    rewrite (count_matched_claims t1 outs1 Hpos1 Hok1).
    rewrite (count_matched_claims t2 outs2 Hpos2 Hok2).
    rewrite <- (size_list_to_set (C := gset nat) (claims outs1)) by done.
    rewrite <- (size_list_to_set (C := gset nat) (claims outs2)) by done.
    rewrite <- HU1, <- HU2. by apply subseteq_size. }
assert (count_matched lefts1 = 0 ∧ count_matched lefts2 = 0) as [Hz1 Hz2].
{ rewrite Hl1, Hl2. split; apply count_trailing. }
pose proof (count_split (map out_row outs1 ++ lefts1)) as Hs1.
pose proof (count_split (map out_row outs2 ++ lefts2)) as Hs2.
rewrite !count_matched_app, ?length_app, ?length_map in *.
pose proof (count_matched_le outs1). pose proof (count_matched_le outs2).
lia.
Qed.

End ReconcilerFacts.

(** ** More on the rows of a run *)

Lemma unclaimed_from_ext (U U' : gset nat) (inv_items : list pyval) (idx : nat) :
(∀ j, idx ≤ j → j ∈ U ↔ j ∈ U') →
unclaimed_from U idx inv_items = unclaimed_from U' idx inv_items.
Proof.
revert idx. induction inv_items as [|it rest IH]; intros idx Hext; simpl; [done|].
rewrite (IH (S idx)) by (intros j Hj; apply Hext; lia).
destruct (decide (idx ∈ U)) as [Hin|Hnin].
- rewrite !bool_decide_eq_true_2; [done| |done]. by apply Hext.
- rewrite !bool_decide_eq_false_2; [done| |done]. intros Hin. apply Hnin. by apply Hext.
Qed.

Lemma unclaimed_from_elem (U : gset nat) (inv_items : list pyval) (idx : nat) (it : pyval) :
it ∈ unclaimed_from U idx inv_items ↔
∃ k, inv_items !! k = Some it ∧ idx + k ∉ U.
Proof.
revert idx. induction inv_items as [|it' rest IH]; intros idx; simpl.
- split; [by intros ?%elem_of_nil|]. intros (k & Hk & _). by rewrite lookup_nil in Hk.
- destruct (decide (idx ∈ U)) as [Hin|Hnin].
  + rewrite bool_decide_eq_true_2 by done. rewrite IH. split.
    * intros (k & Hk & Hf). exists (S k). split; [done|].
      by replace (idx + S k) with (S idx + k) by lia.
    * intros ([|k] & Hk & Hf).
      -- by rewrite Nat.add_0_r in Hf.
      -- exists k. split; [done|]. by replace (S idx + k) with (idx + S k) by lia.
  + rewrite bool_decide_eq_false_2 by done. rewrite elem_of_cons, IH. split.
    * intros [->|(k & Hk & Hf)].
      -- exists 0. split; [done|]. by rewrite Nat.add_0_r.
      -- exists (S k). split; [done|]. by replace (idx + S k) with (S idx + k) by lia.
    * intros ([|k] & Hk & Hf).
      -- left. simpl in Hk. by injection Hk as ->.
      -- right. exists k. split; [done|]. by replace (S idx + k) with (idx + S k) by lia.
Qed.

(** The unclaimed invoice items and the claimed indices add up to the
    invoice. *)
Lemma unclaimed_from_count (U : gset nat) (inv_items : list pyval) (idx : nat) :
(∀ j, j ∈ U → idx ≤ j < idx + length inv_items) →
length (unclaimed_from U idx inv_items) + size U = length inv_items.
Proof.
revert idx U. induction inv_items as [|it rest IH]; intros idx U HU; simpl.
- assert (U = ∅) as ->; [|by rewrite size_empty].
  apply set_eq. intros j. split; [|by intros ?%elem_of_empty].
  intros Hj. apply HU in Hj. simpl in Hj. lia.
- destruct (decide (idx ∈ U)) as [Hin|Hnin].
  + rewrite bool_decide_eq_true_2 by done.
    rewrite (unclaimed_from_ext U (U ∖ {[idx]}) rest (S idx)).
    2:{ intros j Hj. rewrite elem_of_difference, elem_of_singleton.
        split; [intros ?; split; [done|lia]|by intros [? _]]. }
    specialize (IH (S idx) (U ∖ {[idx]})).
    assert (size U = S (size (U ∖ {[idx]}))) as ->.
    { rewrite (union_difference_L {[idx]} U) at 1 by set_solver.
      rewrite size_union by set_solver. by rewrite size_singleton. }
    rewrite Nat.add_succ_r. f_equal. apply IH.
    intros j [Hj Hne]%elem_of_difference. apply HU in Hj. simpl in Hj.
    rewrite elem_of_singleton in Hne. lia.
  + rewrite bool_decide_eq_false_2 by done. simpl. f_equal. apply IH.
    intros j Hj. destruct (decide (j = idx)) as [->|Hne]; [done|].
    apply HU in Hj. simpl in Hj. lia.
Qed.

Lemma claims_length_le (outcomes : list po_outcome) :
length (claims outcomes) ≤ length outcomes.
Proof.
unfold claims. induction outcomes as [|o os IH]; [done|].
cbn [omap list_omap length]. destruct (out_claim o); cbn [length]; lia.
Qed.

Lemma total_matches_app (rows1 rows2 : list row) :
total_matches (rows1 ++ rows2) = total_matches rows1 + total_matches rows2.
Proof. unfold total_matches. by rewrite filter_app, length_app. Qed.

Lemma total_matches_trailing (l : list pyval) : total_matches (trailing_row <$> l) = 0.
Proof.
unfold total_matches. induction l as [|it l IH]; [done|].
cbn [fmap list_fmap]. by rewrite filter_cons_False.
Qed.

Lemma total_matches_le_matched (rows : list row) : total_matches rows ≤ count_matched rows.
Proof.
unfold total_matches, count_matched. induction rows as [|r rows IH]; [done|].
destruct (decide (status r = Match)) as [Hr|Hr].
- rewrite !filter_cons_True; [simpl; lia| |done]. unfold is_matched. by rewrite Hr.
- rewrite (filter_cons_False (λ r, status r = Match)) by done.
  destruct (decide (is_matched r = true)).
  + rewrite filter_cons_True by done. simpl. lia.
  + rewrite filter_cons_False by done. done.
Qed.

Section ReconcilerMore.
Variable py_str : pyval → string.
Variable py_round2 : float → float.

(** The claimed indices of a run: no duplicate, all within the invoice. *)
Lemma reconcile_claims_in_range (po_struct inv_struct : pyval) (threshold : float)
  (outcomes : list po_outcome) (inv_used : gset nat) (leftovers : list row)
  (inv_items : list pyval) :
reconcile py_str py_round2 po_struct inv_struct threshold
= Ok (outcomes, inv_used, leftovers) →
document_items inv_struct = Ok inv_items →
∀ k o i, outcomes !! k = Some o → out_claim o = Some i →
  ∃ it sc, inv_items !! i = Some it
           ∧ out_best o = Best (Some it) sc (Some i)
           ∧ (i ∉ used_before outcomes k)
           ∧ PrimFloat.leb threshold sc = true.
Proof.
intros Hrun Hinv k o i Ho Hc.
apply reconcile_passes in Hrun as (po_items & inv_items' & _ & Hi & Hlen & _ & _ & Hk).
assert (inv_items' = inv_items) as -> by congruence.
destruct (reconcile_pass_of_outcome _ _ _ _ _ _ Hlen Hk k o Ho) as [po_it Hp].
destruct (pass_claim_fresh _ _ _ _ _ _ _ _ _ Hp Hc) as (Hfresh & _ & Hidx & Hle).
destruct Hp as (Hb & _). apply best_loop_from_start in Hb as [_ Hsel].
destruct Hsel as [Heq|(j & it & sc & Hj & _ & _ & _ & Heq)]; rewrite Heq in Hidx, Hle.
- done.
- simpl in *. injection Hidx as ->. exists it, sc. by rewrite Heq.
Qed.

Lemma reconcile_row_count (po_struct inv_struct : pyval) (threshold : float)
  (outcomes : list po_outcome) (inv_used : gset nat) (leftovers : list row) :
reconcile py_str py_round2 po_struct inv_struct threshold
= Ok (outcomes, inv_used, leftovers) →
∃ po_items inv_items,
  document_items po_struct = Ok po_items
  ∧ document_items inv_struct = Ok inv_items
  ∧ length outcomes = length po_items
  ∧ length leftovers + length (claims outcomes) = length inv_items
  ∧ length (claims outcomes) ≤ length po_items.
Proof.
intros Hrun. destruct (reconcile_claims_NoDup _ _ _ _ _ _ _ _ Hrun) as [Hnd HU].
pose proof Hrun as (po_items & inv_items & Hp & Hi & Hlen & _ & Hlo & _)%reconcile_passes.
exists po_items, inv_items. split; [done|]. split; [done|]. split; [done|]. split.
- rewrite Hlo, length_fmap, <- (size_list_to_set (C := gset nat) (claims outcomes)) by done.
  rewrite <- HU. apply unclaimed_from_count. intros j Hj. rewrite HU in Hj.
  apply elem_of_list_to_set in Hj. unfold claims in Hj.
  apply list_elem_of_omap in Hj as (o & Ho & Hc). apply list_elem_of_lookup in Ho as [k Ho].
  destruct (reconcile_claims_in_range _ _ _ _ _ _ _ Hrun Hi k o j Ho Hc) as (it & sc & Hit & _).
  apply lookup_lt_Some in Hit. lia.
- rewrite <- Hlen. apply claims_length_le.
Qed.

(** X1. The number of rows of a run is the number of purchase-order items
    plus the number of invoice items minus the number of invoice items the
    run claimed, and the run claimed at most as many as either document has
    items: the data frame has at least as many rows as the longer document
    and at most as many as the two together. *)
Theorem row_count_bounds (po_struct inv_struct : pyval) (threshold : float)
  (rows : list row) :
compare_structures py_str py_round2 po_struct inv_struct threshold = Ok rows →
∃ po_items inv_items outcomes inv_used leftovers,
  document_items po_struct = Ok po_items
  ∧ document_items inv_struct = Ok inv_items
  ∧ reconcile py_str py_round2 po_struct inv_struct threshold
    = Ok (outcomes, inv_used, leftovers)
  ∧ rows = map out_row outcomes ++ leftovers
  ∧ size inv_used = length (claims outcomes)
  ∧ length rows + size inv_used = length po_items + length inv_items
  ∧ size inv_used ≤ length po_items `min` length inv_items
  ∧ length po_items `max` length inv_items ≤ length rows
  ∧ length rows ≤ length po_items + length inv_items.
Proof.
intros (outs & U & lefts & Hrun & ->)%compare_structures_Ok.
destruct (reconcile_row_count _ _ _ _ _ _ Hrun)
  as (po_items & inv_items & Hp & Hi & Hlen & Hcount & Hle).
destruct (reconcile_claims_NoDup _ _ _ _ _ _ _ _ Hrun) as [Hnd HU].
assert (size U = length (claims outs)) as Hsize.
{ rewrite HU. by apply size_list_to_set. }
exists po_items, inv_items, outs, U, lefts.
rewrite length_app, length_map, Hsize. repeat split; try done; lia.
Qed.

(** C6. The rows a run returns are, in this order, one row for every
    purchase-order item, in input order, carrying its fields and decided by
    the pass of the loop over the items before it, then one row for every
    invoice item whose index is not in the run's [inv_used], that is, that
    no purchase-order row claimed, in input order, with blank purchase-order
    fields, the fields of the invoice item, the status [Mismatch] and the
    score [0.0]; so their number is the number of purchase-order items plus
    the number of invoice items not claimed. *)
Theorem rows_layout (po_struct inv_struct : pyval) (threshold : float) (rows : list row) :
compare_structures py_str py_round2 po_struct inv_struct threshold = Ok rows →
∃ po_items inv_items outcomes inv_used leftovers,
  document_items po_struct = Ok po_items
  ∧ document_items inv_struct = Ok inv_items
  ∧ reconcile py_str py_round2 po_struct inv_struct threshold
    = Ok (outcomes, inv_used, leftovers)
  ∧ rows = map out_row outcomes ++ leftovers
  ∧ length outcomes = length po_items
  ∧ (∀ k po_it, po_items !! k = Some po_it →
       ∃ o, outcomes !! k = Some o
         ∧ pass_ok py_str py_round2 inv_items threshold outcomes k po_it o
         ∧ po_item (out_row o) = field po_it "description"
         ∧ po_qty (out_row o) = field po_it "qty"
         ∧ po_price (out_row o) = field po_it "unit_price"
         ∧ po_total (out_row o) = field po_it "total")
  ∧ (∀ i, i ∈ inv_used ↔ ∃ k o, outcomes !! k = Some o ∧ out_claim o = Some i)
  ∧ leftovers = trailing_row <$> unclaimed inv_used inv_items
  ∧ (∀ r, r ∈ leftovers ↔
          ∃ i inv_it, inv_items !! i = Some inv_it ∧ (i ∉ inv_used)
                      ∧ r = trailing_row inv_it)
  ∧ length rows = length po_items + length (unclaimed inv_used inv_items)
  ∧ length (unclaimed inv_used inv_items) + size inv_used = length inv_items.
Proof.
intros (outcomes & inv_used & leftovers & Hrun & ->)%compare_structures_Ok.
pose proof Hrun as (po_items & inv_items & Hp & Hi & Hlen & HU & Hlo & Hk)%reconcile_passes.
destruct (reconcile_row_count _ _ _ _ _ _ Hrun)
  as (po_items' & inv_items' & Hp' & Hi' & _ & Hcount & _).
assert (inv_items' = inv_items) as -> by congruence.
destruct (reconcile_claims_NoDup _ _ _ _ _ _ _ _ Hrun) as [Hnd _].
exists po_items, inv_items, outcomes, inv_used, leftovers.
split; [done|]. split; [done|]. split; [done|]. split; [done|]. split; [done|].
split; [|split; [|split; [done|split; [|split]]]].
- intros k po_it Hit. destruct (Hk k po_it Hit) as (o & Ho & Hpass).
  exists o. split; [done|]. split; [done|].
  destruct Hpass as (_ & _ & _ & Hrow). by rewrite Hrow.
- intros i. rewrite HU, elem_of_list_to_set. unfold claims.
  rewrite list_elem_of_omap. split.
  + intros (o & Ho & Hc). apply list_elem_of_lookup in Ho as [k Ho]. by exists k, o.
  + intros (k & o & Ho & Hc). exists o. split; [|done].
    apply list_elem_of_lookup. by exists k.
- intros r. rewrite Hlo, list_elem_of_fmap. split.
  + intros (it & -> & Hit). apply unclaimed_from_elem in Hit as (i & Hi0 & Hfree).
    by exists i, it.
  + intros (i & it & Hi0 & Hfree & ->). exists it. split; [done|].
    apply unclaimed_from_elem. by exists i.
- rewrite length_app, length_map, Hlo, length_fmap, Hlen. done.
- rewrite Hlo, length_fmap in Hcount. rewrite HU at 2.
  rewrite size_list_to_set by done. exact Hcount.
Qed.

(** X2. Every invoice item has a row: either exactly one purchase-order row
    claimed its index, and that row reports the item, or no row claimed it
    and it has its trailing row. *)
Theorem every_invoice_item_has_a_row (po_struct inv_struct : pyval) (threshold : float)
  (outcomes : list po_outcome) (inv_used : gset nat) (leftovers : list row) :
reconcile py_str py_round2 po_struct inv_struct threshold
= Ok (outcomes, inv_used, leftovers) →
∃ inv_items,
  document_items inv_struct = Ok inv_items
  ∧ ∀ i it, inv_items !! i = Some it →
      (i ∈ claims outcomes
       ∧ ∃ k o, outcomes !! k = Some o ∧ out_claim o = Some i
                ∧ best_match (out_best o) = Some it
                ∧ invoice_item (out_row o) = field it "description"
                ∧ invoice_total (out_row o) = field it "total")
      ∨ ((i ∉ claims outcomes) ∧ trailing_row it ∈ leftovers).
Proof.
intros Hrun.
pose proof Hrun as (po_items & inv_items & Hp & Hi & Hlen & HU & Hlo & Hk)%reconcile_passes.
exists inv_items. split; [done|]. intros i it Hit.
destruct (decide (i ∈ claims outcomes)) as [Hin|Hnin]; [left|right].
- split; [done|]. unfold claims in Hin.
  apply list_elem_of_omap in Hin as (o & Ho & Hc). apply list_elem_of_lookup in Ho as [k Ho].
  exists k, o. split; [done|]. split; [done|].
  destruct (reconcile_claims_in_range _ _ _ _ _ _ _ Hrun Hi k o i Ho Hc)
    as (it' & sc & Hit' & Hbest & _).
  assert (it' = it) as -> by congruence.
  destruct (reconcile_pass_of_outcome _ _ _ _ _ _ Hlen Hk k o Ho) as [po_it (_ & _ & _ & Hr)].
  rewrite Hr, Hbest. done.
- split; [done|]. rewrite Hlo. apply list_elem_of_fmap. exists it. split; [done|].
  apply unclaimed_from_elem. exists i. split; [done|]. simpl. rewrite HU.
  by rewrite elem_of_list_to_set.
Qed.

(** X3. Once a row has claimed an invoice item, no later row selects it: a
    claimed item is never reported against a later purchase-order item. *)
Theorem claimed_item_not_reported_later (po_struct inv_struct : pyval) (threshold : float)
  (outcomes : list po_outcome) (inv_used : gset nat) (leftovers : list row)
  (k k' i : nat) (o o' : po_outcome) :
reconcile py_str py_round2 po_struct inv_struct threshold
= Ok (outcomes, inv_used, leftovers) →
outcomes !! k = Some o → outcomes !! k' = Some o' → k < k' →
out_claim o = Some i →
best_idx (out_best o') ≠ Some i ∧ out_claim o' ≠ Some i.
Proof.
intros Hrun Ho Ho' Hlt Hc.
pose proof Hrun as (po_items & inv_items & _ & _ & Hlen & _ & _ & Hk)%reconcile_passes.
destruct (reconcile_pass_of_outcome _ _ _ _ _ _ Hlen Hk k' o' Ho') as [po_it Hp].
assert (i ∈ used_before outcomes k') as Hin.
{ unfold used_before. apply elem_of_list_to_set. unfold claims. apply list_elem_of_omap.
  exists o. split; [|done]. apply list_elem_of_lookup. exists k.
  by rewrite lookup_take_lt. }
assert (best_idx (out_best o') ≠ Some i) as Hne.
{ intros Hidx. destruct Hp as (Hb & _). apply best_loop_from_start in Hb as [_ Hsel].
  destruct Hsel as [Heq|(j & it & sc & _ & Hfree & _ & _ & Heq)]; rewrite Heq in Hidx.
  - done.
  - simpl in Hidx. injection Hidx as ->. done. }
split; [done|]. intros Hc'.
by destruct (pass_claim_fresh _ _ _ _ _ _ _ _ _ Hp Hc') as (_ & _ & ? & _).
Qed.

(** X4. With a threshold above [0.0], a purchase-order row has the status
    [Match] or [PartialMatch] exactly when it claimed an invoice item, and a
    row for which no invoice item was selected is a [Mismatch] with blank
    invoice fields. *)
Theorem positive_threshold_matched_iff_claimed (po_struct inv_struct : pyval)
  (threshold : float) (outcomes : list po_outcome) (inv_used : gset nat)
  (leftovers : list row) (k : nat) (o : po_outcome) :
PrimFloat.ltb 0 threshold = true →
reconcile py_str py_round2 po_struct inv_struct threshold
= Ok (outcomes, inv_used, leftovers) →
outcomes !! k = Some o →
(is_matched (out_row o) = true ↔ ∃ i, out_claim o = Some i)
∧ (best_idx (out_best o) = None →
   status (out_row o) = Mismatch
   ∧ invoice_item (out_row o) = blank ∧ invoice_qty (out_row o) = blank
   ∧ invoice_price (out_row o) = blank ∧ invoice_total (out_row o) = blank).
Proof.
intros Hpos Hrun Ho.
pose proof (reconcile_outcomes_ok _ _ _ _ _ _ _ _ Hrun) as Hok.
destruct (proj1 (Forall_lookup _ _) Hok k o Ho) as (Hm & Hc & Hb).
pose proof Hrun as (po_items & inv_items & _ & _ & Hlen & _ & _ & Hk)%reconcile_passes.
destruct (reconcile_pass_of_outcome _ _ _ _ _ _ Hlen Hk k o Ho)
  as [po_it (Hbl & _ & _ & Hr)].
split.
- rewrite Hm, Hc. unfold claim_of.
  destruct (PrimFloat.leb threshold (best_score (out_best o))) eqn:Hle.
  + split; [intros _|done].
    destruct Hb as [Hb|(m & sc & i & _ & Hb)]; rewrite Hb in *; simpl in *.
    * pose proof (FloatOrder.ltb_leb_trans _ _ _ Hpos Hle). done.
    * by exists i.
  + split; [done|]. intros [i Hi]. by destruct (best_idx (out_best o)).
- intros Hidx. apply best_loop_from_start in Hbl as [_ Hsel].
  destruct Hsel as [Heq|(j & it & sc & _ & _ & _ & _ & Heq)]; rewrite Heq in Hidx; [|done].
  assert (is_matched (out_row o) = false) as Hnm.
  { rewrite Hm, Heq. simpl. by apply FloatOrder.ltb_not_leb. }
  rewrite Hr, Heq in *. cbn [expected_row best_match reported_field invoice_item
    invoice_qty invoice_price invoice_total]. split; [|done].
  unfold is_matched in Hnm. by destruct (status _).
Qed.

(** X5. The numerator of the summary never exceeds the number of
    purchase-order items; with a threshold above [0.0] it does not exceed the
    number of invoice items either, and a summary of [n/n] is reached only by
    two documents with equally many items. *)
Theorem total_matches_bounds (po_struct inv_struct : pyval) (threshold : float)
  (rows : list row) :
compare_structures py_str py_round2 po_struct inv_struct threshold = Ok rows →
∃ po_items inv_items,
  document_items po_struct = Ok po_items
  ∧ document_items inv_struct = Ok inv_items
  ∧ total_matches rows ≤ length po_items
  ∧ (PrimFloat.ltb 0 threshold = true →
     total_matches rows ≤ length inv_items
     ∧ (total_matches rows = length rows → length po_items = length inv_items)).
Proof.
intros (outs & U & lefts & Hrun & ->)%compare_structures_Ok.
destruct (reconcile_row_count _ _ _ _ _ _ Hrun)
  as (po_items & inv_items & Hp & Hi & Hlen & Hcount & Hle).
pose proof (reconcile_outcomes_ok _ _ _ _ _ _ _ _ Hrun) as Hok.
pose proof Hrun as (_ & inv_items' & _ & Hi' & _ & _ & Hlo & _)%reconcile_passes.
exists po_items, inv_items. split; [done|]. split; [done|].
rewrite total_matches_app, Hlo, total_matches_trailing, Nat.add_0_r.
pose proof (total_matches_le_matched (map out_row outs)) as Htm.
pose proof (count_matched_le outs) as Hcm.
split; [lia|]. intros Hpos.
rewrite (count_matched_claims threshold outs Hpos Hok) in Htm.
split; [lia|]. rewrite length_app, length_map, length_fmap.
rewrite Hlo, length_fmap in Hcount. lia.
Qed.

End ReconcilerMore.

(** ** Exceptions *)

Ltac ok_bind := repeat (progress (change (Ok ?x ≫= ?f) with (f x); cbn beta)).

(** A computation that raises nothing but [AttributeError]. *)
Definition only_attribute_error {T : Type} (m : result T) : Prop :=
∀ e, m = Raise e → e = AttributeError.

Lemma only_attribute_error_Ok {T : Type} (x : T) : only_attribute_error (Ok x).
Proof. intros e He. discriminate He. Qed.

Lemma only_attribute_error_bind {T U : Type} (m : result T) (f : T → result U) :
only_attribute_error m → (∀ x, only_attribute_error (f x)) →
only_attribute_error (m ≫= f).
Proof.
intros Hm Hf e He. destruct m as [x|e']; simpl in He.
- by apply (Hf x).
- injection He as <-. by apply Hm.
Qed.

Lemma py_get_raise (obj : pyval) (key : string) (dflt : pyval) :
only_attribute_error (py_get obj key dflt).
Proof. intros e He. destruct obj; simpl in He; congruence. Qed.

Lemma as_str_raise (v : pyval) : only_attribute_error (as_str v).
Proof. intros e He. destruct v; simpl in He; congruence. Qed.

Lemma get_or_blank_raise (inv_it : option pyval) (key : string) :
only_attribute_error (get_or_blank inv_it key).
Proof.
destruct inv_it as [v|]; simpl; [|apply only_attribute_error_Ok].
destruct (py_truthy v); [apply py_get_raise|apply only_attribute_error_Ok].
Qed.

Lemma items_of_raise (struct : pyval) : only_attribute_error (items_of struct).
Proof.
unfold items_of. destruct (py_truthy struct);
  [apply py_get_raise|apply only_attribute_error_Ok].
Qed.

Ltac only_attr :=
  repeat first
    [ apply only_attribute_error_Ok
    | apply py_get_raise
    | apply as_str_raise
    | apply get_or_blank_raise
    | apply only_attribute_error_bind; [|intros ?] ].

Lemma item_score_raise (po_it inv_it : pyval) :
only_attribute_error (item_score po_it inv_it).
Proof. unfold item_score. only_attr. Qed.

Lemma best_loop_raise (po_it : pyval) (inv_used : gset nat) (inv_items : list pyval)
  (idx : nat) (st : best) :
only_attribute_error (best_loop po_it inv_used idx inv_items st).
Proof.
revert idx st. induction inv_items as [|it rest IH]; intros idx st; simpl.
- apply only_attribute_error_Ok.
- destruct (bool_decide (idx ∈ inv_used)); [apply IH|].
  apply only_attribute_error_bind; [apply item_score_raise|]. intros sc. apply IH.
Qed.

Lemma leftover_row_raise (inv_it : pyval) : only_attribute_error (leftover_row inv_it).
Proof. unfold leftover_row. only_attr. Qed.

Lemma leftover_loop_raise (inv_used : gset nat) (inv_items : list pyval) (idx : nat) :
only_attribute_error (leftover_loop inv_used idx inv_items).
Proof.
revert idx. induction inv_items as [|it rest IH]; intros idx; simpl.
- apply only_attribute_error_Ok.
- destruct (bool_decide (idx ∈ inv_used)); [apply IH|].
  apply only_attribute_error_bind; [apply leftover_row_raise|]. intros r.
  apply only_attribute_error_bind; [apply IH|]. intros rs. apply only_attribute_error_Ok.
Qed.

(** Every unclaimed invoice item a returning loop passed is a [dict]. *)
Lemma leftover_loop_dicts (inv_used : gset nat) (inv_items : list pyval) (idx : nat)
  (rs : list row) :
leftover_loop inv_used idx inv_items = Ok rs →
∀ k it, inv_items !! k = Some it → idx + k ∉ inv_used → is_dict it.
Proof.
revert idx rs. induction inv_items as [|it' rest IH]; intros idx rs Hrun k it Hk Hfree.
- by rewrite lookup_nil in Hk.
- simpl in Hrun. destruct k as [|k].
  + simpl in Hk. injection Hk as ->. rewrite Nat.add_0_r in Hfree.
    rewrite bool_decide_eq_false_2 in Hrun by done.
    inv_bind Hrun. by apply leftover_row_Ok in Hx as [? _].
  + destruct (bool_decide (idx ∈ inv_used)).
    * apply (IH (S idx) rs Hrun k it Hk). by replace (S idx + k) with (idx + S k) by lia.
    * inv_bind Hrun. apply (IH (S idx) x0 Hx0 k it Hk).
      by replace (S idx + k) with (idx + S k) by lia.
Qed.

Section ReconcilerErrors.
Variable py_str : pyval → string.
Variable py_round2 : float → float.

Lemma po_row_raise (po_it : pyval) (st : best) (threshold : float) :
only_attribute_error (po_row py_str py_round2 po_it st threshold).
Proof. unfold po_row. only_attr. Qed.

Lemma po_step_raise (inv_items : list pyval) (threshold : float) (inv_used : gset nat)
  (po_it : pyval) :
only_attribute_error (po_step py_str py_round2 inv_items threshold inv_used po_it).
Proof.
unfold po_step. apply only_attribute_error_bind; [apply best_loop_raise|]. intros st.
apply only_attribute_error_bind; [apply po_row_raise|]. intros r.
apply only_attribute_error_Ok.
Qed.

Lemma po_loop_raise (inv_items : list pyval) (threshold : float) (po_items : list pyval)
  (inv_used : gset nat) :
only_attribute_error (po_loop py_str py_round2 inv_items threshold inv_used po_items).
Proof.
revert inv_used. induction po_items as [|po_it rest IH]; intros inv_used; simpl.
- apply only_attribute_error_Ok.
- apply only_attribute_error_bind; [apply po_step_raise|]. intros [U o].
  apply only_attribute_error_bind; [apply IH|]. intros [U' os].
  apply only_attribute_error_Ok.
Qed.

Lemma reconcile_inv_items_dicts (po_struct inv_struct : pyval) (threshold : float)
  (outcomes : list po_outcome) (inv_used : gset nat) (leftovers : list row)
  (inv_items : list pyval) :
reconcile py_str py_round2 po_struct inv_struct threshold
= Ok (outcomes, inv_used, leftovers) →
document_items inv_struct = Ok inv_items →
Forall is_dict inv_items.
Proof.
intros Hrun Hinv.
pose proof Hrun as (po_items & inv_items' & Hp & Hi & Hlen & HU & Hlo & Hk)%reconcile_passes.
pose proof Hrun as (po_items' & inv_items'' & _ & Hi' & _ & Hleft)%reconcile_Ok.
assert (inv_items' = inv_items) as -> by congruence.
assert (inv_items'' = inv_items) as -> by congruence.
apply Forall_lookup. intros i it Hit.
destruct (decide (i ∈ inv_used)) as [Hin|Hnin].
- rewrite HU in Hin. apply elem_of_list_to_set in Hin. unfold claims in Hin.
  apply list_elem_of_omap in Hin as (o & Ho & Hc).
  apply list_elem_of_lookup in Ho as [k Ho].
  destruct (reconcile_pass_of_outcome _ _ _ _ _ _ Hlen Hk k o Ho) as [po_it Hpass].
  destruct (pass_claim_fresh _ _ _ _ _ _ _ _ _ Hpass Hc) as (_ & _ & Hidx & _).
  destruct Hpass as (Hb & _). apply best_loop_from_start in Hb as [_ Hsel].
  destruct Hsel as [Heq|(j & it' & sc & Hj & _ & Hscore & _ & Heq)];
    rewrite Heq in Hidx; [done|]. simpl in Hidx. injection Hidx as ->.
  assert (it' = it) as -> by congruence.
  apply item_score_Ok in Hscore as (d1 & d2 & _ & _ & _ & -> & _). by exists d2.
- by apply (leftover_loop_dicts _ _ _ _ Hleft i it Hit).
Qed.

(** X6. A run that returns found nothing but [dict]s among the items of
    both documents; and when there is a purchase-order item, every invoice
    item was scored against the first one, so the description of every
    invoice item is a string (or absent), and so is that of the first
    purchase-order item when there is an invoice item. *)
Theorem returns_only_on_dict_items (po_struct inv_struct : pyval) (threshold : float)
  (rows : list row) :
compare_structures py_str py_round2 po_struct inv_struct threshold = Ok rows →
∃ po_items inv_items,
  document_items po_struct = Ok po_items
  ∧ document_items inv_struct = Ok inv_items
  ∧ Forall is_dict po_items
  ∧ Forall is_dict inv_items
  ∧ ∀ po_it, head po_items = Some po_it →
      Forall item_ok inv_items ∧ (inv_items ≠ [] → item_ok po_it).
Proof.
intros (outs & U & lefts & Hrun & ->)%compare_structures_Ok.
pose proof Hrun as (po_items & inv_items & Hp & Hi & Hlen & HU & Hlo & Hk)%reconcile_passes.
pose proof Hrun as (po_items' & inv_items' & Hp' & Hi' & _ & Hleft)%reconcile_Ok.
assert (inv_items' = inv_items) as -> by congruence. clear po_items' Hp'.
assert (∀ po_it, head po_items = Some po_it →
          ∀ k it, inv_items !! k = Some it → item_ok po_it ∧ item_ok it) as Hfirst.
{ intros po_it Hhd k it Hit.
  destruct (Hk 0 po_it) as (o & Ho & Hb & _); [by destruct po_items|].
  apply best_loop_from_start in Hb as [Hsc _].
  destruct (Hsc k it Hit) as (sc & Hscore & _).
  { rewrite used_before_0. set_solver. }
  apply item_score_Ok in Hscore as (d1 & d2 & a & b & -> & -> & Ha & Hb & _).
  split; simpl; eauto. }
exists po_items, inv_items. split; [done|]. split; [done|]. split; [|split].
- apply Forall_lookup. intros k po_it Hpo.
  destruct (Hk k po_it Hpo) as (o & _ & _ & _ & Hd & _). exact Hd.
- by apply (reconcile_inv_items_dicts _ _ _ _ _ _ _ Hrun).
- intros po_it Hhd. split.
  + apply Forall_lookup. intros k it Hit. by destruct (Hfirst po_it Hhd k it Hit).
  + intros Hne. destruct inv_items as [|it rest]; [done|].
    by destruct (Hfirst po_it Hhd 0 it eq_refl).
Qed.

(** X7. A document that is not a [dict]: if it is truthy (a list, a
    non-empty string, a number other than zero, [True]), the run raises
    [AttributeError] whichever side it is on and whatever the other document
    is; if it is falsy ([None], [False], [0], the empty string or list), it
    is treated as a document without items. *)
Theorem non_dict_document (struct other : pyval) (threshold : float) :
(∀ d, struct ≠ PDict d) →
(py_truthy struct = true →
   compare_structures py_str py_round2 struct other threshold = Raise AttributeError
   ∧ compare_structures py_str py_round2 other struct threshold = Raise AttributeError)
∧ (py_truthy struct = false →
   compare_structures py_str py_round2 struct other threshold
   = compare_structures py_str py_round2 (doc []) other threshold
   ∧ compare_structures py_str py_round2 other struct threshold
     = compare_structures py_str py_round2 other (doc []) threshold).
Proof.
intros Hnd. split.
- intros Ht.
  assert (items_of struct = Raise AttributeError) as Hraise.
  { unfold items_of. rewrite Ht. destruct struct; try reflexivity. by destruct (Hnd d). }
  split; unfold compare_structures, reconcile.
  + by rewrite Hraise.
  + destruct (items_of other) as [v|e] eqn:Ho.
    * by rewrite Hraise.
    * by rewrite (items_of_raise other e Ho).
- intros Hf.
  assert (items_of struct = items_of (doc [])) as Heq.
  { unfold items_of. by rewrite Hf. }
  split.
  + by apply compare_structures_items_l.
  + by apply compare_structures_items_r.
Qed.

(** X8. The run raises [TypeError] exactly when both documents yield an
    [items] entry (each is a [dict] or falsy) and one of the two entries
    cannot be iterated ([null], a number, a boolean): a document that is not
    a [dict] and an item that is not one raise [AttributeError] instead. *)
Theorem type_error_iff_items_not_iterable (po_struct inv_struct : pyval)
  (threshold : float) :
compare_structures py_str py_round2 po_struct inv_struct threshold = Raise TypeError ↔
∃ v w, items_of po_struct = Ok v ∧ items_of inv_struct = Ok w
       ∧ (py_iter v = Raise TypeError ∨ py_iter w = Raise TypeError).
Proof.
unfold compare_structures, reconcile. split.
- intros Hrun.
  destruct (items_of po_struct) as [v|e] eqn:Hv.
  2:{ rewrite (items_of_raise _ _ Hv) in Hrun. discriminate Hrun. }
  destruct (items_of inv_struct) as [w|e] eqn:Hw.
  2:{ rewrite (items_of_raise _ _ Hw) in Hrun. discriminate Hrun. }
  exists v, w. split; [done|]. split; [done|]. simpl in Hrun.
  destruct (py_iter v) as [po_items|e] eqn:Hpv.
  2:{ left. destruct e; [discriminate Hrun|done]. }
  destruct (py_iter w) as [inv_items|e] eqn:Hpw.
  2:{ right. destruct e; [discriminate Hrun|done]. }
  exfalso. simpl in Hrun.
  destruct (po_loop py_str py_round2 inv_items threshold ∅ po_items) as [[U outs]|e] eqn:Hl.
  2:{ rewrite (po_loop_raise _ _ _ _ _ Hl) in Hrun. discriminate Hrun. }
  simpl in Hrun.
  destruct (leftover_loop U 0 inv_items) as [lefts|e] eqn:Hlo.
  2:{ rewrite (leftover_loop_raise _ _ _ _ Hlo) in Hrun. discriminate Hrun. }
  discriminate Hrun.
- intros (v & w & -> & -> & [Hv|Hw]); simpl.
  + by rewrite Hv.
  + destruct (py_iter v) as [po_items|e] eqn:Hv; simpl.
    * by rewrite Hw.
    * destruct v; simpl in Hv; congruence.
Qed.

(** X9. Well-formed documents never raise: when each document is null or
    without [items], or has a list of [dict]s whose descriptions are strings
    or absent, the run returns its rows, whatever the threshold and whatever
    the other fields hold. *)
Theorem well_formed_documents_never_raise (po_struct inv_struct : pyval)
  (threshold : float) :
(document_absent po_struct ∨ document_ok po_struct) →
(document_absent inv_struct ∨ document_ok inv_struct) →
∃ rows po_items inv_items,
  compare_structures py_str py_round2 po_struct inv_struct threshold = Ok rows
  ∧ document_items po_struct = Ok po_items
  ∧ document_items inv_struct = Ok inv_items
  ∧ Forall item_ok po_items ∧ Forall item_ok inv_items.
Proof.
intros Hp Hi.
destruct (compare_structures_total py_str py_round2 _ _ threshold Hp Hi) as [rows Hrows].
assert (∀ s, document_absent s ∨ document_ok s →
          ∃ items, document_items s = Ok items ∧ Forall item_ok items) as Hitems.
{ intros s [Ha|Hok].
  - exists []. split; [by apply document_items_absent|constructor].
  - by apply document_items_ok. }
destruct (Hitems _ Hp) as (po_items & Hpi & Hpo).
destruct (Hitems _ Hi) as (inv_items & Hii & Hio).
by exists rows, po_items, inv_items.
Qed.

Lemma leftover_loop_total_dicts (inv_used : gset nat) (inv_items : list pyval)
  (idx : nat) :
Forall is_dict inv_items → ∃ rs, leftover_loop inv_used idx inv_items = Ok rs.
Proof.
intros Hall. revert idx. induction Hall as [|it rest [d ->] _ IH]; intros idx; simpl.
- by eexists.
- destruct (bool_decide (idx ∈ inv_used)); [apply IH|].
  destruct (IH (S idx)) as [rs ->]. by eexists.
Qed.

Lemma po_loop_app (inv_items : list pyval) (threshold : float) (l1 l2 : list pyval)
  (inv_used : gset nat) :
po_loop py_str py_round2 inv_items threshold inv_used (l1 ++ l2)
= '(U1, o1) ← po_loop py_str py_round2 inv_items threshold inv_used l1;
  '(U2, o2) ← po_loop py_str py_round2 inv_items threshold U1 l2;
  Ok (U2, o1 ++ o2).
Proof.
revert inv_used. induction l1 as [|po_it l1 IH]; intros inv_used.
- simpl. by destruct (po_loop _ _ _ _ _ l2) as [[U2 o2]|e].
- cbn [app po_loop].
  destruct (po_step py_str py_round2 inv_items threshold inv_used po_it) as [[U' o]|e];
    [|done].
  ok_bind. cbn iota. rewrite IH.
  destruct (po_loop py_str py_round2 inv_items threshold U' l1) as [[U1 o1]|e]; [|done].
  simpl. by destruct (po_loop py_str py_round2 inv_items threshold U1 l2) as [[U2 o2]|e].
Qed.

(** X24. The rows of the earlier purchase-order items do not depend on the
    later ones: when the run on a purchase order returns, the run on any
    prefix of its items returns too, with the same outcomes for those items;
    the later items only add claims, and so only remove trailing rows. *)
Theorem earlier_rows_ignore_later_items (po_items more : list pyval) (inv_struct : pyval)
  (threshold : float) (outcomes : list po_outcome) (inv_used : gset nat)
  (leftovers : list row) :
reconcile py_str py_round2 (doc (po_items ++ more)) inv_struct threshold
= Ok (outcomes, inv_used, leftovers) →
∃ inv_used1 leftovers1,
  reconcile py_str py_round2 (doc po_items) inv_struct threshold
  = Ok (take (length po_items) outcomes, inv_used1, leftovers1)
  ∧ inv_used1 ⊆ inv_used
  ∧ length leftovers ≤ length leftovers1.
Proof.
intros Hrun.
pose proof Hrun as (l & inv_items & Hl & Hi & Hloop & Hleft)%reconcile_Ok.
change (document_items (doc (po_items ++ more))) with (Ok (po_items ++ more)) in Hl.
injection Hl as <-.
pose proof (reconcile_inv_items_dicts _ _ _ _ _ _ _ Hrun Hi) as Hdicts.
rewrite po_loop_app in Hloop.
destruct (po_loop py_str py_round2 inv_items threshold ∅ po_items) as [[U1 o1]|e] eqn:H1;
  [|done].
change (Ok ?x ≫= ?f) with (f x) in Hloop. cbn beta iota in Hloop.
destruct (po_loop py_str py_round2 inv_items threshold U1 more) as [[U2 o2]|e] eqn:H2;
  [|done].
injection Hloop as HU Ho. subst inv_used outcomes.
destruct (po_loop_Ok _ _ _ _ _ _ _ _ H1) as (Hlen1 & _ & _).
destruct (po_loop_Ok _ _ _ _ _ _ _ _ H2) as (_ & HU2 & _).
destruct (leftover_loop_total_dicts U1 inv_items 0 Hdicts) as [lefts1 Hlefts1].
exists U1, lefts1. split; [|split].
- apply reconcile_Ok. exists po_items, inv_items. split; [done|]. split; [done|].
  rewrite <- Hlen1, take_app_length. by split.
- rewrite HU2. set_solver.
- apply leftover_loop_Ok in Hleft, Hlefts1. subst leftovers lefts1.
  rewrite !length_fmap. apply (unclaimed_from_mono py_str). rewrite HU2. set_solver.
Qed.

End ReconcilerErrors.

(** ** Quantities and unit prices *)

Definition core_best (st : best) : best :=
Best (core_of <$> best_match st) (best_score st) (best_idx st).

Definition core_outcome (o : po_outcome) : po_outcome :=
PoOutcome (core_best (out_best o)) (out_claim o) (without_qty_price (out_row o)).

Lemma item_score_core (po_it inv_it : pyval) :
item_score (core_of po_it) (core_of inv_it) = item_score po_it inv_it.
Proof. destruct po_it, inv_it; reflexivity. Qed.

Lemma best_loop_core (po_it : pyval) (inv_used : gset nat) (inv_items : list pyval)
  (idx : nat) (st : best) :
best_loop (core_of po_it) inv_used idx (core_of <$> inv_items) (core_best st)
= core_best <$> best_loop po_it inv_used idx inv_items st.
Proof.
revert idx st. induction inv_items as [|it rest IH]; intros idx st; [done|].
cbn [fmap list_fmap best_loop].
destruct (bool_decide (idx ∈ inv_used)); [apply IH|].
rewrite item_score_core. destruct (item_score po_it it) as [sc|e]; [|done].
change (Ok sc ≫= ?f) with (f sc). cbn beta. rewrite <- IH. f_equal.
cbn [core_best best_score]. by destruct (PrimFloat.ltb (best_score st) sc).
Qed.

Lemma get_or_blank_core (m : option pyval) (key : string) :
get_or_blank (core_of <$> m) key
= (λ _, reported_field (core_of <$> m) key) <$> get_or_blank m key.
Proof.
destruct m as [v|]; [|done]. destruct v; try reflexivity.
- simpl. by destruct b.
- simpl. by destruct (z =? 0)%Z.
- simpl. by destruct (PrimFloat.eqb f 0).
- simpl. by destruct (String.eqb s "").
- simpl. by destruct l.
- simpl. destruct d; [|done]. simpl.
  by destruct (String.eqb "description" key), (String.eqb "total" key).
Qed.

Lemma reported_field_core (m : option pyval) :
reported_field (core_of <$> m) "description" = reported_field m "description"
∧ reported_field (core_of <$> m) "total" = reported_field m "total"
∧ reported_field (core_of <$> m) "qty" = blank
∧ reported_field (core_of <$> m) "unit_price" = blank.
Proof. destruct m as [[]|]; by repeat split. Qed.

Section QuantityAndPrice.
Variable py_str : pyval → string.
Variable py_round2 : float → float.

Lemma po_row_core (po_it : pyval) (st : best) (threshold : float) :
po_row py_str py_round2 (core_of po_it) (core_best st) threshold
= without_qty_price <$> po_row py_str py_round2 po_it st threshold.
Proof.
destruct po_it; try reflexivity.
destruct (reported_field_core (best_match st)) as (Hd & Ht & Hq & Hp).
unfold po_row. cbn [core_best best_match best_score core_of py_get].
ok_bind.
rewrite !get_or_blank_core.
destruct (get_or_blank (best_match st) "qty") as [q|e] eqn:Hgq; [|done].
assert (∀ key, ∃ v, get_or_blank (best_match st) key = Ok v) as Hall.
{ intros key. destruct (best_match st) as [v|]; [|by eexists].
  simpl in *. destruct (py_truthy v); [|by eexists].
  destruct v; simpl in Hgq; try discriminate Hgq. by eexists. }
destruct (Hall "unit_price") as [p Hgp]. destruct (Hall "total") as [t Hgt].
destruct (Hall "description") as [de Hgd].
rewrite Hgp, Hgt, Hgd.
apply get_or_blank_Ok in Hgt, Hgd. subst t de.
cbn. rewrite Hd, Ht, Hq, Hp. reflexivity.
Qed.

Lemma po_step_core (inv_items : list pyval) (threshold : float) (inv_used : gset nat)
  (po_it : pyval) :
po_step py_str py_round2 (core_of <$> inv_items) threshold inv_used (core_of po_it)
= prod_map id core_outcome
  <$> po_step py_str py_round2 inv_items threshold inv_used po_it.
Proof.
unfold po_step.
change (Best None 0 None) with (core_best (Best None 0 None)) at 1.
rewrite best_loop_core.
destruct (best_loop po_it inv_used 0 inv_items (Best None 0 None)) as [st|e]; [|done].
cbn [fmap result_fmap]. ok_bind. cbn zeta.
rewrite po_row_core.
destruct (po_row py_str py_round2 po_it st threshold) as [r|e]; [|done].
reflexivity.
Qed.

Lemma po_loop_core (inv_items : list pyval) (threshold : float) (po_items : list pyval)
  (inv_used : gset nat) :
po_loop py_str py_round2 (core_of <$> inv_items) threshold inv_used (core_of <$> po_items)
= prod_map id (fmap (M := list) core_outcome)
  <$> po_loop py_str py_round2 inv_items threshold inv_used po_items.
Proof.
revert inv_used. induction po_items as [|po_it rest IH]; intros inv_used; [done|].
cbn [fmap list_fmap po_loop]. rewrite po_step_core.
destruct (po_step py_str py_round2 inv_items threshold inv_used po_it) as [[U o]|e];
  [|done].
cbn [fmap result_fmap prod_map fst snd id]. ok_bind. cbn iota.
rewrite IH.
destruct (po_loop py_str py_round2 inv_items threshold U rest) as [[U' os]|e]; [|done].
reflexivity.
Qed.

Lemma leftover_row_core (inv_it : pyval) :
leftover_row (core_of inv_it) = without_qty_price <$> leftover_row inv_it.
Proof. destruct inv_it; reflexivity. Qed.

Lemma leftover_loop_core (inv_used : gset nat) (inv_items : list pyval) (idx : nat) :
leftover_loop inv_used idx (core_of <$> inv_items)
= fmap (M := list) without_qty_price <$> leftover_loop inv_used idx inv_items.
Proof.
revert idx. induction inv_items as [|it rest IH]; intros idx; [done|].
cbn [fmap list_fmap leftover_loop].
destruct (bool_decide (idx ∈ inv_used)); [apply IH|].
rewrite leftover_row_core. destruct (leftover_row it) as [r|e]; [|done].
cbn [fmap result_fmap]. ok_bind.
rewrite IH. by destruct (leftover_loop inv_used (S idx) rest).
Qed.

(** X10. Quantities and unit prices are never compared: removing every key
    but [description] and [total] from every item of both documents leaves
    the run as it was (the same exception, or the same rows in the same
    order with the same statuses and scores), apart from the four quantity
    and unit-price cells of each row, which become blank. *)
Theorem quantity_and_price_ignored (po_struct inv_struct : pyval) (threshold : float)
  (po_items inv_items : list pyval) :
document_items po_struct = Ok po_items →
document_items inv_struct = Ok inv_items →
compare_structures py_str py_round2
  (doc (core_of <$> po_items)) (doc (core_of <$> inv_items)) threshold
= fmap (M := list) without_qty_price
  <$> compare_structures py_str py_round2 po_struct inv_struct threshold.
Proof.
intros Hp Hi. unfold document_items in Hp, Hi.
apply bind_Ok in Hp as (v & Hv & Hpv). apply bind_Ok in Hi as (w & Hw & Hpw).
unfold compare_structures, reconcile. rewrite Hv, Hw.
change (items_of (doc ?l)) with (Ok (PList l)).
ok_bind. rewrite Hpv, Hpw.
change (py_iter (PList ?l)) with (Ok l).
ok_bind.
rewrite po_loop_core.
destruct (po_loop py_str py_round2 inv_items threshold ∅ po_items) as [[U outs]|e]; [|done].
cbn [fmap result_fmap prod_map fst snd id]. ok_bind. cbn iota.
rewrite leftover_loop_core.
destruct (leftover_loop U 0 inv_items) as [lefts|e]; [|done].
cbn [fmap result_fmap]. ok_bind. cbn iota.
cbn [fmap result_fmap]. f_equal. rewrite fmap_app. f_equal.
induction outs as [|o os IH]; [done|]. cbn [fmap list_fmap map]. by rewrite <- IH.
Qed.

End QuantityAndPrice.

(** ** Bounds on rounded results *)

Module FloatBound.
Import FloatArith.

Lemma iter_pos_nat {T : Type} (f : T → T) (n : positive) (x : T) :
SpecFloat.iter_pos f n x = Nat.iter (Pos.to_nat n) f x.
Proof.
revert x. induction n as [n IH|n IH|]; intros x; cbn [SpecFloat.iter_pos].
- rewrite !IH, <- Nat.iter_add, <- Nat.iter_succ_r. f_equal. lia.
- rewrite !IH, <- Nat.iter_add. f_equal. lia.
- reflexivity.
Qed.

(** The mantissa [m] at exponent [e], the part shifted out being zero
    exactly when [exact], stands for a value that is at most [2^k]. *)
Definition under (k m e : Z) (exact : bool) : Prop :=
(0 <= m)%Z ∧ (e <= k)%Z ∧ (if exact then m <= 2 ^ (k - e) else m < 2 ^ (k - e))%Z.

Definition rec_exact (r : shr_record) : bool := negb (shr_r r) && negb (shr_s r).

Definition loc_exact (l : location) : bool :=
match l with loc_Exact => true | loc_Inexact _ => false end.

Lemma pow2_split (k e : Z) : (e + 1 <= k)%Z → (2 ^ (k - e) = 2 * 2 ^ (k - (e + 1)))%Z.
Proof.
intros He. replace (k - e)%Z with (Z.succ (k - (e + 1))) by lia.
rewrite Z.pow_succ_r by lia. reflexivity.
Qed.

Lemma shr_1_under (k : Z) (r : shr_record) (e : Z) :
under k (shr_m r) e (rec_exact r) → (e + 1 <= k)%Z →
under k (shr_m (shr_1 r)) (e + 1) (rec_exact (shr_1 r)).
Proof.
intros (Hm & He & Hb) Hk. destruct r as [m r s]. unfold rec_exact in *. simpl in *.
rewrite (pow2_split k e Hk) in Hb.
assert (0 < 2 ^ (k - (e + 1)))%Z as Hpos by (apply Z.pow_pos_nonneg; lia).
destruct m as [|[p|p|]|p]; simpl; try lia.
- split; [done|]. split; [done|]. destruct (negb (r || s)); lia.
- split; [lia|]. split; [done|]. destruct r, s; simpl in *; lia.
- split; [lia|]. split; [done|]. destruct r, s; simpl in *; lia.
- split; [done|]. split; [done|]. lia.
Qed.

Lemma shr_iter_under (k : Z) (n : nat) (r : shr_record) (e : Z) :
under k (shr_m r) e (rec_exact r) → (e + Z.of_nat n <= k)%Z →
under k (shr_m (Nat.iter n shr_1 r)) (e + Z.of_nat n) (rec_exact (Nat.iter n shr_1 r)).
Proof.
intros Hr. induction n as [|n IH]; intros Hk.
- simpl. by rewrite Z.add_0_r.
- replace (e + Z.of_nat (S n))%Z with (e + Z.of_nat n + 1)%Z by lia.
  simpl. apply shr_1_under; [apply IH|]; lia.
Qed.

Lemma digits_range (p : positive) : (2 ^ (digits p - 1) <= Z.pos p < 2 ^ digits p)%Z.
Proof.
pose proof (digits_pos p) as Hd.
pose proof (digits_bound p (digits p) ltac:(lia)) as H1.
pose proof (digits_bound p (digits p - 1) ltac:(lia)) as H2. lia.
Qed.

Lemma Zdigits2_le (m k : Z) :
(0 <= m)%Z → (0 <= k)%Z → (m <= 2 ^ k)%Z → (Zdigits2 m <= k + 1)%Z.
Proof.
intros Hm Hk Hle. destruct m as [|p|p]; simpl; [lia| |lia].
apply (digits_bound p (k + 1)); [lia|]. rewrite Z.pow_add_r by lia. lia.
Qed.

Lemma shr_record_of_loc_m (m : Z) (l : location) :
shr_m (shr_record_of_loc m l) = m ∧ rec_exact (shr_record_of_loc m l) = loc_exact l.
Proof. by destruct l as [|[]]. Qed.

Lemma shr_fexp_under (k m e : Z) (l : location) :
(-1074 <= k)%Z → under k m e (loc_exact l) →
under k (shr_m (shr_fexp prec emax m e l).1) (shr_fexp prec emax m e l).2
  (rec_exact (shr_fexp prec emax m e l).1).
Proof.
intros Hk Hu. destruct (shr_record_of_loc_m m l) as [Hm Hx].
pose proof Hu as (H0 & He & Hb).
assert (m <= 2 ^ (k - e))%Z as Hle by (destruct (loc_exact l); lia).
pose proof (Zdigits2_le m (k - e) H0 ltac:(lia) Hle) as Hd.
unfold shr_fexp, shr.
destruct (fexp prec emax (Zdigits2 m + e) - e)%Z as [|n|n] eqn:Hn; simpl.
- by rewrite Hm, Hx.
- rewrite iter_pos_nat. replace (Z.pos n) with (Z.of_nat (Pos.to_nat n)) by lia.
  apply shr_iter_under; [by rewrite Hm, Hx|].
  unfold fexp, emin, prec, emax in Hn. lia.
- by rewrite Hm, Hx.
Qed.

Lemma round_under (k : Z) (r : shr_record) (e : Z) :
under k (shr_m r) e (rec_exact r) →
under k (round_nearest_even (shr_m r) (loc_of_shr_record r)) e true.
Proof.
intros (Hm & He & Hb). destruct r as [m [] []]; unfold rec_exact in Hb; simpl in *.
- repeat split; lia.
- repeat split; try lia; destruct (Z.even m); lia.
- repeat split; lia.
- repeat split; lia.
Qed.

(** A non-negative result that is at most [2^k]. *)
Definition sf_in (k : Z) (x : spec_float) : Prop :=
x = S754_zero false
∨ ∃ m e, x = S754_finite false m e ∧ (e <= k)%Z ∧ (Z.pos m <= 2 ^ (k - e))%Z.

Lemma binary_round_aux_under (k m e : Z) (l : location) :
(-1074 <= k <= 971)%Z → under k m e (loc_exact l) →
sf_in k (binary_round_aux prec emax false m e l).
Proof.
intros Hk Hu. unfold binary_round_aux.
pose proof (shr_fexp_under k m e l ltac:(lia) Hu) as H1.
destruct (shr_fexp prec emax m e l) as [r1 e1]. simpl in H1.
apply round_under in H1.
pose proof (shr_fexp_under k _ e1 loc_Exact ltac:(lia) H1) as H2.
destruct (shr_fexp prec emax _ e1 loc_Exact) as [r2 e2]. simpl in H2.
destruct H2 as (H0 & He & Hb).
assert (shr_m r2 <= 2 ^ (k - e2))%Z as Hle by (destruct (rec_exact r2); lia).
destruct (shr_m r2) as [|p|p]; [by left| |lia].
right. exists p, e2. unfold emax, prec.
destruct (Z.leb_spec e2 (1024 - 53)); [done|lia].
Qed.

(** Two mantissas with their exponents, compared as values. *)
Definition vle (m1 e1 m2 e2 : Z) : Prop :=
(m1 * 2 ^ (e1 - Z.min e1 e2) <= m2 * 2 ^ (e2 - Z.min e1 e2))%Z.

Lemma pow2_cross (m1 m2 a b c d : Z) :
(0 <= a)%Z → (0 <= b)%Z → (0 <= c)%Z → (0 <= d)%Z → (a - b = c - d)%Z →
(m1 * 2 ^ a <= m2 * 2 ^ b)%Z → (m1 * 2 ^ c <= m2 * 2 ^ d)%Z.
Proof.
intros Ha Hb Hc Hd Heq Hle.
assert (0 < 2 ^ b)%Z as Hpb by (apply Z.pow_pos_nonneg; lia).
assert (0 < 2 ^ d)%Z as Hpd by (apply Z.pow_pos_nonneg; lia).
apply (Z.mul_le_mono_pos_r _ _ (2 ^ b)); [done|].
rewrite <- !Z.mul_assoc, <- !Z.pow_add_r by lia.
replace (c + b)%Z with (a + d)%Z by lia. replace (d + b)%Z with (b + d)%Z by lia.
rewrite !Z.pow_add_r, !Z.mul_assoc by lia.
apply Z.mul_le_mono_pos_r; done.
Qed.

Lemma new_location_exact (n r : Z) : loc_exact (new_location n r) = (r =? 0)%Z.
Proof.
unfold new_location, new_location_even, new_location_odd.
by destruct (Z.even n), (r =? 0)%Z.
Qed.

(** A quotient of two positive floats, the first at most the second, is
    at most one. *)
Lemma SFdiv_under (m1 : positive) (e1 : Z) (m2 : positive) (e2 : Z) :
vle (Z.pos m1) e1 (Z.pos m2) e2 →
sf_in 0 (SFdiv prec emax (S754_finite false m1 e1) (S754_finite false m2 e2)).
Proof.
intros Hle. unfold SFdiv, SFdiv_core_binary.
set (d := (Zdigits2 (Z.pos m1) + e1 - (Zdigits2 (Z.pos m2) + e2))%Z).
set (e' := Z.min (fexp prec emax d) (e1 - e2)).
set (s := (e1 - e2 - e')%Z).
assert (0 <= s)%Z as Hs by (subst s e'; lia).
assert (d <= 0)%Z as Hd.
{ subst d. simpl. fold (digits m1) (digits m2).
  pose proof (digits_range m1) as [Hl1 _]. pose proof (digits_range m2) as [_ Hu2].
  pose proof (digits_pos m1). pose proof (digits_pos m2).
  unfold vle in Hle. set (c := Z.min e1 e2) in *.
  assert (2 ^ (digits m1 - 1 + (e1 - c)) < 2 ^ (digits m2 + (e2 - c)))%Z as Hlt.
  { rewrite !Z.pow_add_r by lia.
    assert (0 < 2 ^ (e1 - c))%Z by (apply Z.pow_pos_nonneg; lia).
    assert (0 < 2 ^ (e2 - c))%Z by (apply Z.pow_pos_nonneg; lia). nia. }
  apply Z.pow_lt_mono_r_iff in Hlt; lia. }
assert (e' <= 0)%Z as He'.
{ subst e'. unfold fexp, emin, prec, emax. lia. }
set (m' := match s with Z.pos _ => Z.shiftl (Z.pos m1) s | 0%Z => Z.pos m1 | Z.neg _ => 0%Z end).
assert (m' = Z.pos m1 * 2 ^ s)%Z as Hm'.
{ subst m'. destruct s as [|p|p] eqn:Hp; [simpl; lia| |lia].
  rewrite Z.shiftl_mul_pow2 by lia. reflexivity. }
assert (m' <= Z.pos m2 * 2 ^ (- e'))%Z as Hb.
{ rewrite Hm'. unfold vle in Hle.
  apply (pow2_cross _ _ (e1 - Z.min e1 e2) (e2 - Z.min e1 e2)); try lia. }
pose proof (Z.div_eucl_eq m' (Z.pos m2) ltac:(lia)) as Hq.
pose proof (Z.mod_pos_bound m' (Z.pos m2) ltac:(lia)) as Hr.
unfold Z.modulo in Hr.
destruct (Z.div_eucl m' (Z.pos m2)) as [q r].
apply binary_round_aux_under; [lia|].
rewrite new_location_exact.
assert (0 < 2 ^ (- e'))%Z as Hp by (apply Z.pow_pos_nonneg; lia).
assert (0 <= m')%Z by (rewrite Hm'; apply Z.mul_nonneg_nonneg; [lia|apply Z.pow_nonneg; lia]).
unfold under. replace (0 - e')%Z with (- e')%Z by lia.
split; [nia|]. split; [done|].
destruct (Z.eqb_spec r 0); nia.
Qed.

Lemma shl_align_spec (m : positive) (e e' : Z) :
(shl_align m e e').2 = Z.min e e'
∧ Z.pos (shl_align m e e').1 = (Z.pos m * 2 ^ (e - Z.min e e'))%Z.
Proof.
unfold shl_align. destruct (e' - e)%Z as [|p|p] eqn:Hp; simpl.
- split; [lia|]. replace (e - Z.min e e')%Z with 0%Z by lia. simpl. lia.
- split; [lia|]. replace (e - Z.min e e')%Z with 0%Z by lia. simpl. lia.
- split; [lia|]. rewrite (proj2 (iter_xO_spec m p)). f_equal. f_equal. lia.
Qed.

Lemma sf_in_mono (k k' : Z) (x : spec_float) : (k <= k')%Z → sf_in k x → sf_in k' x.
Proof.
intros Hk [->|(m & e & -> & He & Hm)]; [by left|]. right. exists m, e.
split; [done|]. split; [lia|].
assert (2 ^ (k - e) <= 2 ^ (k' - e))%Z by (apply Z.pow_le_mono_r; lia). lia.
Qed.

(** The sum of two floats that are at most one is at most two. *)
Lemma SFadd_under (x y : spec_float) :
sf_in 0 x → sf_in 0 y → sf_in 1 (SFadd prec emax x y).
Proof.
intros Hx Hy.
destruct Hx as [->|(mx & ex & -> & Hex & Hmx)].
{ destruct Hy as [->|(my & ey & -> & Hey & Hmy)]; [by left|].
  apply (sf_in_mono 0); [lia|]. right. by exists my, ey. }
destruct Hy as [->|(my & ey & -> & Hey & Hmy)].
{ apply (sf_in_mono 0); [lia|]. right. by exists mx, ex. }
unfold SFadd. set (ez := Z.min ex ey).
destruct (shl_align_spec mx ex ez) as [_ Hx]. destruct (shl_align_spec my ey ez) as [_ Hy].
replace (Z.min ex ez) with ez in Hx by lia. replace (Z.min ey ez) with ez in Hy by lia.
set (px := (shl_align mx ex ez).1) in *. set (py := (shl_align my ey ez).1) in *.
cbn [cond_Zopp]. change (Z.pos px + Z.pos py)%Z with (Z.pos (px + py)).
cbn [binary_normalize]. unfold binary_round.
destruct (shl_align_spec (px + py) ez (fexp prec emax (Z.pos (digits2_pos (px + py)) + ez)))
  as [He Hm].
destruct (shl_align (px + py) ez _) as [mz ez']. simpl in He, Hm. rewrite <- He in Hm.
apply binary_round_aux_under; [lia|].
assert (Z.pos px <= 2 ^ (- ez))%Z as Hpx.
{ rewrite Hx. replace (- ez)%Z with ((0 - ex) + (ex - ez))%Z by lia.
  rewrite Z.pow_add_r by lia. apply Z.mul_le_mono_nonneg_r; [apply Z.pow_nonneg|]; lia. }
assert (Z.pos py <= 2 ^ (- ez))%Z as Hpy.
{ rewrite Hy. replace (- ez)%Z with ((0 - ey) + (ey - ez))%Z by lia.
  rewrite Z.pow_add_r by lia. apply Z.mul_le_mono_nonneg_r; [apply Z.pow_nonneg|]; lia. }
unfold under. simpl loc_exact. cbv iota. split; [lia|]. split; [lia|].
rewrite Hm, Pos2Z.inj_add.
replace (1 - ez')%Z with (Z.succ (- ez) + (ez - ez'))%Z by lia.
rewrite Z.pow_add_r, Z.pow_succ_r by lia.
apply Z.mul_le_mono_nonneg_r; [apply Z.pow_nonneg|]; lia.
Qed.

Lemma sf_in_nonneg (k : Z) (x : spec_float) :
sf_in k x →
SFcompare (S754_zero false) x = Some Lt ∨ SFcompare (S754_zero false) x = Some Eq.
Proof. intros [->|(m & e & -> & _)]; simpl; auto. Qed.

Lemma sf_in_le_pow2 (x : spec_float) (M : positive) :
Z.pos M = (2 ^ 52)%Z → sf_in 0 x → valid_binary x = true →
SFcompare x (S754_finite false M (-52)) = Some Lt
∨ SFcompare x (S754_finite false M (-52)) = Some Eq.
Proof.
intros HM [->|(m & e & -> & He & Hm)] Hv; [by left|]. unfold SFcompare.
unfold valid_binary, SpecFloat.valid_binary, bounded, canonical_mantissa in Hv.
apply andb_prop in Hv as [Hc _].
apply Z.eqb_eq in Hc. fold (digits m) in Hc.
pose proof (digits_range m) as [Hl Hu]. pose proof (digits_pos m) as Hd.
destruct (Z.compare_spec e (-52)) as [->|Hlt|Hgt]; [|auto|].
- change (Pos.compare_cont Eq m M) with (Pos.compare m M).
  replace (0 - -52)%Z with 52%Z in Hm by lia.
  destruct (Pos.compare_spec m M); auto. lia.
- exfalso. unfold fexp, emin, prec, emax in Hc.
  assert (digits m = 53)%Z as Hd53 by lia. rewrite Hd53 in Hl.
  assert (2 ^ (0 - e) < 2 ^ (53 - 1))%Z as Hlt by (apply Z.pow_lt_mono_r; lia). lia.
Qed.

Lemma sf_in_le_one (x : spec_float) :
sf_in 0 x → valid_binary x = true →
SFcompare x (Prim2SF 1) = Some Lt ∨ SFcompare x (Prim2SF 1) = Some Eq.
Proof. apply (sf_in_le_pow2 x 4503599627370496). reflexivity. Qed.

(** A float between [0.0] and [1.0]. *)
Definition in_unit (x : float) : Prop := sf_in 0 (Prim2SF x).

Lemma in_unit_bounds (x : float) :
in_unit x → PrimFloat.leb 0 x = true ∧ PrimFloat.leb x 1 = true.
Proof.
intros Hx. rewrite !FloatOrder.leb_cmp. unfold FloatOrder.cmp. split.
- destruct (sf_in_nonneg 0 _ Hx); auto.
- destruct (sf_in_le_one _ Hx (Prim2SF_valid x)); auto.
Qed.

Lemma in_unit_one : in_unit 1.
Proof. right. exists 4503599627370496%positive, (-52)%Z. by repeat split. Qed.

Lemma in_unit_zero : in_unit 0.
Proof. by left. Qed.

Lemma float_of_nat_0 : Prim2SF (float_of_nat 0) = S754_zero false.
Proof. reflexivity. Qed.

Lemma float_of_nat_vle (p q : nat) (m1 : positive) (e1 : Z) (m2 : positive) (e2 : Z) :
p ≤ q → (e1 <= 0)%Z → (e2 <= 0)%Z →
Z.pos m1 = (Z.of_nat p * 2 ^ (- e1))%Z → Z.pos m2 = (Z.of_nat q * 2 ^ (- e2))%Z →
vle (Z.pos m1) e1 (Z.pos m2) e2.
Proof.
intros Hpq He1 He2 -> ->. unfold vle. set (c := Z.min e1 e2).
rewrite <- !Z.mul_assoc, <- !Z.pow_add_r by lia.
replace (- e1 + (e1 - c))%Z with (- c)%Z by lia.
replace (- e2 + (e2 - c))%Z with (- c)%Z by lia.
apply Z.mul_le_mono_nonneg_r; [apply Z.pow_nonneg|]; lia.
Qed.

(** [p / q] for integers [p ≤ q]. *)
Lemma div_nat_in_unit (p q : nat) :
p ≤ q → 1 ≤ q → (Z.of_nat q < 2 ^ 53)%Z →
in_unit (PrimFloat.div (float_of_nat p) (float_of_nat q)).
Proof.
intros Hpq Hq Hlt. unfold in_unit. rewrite div_spec.
destruct (float_of_nat_spec q) as (m2 & e2 & -> & _ & He2 & Hm2); [done..|].
destruct (decide (p = 0)) as [->|Hp].
- rewrite float_of_nat_0. by left.
- destruct (float_of_nat_spec p) as (m1 & e1 & -> & _ & He1 & Hm1); [lia..|].
  apply SFdiv_under. by apply (float_of_nat_vle p q); try lia.
Qed.

(** [2.0 * p / q] for integers with [2 p ≤ q]. *)
Lemma div_double_in_unit (p q : nat) :
2 * p ≤ q → 1 ≤ q → (Z.of_nat q < 2 ^ 53)%Z →
in_unit (PrimFloat.div (PrimFloat.mul 2 (float_of_nat p)) (float_of_nat q)).
Proof.
intros Hpq Hq Hlt. unfold in_unit. rewrite div_spec, mul_spec.
destruct (float_of_nat_spec q) as (m2 & e2 & -> & _ & He2 & Hm2); [done..|].
destruct (decide (p = 0)) as [->|Hp].
- rewrite float_of_nat_0. by left.
- destruct (float_of_nat_spec p) as (m1 & e1 & -> & Hd1 & He1 & Hm1); [lia..|].
  rewrite mul2_spec by (done || lia).
  apply SFdiv_under. unfold vle. set (c := Z.min (e1 + 1) e2).
  rewrite Hm1, Hm2. rewrite <- !Z.mul_assoc, <- !Z.pow_add_r by lia.
  replace (- e1 + (e1 + 1 - c))%Z with (Z.succ (- c)) by lia.
  replace (- e2 + (e2 - c))%Z with (- c)%Z by lia.
  rewrite Z.pow_succ_r by lia.
  assert (0 <= 2 ^ (- c))%Z by (apply Z.pow_nonneg; lia). nia.
Qed.

(** The mean of two floats between zero and one. *)
Lemma mean_in_unit (x y : float) :
in_unit x → in_unit y → in_unit (PrimFloat.div (PrimFloat.add x y) 2).
Proof.
intros Hx Hy. unfold in_unit. rewrite div_spec, add_spec.
change (Prim2SF 2) with (S754_finite false 4503599627370496 (-51)).
unfold SF64add. destruct (SFadd_under _ _ Hx Hy) as [->|(m & e & -> & He & Hm)]; [by left|].
apply SFdiv_under. unfold vle. set (c := Z.min e (-51)).
change (Z.pos 4503599627370496) with (2 ^ 52)%Z.
rewrite <- Z.pow_add_r by lia. replace (52 + (-51 - c))%Z with ((1 - e) + (e - c))%Z by lia.
rewrite Z.pow_add_r by lia. apply Z.mul_le_mono_nonneg_r; [apply Z.pow_nonneg|]; lia.
Qed.

End FloatBound.

(** ** The matched elements are at most the shorter sequence *)

Section MatchesBound.
Context `{Countable A}.

(** Every run recorded in [j2len] ends inside the range of [b] and starts
    at [blo] or later. *)
Definition j2len_in (m : gmap nat nat) (blo bhi : nat) : Prop :=
∀ j v, m !! j = Some v → blo ≤ j < bhi ∧ v ≤ j + 1 - blo.

Definition best_in_b (blo bhi : nat) (x : block) : Prop :=
blo ≤ x.1.2 ∧ x.1.2 + x.2 ≤ bhi.

Lemma flm_row_bounds_b (blo bhi i : nat) (j2len : gmap nat nat) (js : list nat)
  (new : gmap nat nat) (x : block) :
j2len_in j2len blo bhi → j2len_in new blo bhi → best_in_b blo bhi x →
j2len_in (flm_row blo bhi i j2len js new x).1 blo bhi
∧ best_in_b blo bhi (flm_row blo bhi i j2len js new x).2.
Proof.
intros Hold. revert new x.
induction js as [|j js IH]; intros new x Hnew Hx; simpl; [done|].
destruct (Nat.ltb_spec j blo) as [Hlo|Hlo]; [by apply IH|].
destruct (Nat.leb_spec bhi j) as [Hhi|Hhi]; [done|].
assert (j2lenget_pred j2len j + 1 ≤ j + 1 - blo) as Hk.
{ destruct j as [|j']; simpl; [lia|].
  destruct (j2len !! j') as [v|] eqn:Hv; simpl; [|lia].
  apply Hold in Hv. lia. }
apply IH.
- intros j' v. destruct (decide (j' = j)) as [->|Hne].
  + rewrite lookup_insert_eq. intros [= <-]. lia.
  + rewrite lookup_insert_ne by done. apply Hnew.
- destruct (block_size x <? j2lenget_pred j2len j + 1); [|done].
  unfold best_in_b. simpl. lia.
Qed.

Lemma flm_rows_bounds_b (a : list A) (b2j : gmap A (list nat)) (blo bhi : nat)
  (rows : list nat) (st : gmap nat nat * block) :
j2len_in st.1 blo bhi → best_in_b blo bhi st.2 →
best_in_b blo bhi (flm_rows a b2j blo bhi rows st).2.
Proof.
revert st. induction rows as [|i rows IH]; intros st Hm Hx; simpl; [done|].
assert (j2len_in (∅ : gmap nat nat) blo bhi) as He.
{ intros j v. by rewrite lookup_empty. }
destruct (flm_row_bounds_b blo bhi i st.1
            (match a !! i with Some x => default [] (b2j !! x) | None => [] end)
            ∅ st.2 Hm He Hx) as [Hm' Hx'].
by apply IH.
Qed.

Lemma extend_left_bounds_b (a b : list A) (alo blo bhi besti bestj bestsize : nat) :
best_in_b blo bhi (besti, bestj, bestsize) →
best_in_b blo bhi (extend_left a b alo blo besti bestj bestsize).
Proof.
revert bestj bestsize. induction besti as [|i IH]; intros bestj bestsize Hx.
- by destruct bestj.
- destruct bestj as [|j]; [done|]. cbn [extend_left].
  destruct (_ && _) eqn:Hc; [|done].
  apply IH. apply andb_prop in Hc as [Hc _]. apply andb_prop in Hc as [_ Hc].
  apply Nat.ltb_lt in Hc. unfold best_in_b in *. simpl in *. lia.
Qed.

Lemma extend_right_bounds_b (a b : list A) (bhi besti bestj n bestsize : nat) :
bestj + bestsize ≤ bhi →
bestj + extend_right a b bhi besti bestj n bestsize ≤ bhi.
Proof.
revert bestsize. induction n as [|n IH]; intros bestsize Hle; simpl; [done|].
destruct (_ && _) eqn:Hc; [|done].
apply IH. apply andb_prop in Hc as [Hc _]. apply Nat.ltb_lt in Hc. lia.
Qed.

Lemma find_longest_match_bounds_b (a b : list A) (b2j : gmap A (list nat))
  (alo ahi blo bhi : nat) :
blo ≤ bhi → best_in_b blo bhi (find_longest_match a b b2j alo ahi blo bhi).
Proof.
intros Hle. unfold find_longest_match.
pose proof (flm_rows_bounds_b a b2j blo bhi (seq alo (ahi - alo)) (∅, (alo, blo, 0))) as Hr.
destruct (flm_rows _ _ _ _ _ _) as [m x].
assert (best_in_b blo bhi x) as Hx.
{ apply Hr.
  - intros j v. simpl. by rewrite lookup_empty.
  - unfold best_in_b. simpl. lia. }
destruct x as [[xi xj] xk].
pose proof (extend_left_bounds_b a b alo blo bhi xi xj xk Hx) as Hl. simpl.
destruct (extend_left a b alo blo xi xj xk) as [[besti bestj] bestsize].
unfold best_in_b in *. simpl in *. split; [lia|].
apply extend_right_bounds_b. lia.
Qed.

Definition total_size (blocks : list block) : nat :=
foldr (λ x acc, block_size x + acc) 0 blocks.

Lemma total_size_app (l1 l2 : list block) :
total_size (l1 ++ l2) = total_size l1 + total_size l2.
Proof. unfold total_size. induction l1 as [|x l1 IH]; simpl; [done|]. rewrite IH. lia. Qed.

Lemma total_size_Permutation (l1 l2 : list block) :
l1 ≡ₚ l2 → total_size l1 = total_size l2.
Proof. unfold total_size. induction 1; simpl; lia. Qed.

Lemma collapse_total_size (i1 j1 k1 : nat) (blocks acc : list block) :
total_size (collapse i1 j1 k1 blocks acc) = total_size acc + k1 + total_size blocks.
Proof.
revert i1 j1 k1 acc. induction blocks as [|[[i2 j2] k2] rest IH]; intros i1 j1 k1 acc.
- simpl. destruct (Nat.eqb_spec k1 0) as [->|_]; [lia|].
  rewrite total_size_app. simpl. unfold block_size. simpl. lia.
- cbn [collapse]. destruct (_ && _).
  + rewrite IH. simpl. unfold block_size. simpl. lia.
  + rewrite IH. destruct (Nat.eqb_spec k1 0) as [->|_].
    * simpl. unfold block_size. simpl. lia.
    * rewrite total_size_app. simpl. unfold block_size. simpl. lia.
Qed.

(** The elements of [a] and of [b] in the ranges still queued. *)
Definition queue_room_a (queue : list (nat * nat * nat * nat)) : nat :=
foldr (λ q acc, (q.1.1.2 - q.1.1.1) + acc) 0 queue.

Definition queue_room_b (queue : list (nat * nat * nat * nat)) : nat :=
foldr (λ q acc, (q.2 - q.1.2) + acc) 0 queue.

Definition queue_ok_b (queue : list (nat * nat * nat * nat)) : Prop :=
Forall (λ q, q.1.2 ≤ q.2) queue.

Lemma blocks_loop_total_size (a b : list A) (b2j : gmap A (list nat)) (fuel : nat)
  (queue : list (nat * nat * nat * nat)) (acc found : list block) :
queue_ok queue → queue_ok_b queue →
blocks_loop a b b2j fuel queue acc = Some found →
total_size found ≤ total_size acc + queue_room_a queue
∧ total_size found ≤ total_size acc + queue_room_b queue.
Proof.
revert queue acc. induction fuel as [|fuel IH]; intros queue acc Hok Hokb Hrun.
- destruct queue as [|[[[alo ahi] blo] bhi] queue]; simpl in Hrun; [|done].
  injection Hrun as <-. simpl. lia.
- destruct queue as [|[[[alo ahi] blo] bhi] queue]; simpl in Hrun.
  { injection Hrun as <-. simpl. lia. }
  apply Forall_cons in Hok as [Hq Hok]. apply Forall_cons in Hokb as [Hqb Hokb].
  simpl in Hq, Hqb.
  pose proof (find_longest_match_bounds a b b2j alo ahi blo bhi Hq) as Hb.
  pose proof (find_longest_match_bounds_b a b b2j alo ahi blo bhi Hqb) as Hbb.
  destruct (find_longest_match a b b2j alo ahi blo bhi) as [[i j] k].
  unfold best_in in Hb. unfold best_in_b in Hbb. simpl in Hb, Hbb.
  destruct (k =? 0) eqn:Hk.
  { destruct (IH _ _ Hok Hokb Hrun). simpl. lia. }
  destruct ((alo <? i) && (blo <? j)) eqn:H1, ((i + k <? ahi) && (j + k <? bhi)) eqn:H2;
    apply IH in Hrun as [Ha Hbd];
    try (unfold queue_ok; repeat (apply Forall_cons; split); simpl; done || lia);
    try (unfold queue_ok_b; repeat (apply Forall_cons; split); simpl; done || lia);
    rewrite total_size_app in Ha, Hbd; simpl in *; unfold block_size in *; simpl in *; lia.
Qed.

(** [matches] counts no more elements than either sequence has. *)
Lemma matches_le (a b : list A) : matches a b ≤ length a ∧ matches a b ≤ length b.
Proof.
unfold matches, get_matching_blocks. fold (total_size).
change (foldr (λ x acc, block_size x + acc) 0) with total_size.
rewrite total_size_app, collapse_total_size.
destruct (blocks_loop_terminates a b) as [found Hfound]. rewrite Hfound. simpl default.
rewrite (total_size_Permutation _ _ (merge_sort_Permutation block_le found)).
apply blocks_loop_total_size in Hfound as [Ha Hb].
- simpl in *. unfold block_size in *. simpl in *. lia.
- unfold queue_ok. repeat constructor. simpl. lia.
- unfold queue_ok_b. repeat constructor. simpl. lia.
Qed.

End MatchesBound.

(** ** The score lies between 0.0 and 1.0 *)

Lemma token_overlap_in_unit (a b : string) :
(Z.of_nat (String.length a + String.length b) < 2 ^ 53)%Z →
FloatBound.in_unit (token_overlap a b).
Proof.
intros Hlen. unfold token_overlap.
pose proof (token_set_size_le a) as Ha. pose proof (token_set_size_le b) as Hb.
pose proof (size_union_alt (token_set a) (token_set b)) as Hu.
assert (size (token_set b ∖ token_set a) ≤ size (token_set b)) as Hd
  by (apply subseteq_size; set_solver).
assert (size (token_set a ∩ token_set b) ≤ size (token_set a ∪ token_set b)) as Hi
  by (apply subseteq_size; set_solver).
apply FloatBound.div_nat_in_unit; lia.
Qed.

Lemma ratio_in_unit (a b : string) :
(Z.of_nat (String.length a + String.length b) < 2 ^ 53)%Z →
FloatBound.in_unit (ratio a b).
Proof.
intros Hlen. unfold ratio, calculate_ratio.
rewrite !length_list_ascii_of_string.
destruct (Nat.eqb_spec (String.length a + String.length b) 0) as [_|Hne];
  [apply FloatBound.in_unit_one|].
destruct (matches_le (list_ascii_of_string a) (list_ascii_of_string b)) as [Hma Hmb].
rewrite !length_list_ascii_of_string in Hma, Hmb.
apply FloatBound.div_double_in_unit; lia.
Qed.

Lemma token_similarity_in_unit (a b : string) :
(Z.of_nat (String.length a + String.length b) < 2 ^ 53)%Z →
FloatBound.in_unit (token_overlap a b) ∧ FloatBound.in_unit (char_sim a b)
∧ FloatBound.in_unit (token_similarity a b).
Proof.
intros Hlen.
pose proof (token_overlap_in_unit a b Hlen) as Ho.
assert (FloatBound.in_unit (char_sim a b)) as Hc.
{ unfold char_sim. apply ratio_in_unit. by rewrite !length_lower. }
split; [done|]. split; [done|]. by apply FloatBound.mean_in_unit.
Qed.

(** X11. The score is a number between 0.0 and 1.0, and so are the token
    overlap and the character similarity it is the mean of (for strings
    whose lengths add up to less than [2^53]). *)
Theorem token_similarity_between_0_and_1 (a b : string) :
(Z.of_nat (String.length a + String.length b) < 2 ^ 53)%Z →
(PrimFloat.leb 0 (token_similarity a b) = true
 ∧ PrimFloat.leb (token_similarity a b) 1 = true)
∧ (PrimFloat.leb 0 (token_overlap a b) = true
   ∧ PrimFloat.leb (token_overlap a b) 1 = true)
∧ (PrimFloat.leb 0 (char_sim a b) = true
   ∧ PrimFloat.leb (char_sim a b) 1 = true).
Proof.
intros Hlen. destruct (token_similarity_in_unit a b Hlen) as (Ho & Hc & Hs).
split; [|split]; by apply FloatBound.in_unit_bounds.
Qed.

(** ** A document compared with itself *)

(** An item whose description is a string with a word character. *)
Definition describable (it : pyval) : Prop :=
∃ d s, it = PDict d ∧ dict_get d "description" blank = PStr s
       ∧ has_word_char s = true ∧ (Z.of_nat (String.length s) < 2 ^ 52)%Z.

Lemma describable_item_ok (it : pyval) : describable it → item_ok it.
Proof. intros (d & s & -> & Hs & _). simpl. by exists s. Qed.

Lemma item_score_self (it : pyval) : describable it → item_score it it = Ok 1%float.
Proof.
intros (d & s & -> & Hs & Hw & Hlen). unfold item_score. simpl. rewrite Hs. simpl.
f_equal. unfold token_similarity, char_sim.
rewrite token_overlap_self by (done || lia).
rewrite ratio_self by (by rewrite length_lower). reflexivity.
Qed.

Lemma item_score_le_one (po_it inv_it : pyval) (sc : float) :
describable po_it → describable inv_it → item_score po_it inv_it = Ok sc →
PrimFloat.leb sc 1 = true.
Proof.
intros (d1 & a & -> & Ha & _ & Hla) (d2 & b & -> & Hb & _ & Hlb) Hsc.
apply item_score_Ok in Hsc as (d1' & d2' & a' & b' & [= <-] & [= <-] & Ha' & Hb' & ->).
rewrite Ha in Ha'. rewrite Hb in Hb'. injection Ha' as <-. injection Hb' as <-.
destruct (token_similarity_in_unit a b) as (_ & _ & Hs); [lia|].
by apply FloatBound.in_unit_bounds.
Qed.

(** The search of the [k]-th item among the items themselves, the earlier
    ones being claimed, selects the [k]-th item with the score [1.0]. *)
Lemma best_loop_self (items : list pyval) (k : nat) (it : pyval) (inv_used : gset nat) :
Forall describable items → items !! k = Some it →
(∀ j, j ∈ inv_used ↔ j < k) →
best_loop it inv_used 0 items best0 = Ok (Best (Some it) 1%float (Some k)).
Proof.
intros Hall Hk HU.
assert (describable it) as Hit by (by eapply (proj1 (Forall_lookup _ _) Hall)).
destruct (best_loop_total it inv_used items 0 best0) as [st Hst].
{ by apply describable_item_ok. }
{ eapply Forall_impl; [exact Hall|]. apply describable_item_ok. }
rewrite Hst. f_equal.
destruct (best_loop_from_start _ _ _ _ Hst) as [Hscan Hsel].
destruct (Hscan k it Hk) as (sc_k & Hsc_k & Hnot & Hfirst).
{ simpl. rewrite HU. lia. }
rewrite item_score_self in Hsc_k by done. injection Hsc_k as <-.
destruct Hsel as [->|(i & it' & sc & Hi & Hfree & Hsc & Hpos & ->)]; [done|].
simpl in Hnot, Hfirst.
assert (PrimFloat.leb sc 1 = true) as Hle.
{ eapply (item_score_le_one it it'); [done| |done].
  by eapply (proj1 (Forall_lookup _ _) Hall). }
assert (i = k) as ->.
{ rewrite HU in Hfree. destruct (decide (k < i)) as [Hlt|]; [|lia].
  specialize (Hfirst i eq_refl). simpl in Hfirst. rewrite Hfirst in Hle; [done|lia]. }
assert (it' = it) as -> by congruence.
rewrite item_score_self in Hsc by done. by injection Hsc as <-.
Qed.

Lemma leftover_loop_all_claimed (inv_used : gset nat) (inv_items : list pyval) (idx : nat) :
(∀ j, j < length inv_items → idx + j ∈ inv_used) →
leftover_loop inv_used idx inv_items = Ok [].
Proof.
revert idx. induction inv_items as [|it rest IH]; intros idx Hall; [done|]. simpl.
rewrite bool_decide_eq_true_2.
- apply IH. intros j Hj. replace (S idx + j) with (idx + S j) by lia.
  apply Hall. simpl. lia.
- specialize (Hall 0). rewrite Nat.add_0_r in Hall. apply Hall. simpl. lia.
Qed.

Section SelfComparison.
Variable py_str : pyval → string.
Variable py_round2 : float → float.

(** The row of an item matched with itself. *)
Definition matched_with_itself (it : pyval) : row :=
Row (field it "description") (field it "qty") (field it "unit_price") (field it "total")
    (field it "description") (field it "qty") (field it "unit_price") (field it "total")
    Match (py_round2 1%float).

Definition outcome_with_itself (k : nat) (it : pyval) : po_outcome :=
PoOutcome (Best (Some it) 1%float (Some k)) (Some k) (matched_with_itself it).

Lemma po_loop_self (items done rest : list pyval) (threshold : float) :
Forall describable items → items = done ++ rest →
PrimFloat.leb threshold 1 = true →
po_loop py_str py_round2 items threshold (list_to_set (seq 0 (length done))) rest
= Ok (list_to_set (seq 0 (length items)),
      imap (λ i, outcome_with_itself (length done + i)) rest).
Proof.
intros Hall. revert done. induction rest as [|it rest IH]; intros done Heq Hthr.
- simpl. rewrite Heq, app_nil_r. reflexivity.
- cbn [po_loop].
  assert (items !! length done = Some it) as Hk by (by rewrite Heq, list_lookup_middle).
  assert (describable it) as Hit by (by eapply (proj1 (Forall_lookup _ _) Hall)).
  pose proof Hit as (d & s & -> & Hs & _).
  rewrite (po_step_eval py_str py_round2 items threshold _ d
             (Best (Some (PDict d)) 1%float (Some (length done)))).
  2:{ apply best_loop_self; [done..|]. intros j.
      rewrite elem_of_list_to_set, elem_of_seq. lia. }
  2:{ intros it' [= <-]. by eexists. }
  assert (claim_of (Best (Some (PDict d)) 1 (Some (length done))) threshold
          = Some (length done)) as Hclaim.
  { unfold claim_of. simpl. by rewrite Hthr. }
  rewrite Hclaim. cbn [add_claim].
  assert (list_to_set (seq 0 (length done)) ∪ {[length done]}
          = (list_to_set (seq 0 (length (done ++ [PDict d]))) : gset nat)) as HU.
  { rewrite length_app. simpl. rewrite Nat.add_1_r, seq_S. simpl.
    rewrite list_to_set_app_L. simpl. by rewrite union_empty_r_L. }
  rewrite HU. change (Ok ?x ≫= ?f) with (f x). cbn beta iota.
  rewrite (IH (done ++ [PDict d])) by (by rewrite Heq, <- app_assoc || done).
  change (Ok ?x ≫= ?f) with (f x). cbn beta iota. f_equal. f_equal.
  cbn [imap]. f_equal.
  + unfold outcome_with_itself. rewrite Nat.add_0_r. f_equal.
    unfold expected_row, matched_with_itself. cbn [best_match best_score reported_field].
    f_equal. unfold classify. by rewrite Hthr, String.eqb_refl.
  + apply imap_ext. intros i x _. simpl. rewrite length_app. simpl. f_equal. lia.
Qed.

Lemma out_row_imap_self (f : nat → nat) (items : list pyval) :
map out_row (imap (λ i, outcome_with_itself (f i)) items) = matched_with_itself <$> items.
Proof.
revert f. induction items as [|it items IH]; intros f; [done|].
cbn [imap map fmap list_fmap]. f_equal. apply (IH (f ∘ S)).
Qed.

(** X12. A document compared with itself: when every item has a
    description with a word character and the threshold is at most [1.0],
    every item claims itself with the score [1.0], every row is a [Match]
    that shows the item on both sides, no trailing row is added, and the
    summary counts every row. *)
Theorem identical_documents_all_match (struct : pyval) (threshold : float)
  (items : list pyval) :
document_items struct = Ok items →
Forall describable items →
PrimFloat.leb threshold 1 = true →
reconcile py_str py_round2 struct struct threshold
= Ok (imap outcome_with_itself items, list_to_set (seq 0 (length items)), [])
∧ compare_structures py_str py_round2 struct struct threshold
  = Ok (matched_with_itself <$> items)
∧ total_matches (matched_with_itself <$> items) = length items.
Proof.
intros Hitems Hall Hthr.
assert (reconcile py_str py_round2 struct struct threshold
        = Ok (imap outcome_with_itself items, list_to_set (seq 0 (length items)), []))
  as Hrun.
{ apply reconcile_Ok. exists items, items. split; [done|]. split; [done|]. split.
  - apply (po_loop_self items [] items threshold Hall eq_refl Hthr).
  - apply leftover_loop_all_claimed. intros j Hj.
    rewrite elem_of_list_to_set, elem_of_seq. lia. }
split; [done|]. split.
- unfold compare_structures. rewrite Hrun. change (Ok ?x ≫= ?f) with (f x). cbn beta iota.
  rewrite app_nil_r. f_equal. apply (out_row_imap_self id).
- unfold total_matches. clear. induction items as [|it items IH]; [done|].
  cbn [fmap list_fmap]. rewrite filter_cons_True by done. simpl. by f_equal.
Qed.

End SelfComparison.

(** ** Blank descriptions *)

Lemma token_set_blank : token_set "" = ∅.
Proof. reflexivity. Qed.

Lemma float_div_zero (q : nat) :
1 ≤ q → (Z.of_nat q < 2 ^ 53)%Z → PrimFloat.div 0 (float_of_nat q) = 0%float.
Proof.
intros Hq Hlt. apply Prim2SF_inj. rewrite div_spec.
destruct (FloatArith.float_of_nat_spec q Hq Hlt) as (m & e & -> & _). reflexivity.
Qed.

Lemma string_length_pos (s : string) : s ≠ "" → 1 ≤ String.length s.
Proof. destruct s; [done|]. simpl. lia. Qed.

Lemma token_similarity_blank_l (b : string) :
b ≠ "" → (Z.of_nat (String.length b) < 2 ^ 53)%Z → token_similarity "" b = 0%float.
Proof.
intros Hb Hlen. apply string_length_pos in Hb.
unfold token_similarity, token_overlap, char_sim, ratio, calculate_ratio.
rewrite token_set_blank. pose proof (token_set_size_le b) as Hs.
assert (∅ ∩ token_set b = (∅ : gset string)) as -> by set_solver.
assert (∅ ∪ token_set b = token_set b) as -> by set_solver.
rewrite size_empty.
change (float_of_nat 0) with 0%float. rewrite float_div_zero by lia.
destruct (matches_le (list_ascii_of_string (PyStr.lower ""))
            (list_ascii_of_string (PyStr.lower b))) as [Hm _].
change (length (list_ascii_of_string (PyStr.lower ""))) with 0 in Hm. assert (matches (list_ascii_of_string (PyStr.lower ""))
                       (list_ascii_of_string (PyStr.lower b)) = 0) as -> by lia.
rewrite !length_list_ascii_of_string, !length_lower. change (String.length "") with 0.
destruct (Nat.eqb_spec (0 + String.length b) 0) as [|_]; [lia|].
change (PrimFloat.mul 2 (float_of_nat 0)) with 0%float.
rewrite float_div_zero by lia. reflexivity.
Qed.

Lemma token_similarity_blank_r (a : string) :
a ≠ "" → (Z.of_nat (String.length a) < 2 ^ 53)%Z → token_similarity a "" = 0%float.
Proof.
intros Ha Hlen. apply string_length_pos in Ha.
unfold token_similarity, token_overlap, char_sim, ratio, calculate_ratio.
rewrite token_set_blank. pose proof (token_set_size_le a) as Hs.
assert (token_set a ∩ ∅ = (∅ : gset string)) as -> by set_solver.
assert (token_set a ∪ ∅ = token_set a) as -> by set_solver.
rewrite size_empty.
change (float_of_nat 0) with 0%float. rewrite float_div_zero by lia.
destruct (matches_le (list_ascii_of_string (PyStr.lower a))
            (list_ascii_of_string (PyStr.lower ""))) as [_ Hm].
change (length (list_ascii_of_string (PyStr.lower ""))) with 0 in Hm. assert (matches (list_ascii_of_string (PyStr.lower a))
                       (list_ascii_of_string (PyStr.lower "")) = 0) as -> by lia.
rewrite !length_list_ascii_of_string, !length_lower. change (String.length "") with 0.
destruct (Nat.eqb_spec (String.length a + 0) 0) as [|_]; [lia|].
change (PrimFloat.mul 2 (float_of_nat 0)) with 0%float.
rewrite float_div_zero by lia. reflexivity.
Qed.

(** X13. A blank description scores [0.0] against every description that
    is not blank, on either side. *)
Theorem blank_description_scores_zero (s : string) :
s ≠ "" → (Z.of_nat (String.length s) < 2 ^ 53)%Z →
token_similarity "" s = 0%float ∧ token_similarity s "" = 0%float.
Proof.
intros Hs Hlen. split.
- by apply token_similarity_blank_l.
- by apply token_similarity_blank_r.
Qed.

(** An item with a description that is a string and not blank. *)
Definition described (it : pyval) : Prop :=
∃ s, field it "description" = PStr s ∧ s ≠ ""
     ∧ (Z.of_nat (String.length s) < 2 ^ 53)%Z.

Lemma item_score_blank_l (po_it inv_it : pyval) (sc : float) :
field po_it "description" = blank → described inv_it →
item_score po_it inv_it = Ok sc → sc = 0%float.
Proof.
intros Hpo (s & Hs & Hne & Hlen) Hsc.
apply item_score_Ok in Hsc as (d1 & d2 & a & b & -> & -> & Ha & Hb & ->).
simpl in Hpo, Hs. rewrite Hpo in Ha. rewrite Hs in Hb.
injection Ha as <-. injection Hb as <-. by apply token_similarity_blank_l.
Qed.

Lemma item_score_blank_r (po_it inv_it : pyval) (sc : float) :
described po_it → field inv_it "description" = blank →
item_score po_it inv_it = Ok sc → sc = 0%float.
Proof.
intros (s & Hs & Hne & Hlen) Hinv Hsc.
apply item_score_Ok in Hsc as (d1 & d2 & a & b & -> & -> & Ha & Hb & ->).
simpl in Hinv, Hs. rewrite Hinv in Hb. rewrite Hs in Ha.
injection Ha as <-. injection Hb as <-. by apply token_similarity_blank_r.
Qed.

Section BlankDescriptions.
Variable py_str : pyval → string.
Variable py_round2 : float → float.

(** X14. A purchase-order item whose description is missing or empty
    selects no invoice item when every invoice item has a description that
    is not blank: its row claims nothing, shows blank invoice fields and,
    with a threshold above [0.0], is a [Mismatch]. *)
Theorem po_item_without_description_unmatched (po_struct inv_struct : pyval)
  (threshold : float) (outcomes : list po_outcome) (inv_used : gset nat)
  (leftovers : list row) (po_items inv_items : list pyval) (k : nat)
  (po_it : pyval) (o : po_outcome) :
reconcile py_str py_round2 po_struct inv_struct threshold
= Ok (outcomes, inv_used, leftovers) →
document_items po_struct = Ok po_items →
document_items inv_struct = Ok inv_items →
po_items !! k = Some po_it → outcomes !! k = Some o →
field po_it "description" = blank →
Forall described inv_items →
out_best o = best0 ∧ out_claim o = None
∧ invoice_item (out_row o) = blank ∧ invoice_qty (out_row o) = blank
∧ invoice_price (out_row o) = blank ∧ invoice_total (out_row o) = blank
∧ (PrimFloat.ltb 0 threshold = true → status (out_row o) = Mismatch).
Proof.
intros Hrun Hp Hi Hk Ho Hblank Hall.
pose proof Hrun as (po_items' & inv_items' & Hp' & Hi' & _ & _ & _ & Hpass)%reconcile_passes.
assert (po_items' = po_items) as -> by congruence.
assert (inv_items' = inv_items) as -> by congruence.
destruct (Hpass k po_it Hk) as (o' & Ho' & Hb & Hc & _ & Hr).
assert (o' = o) as -> by congruence.
apply best_loop_from_start in Hb as [_ Hsel].
assert (out_best o = best0) as Hbest.
{ destruct Hsel as [?|(i & it & sc & Hi0 & _ & Hsc & Hpos & _)]; [done|].
  apply (item_score_blank_l po_it it sc Hblank) in Hsc.
  - by rewrite Hsc in Hpos.
  - by eapply (proj1 (Forall_lookup _ _) Hall). }
rewrite Hr, Hc, Hbest. repeat split; try done.
intros Hpos. cbn [expected_row status best0 best_score best_match reported_field].
unfold classify. by rewrite (FloatOrder.ltb_not_leb _ _ Hpos).
Qed.

(** X15. An invoice item whose description is missing or empty is selected
    by no purchase-order item when every purchase-order item has a
    description that is not blank: no row reports or claims it, and it ends
    in a trailing row. *)
Theorem invoice_item_without_description_unmatched (po_struct inv_struct : pyval)
  (threshold : float) (outcomes : list po_outcome) (inv_used : gset nat)
  (leftovers : list row) (po_items inv_items : list pyval) (i : nat) (inv_it : pyval) :
reconcile py_str py_round2 po_struct inv_struct threshold
= Ok (outcomes, inv_used, leftovers) →
document_items po_struct = Ok po_items →
document_items inv_struct = Ok inv_items →
inv_items !! i = Some inv_it →
field inv_it "description" = blank →
Forall described po_items →
(∀ k o, outcomes !! k = Some o →
   best_idx (out_best o) ≠ Some i ∧ out_claim o ≠ Some i)
∧ (i ∉ inv_used)
∧ trailing_row inv_it ∈ leftovers.
Proof.
intros Hrun Hp Hi Hit Hblank Hall.
pose proof Hrun
  as (po_items' & inv_items' & Hp' & Hi' & Hlen & HU & Hlo & Hpass)%reconcile_passes.
assert (po_items' = po_items) as -> by congruence.
assert (inv_items' = inv_items) as -> by congruence.
assert (∀ k o, outcomes !! k = Some o → best_idx (out_best o) ≠ Some i) as Hnever.
{ intros k o Ho Hidx.
  assert (is_Some (po_items !! k)) as [po_it Hk].
  { apply lookup_lt_is_Some. rewrite <- Hlen. by eapply lookup_lt_Some. }
  destruct (Hpass k po_it Hk) as (o' & Ho' & Hb & _).
  assert (o' = o) as -> by congruence.
  apply best_loop_from_start in Hb as [_ Hsel].
  destruct Hsel as [Heq|(j & it & sc & Hj & _ & Hsc & Hpos & Heq)]; rewrite Heq in Hidx;
    [done|]. simpl in Hidx. injection Hidx as ->.
  assert (it = inv_it) as -> by congruence.
  apply (item_score_blank_r po_it inv_it sc) in Hsc; [|by eapply (proj1 (Forall_lookup _ _) Hall)|done].
  by rewrite Hsc in Hpos. }
assert (∀ k o, outcomes !! k = Some o → out_claim o ≠ Some i) as Hunclaimed.
{ intros k o Ho Hc.
  destruct (reconcile_pass_of_outcome _ _ _ _ _ _ Hlen Hpass k o Ho) as [po_it Hpo].
  destruct (pass_claim_fresh _ _ _ _ _ _ _ _ _ Hpo Hc) as (_ & _ & Hidx & _).
  by apply (Hnever k o Ho). }
assert (i ∉ inv_used) as Hfree.
{ rewrite HU, elem_of_list_to_set. unfold claims. intros Hin.
  apply list_elem_of_omap in Hin as (o & Ho & Hc).
  apply list_elem_of_lookup in Ho as [k Ho]. by apply (Hunclaimed k o Ho). }
split; [|split; [done|]].
- intros k o Ho. split; [by apply (Hnever k o)|by apply (Hunclaimed k o)].
- rewrite Hlo. apply list_elem_of_fmap. exists inv_it. split; [done|].
  apply unclaimed_from_elem. by exists i.
Qed.

End BlankDescriptions.

(** ** Letter case *)

Lemma char_lower_idem (c : ascii) : PyStr.char_lower (PyStr.char_lower c) = PyStr.char_lower c.
Proof. destruct c as [[] [] [] [] [] [] [] []]; reflexivity. Qed.

Lemma lower_idem (s : string) : PyStr.lower (PyStr.lower s) = PyStr.lower s.
Proof. induction s as [|c s IH]; simpl; [done|]. by rewrite char_lower_idem, IH. Qed.

Lemma token_similarity_lower_eq (a a' b b' : string) :
PyStr.lower a = PyStr.lower a' → PyStr.lower b = PyStr.lower b' →
token_similarity a b = token_similarity a' b'.
Proof.
intros Ha Hb. unfold token_similarity, token_overlap, token_set, char_sim.
by rewrite Ha, Hb.
Qed.

(** X16. The score ignores letter case: two pairs of strings that are the
    same after [lower()] score the same, lowering either string changes
    nothing, and two descriptions that differ in case only score [1.0]
    when they have a word character. *)
Theorem token_similarity_ignores_case (a b : string) :
PyStr.lower a = PyStr.lower b →
has_word_char a = true → (Z.of_nat (String.length a) < 2 ^ 52)%Z →
token_similarity a b = 1%float
∧ token_similarity b a = 1%float
∧ ∀ c, token_similarity a c = token_similarity b c
       ∧ token_similarity c a = token_similarity c b
       ∧ token_similarity (PyStr.lower a) c = token_similarity a c
       ∧ token_similarity c (PyStr.lower a) = token_similarity c a.
Proof.
intros Hab Hw Hlen.
assert (token_similarity a a = 1%float) as Hself.
{ unfold token_similarity, char_sim.
  rewrite token_overlap_self by (done || lia).
  rewrite ratio_self by (by rewrite length_lower). reflexivity. }
split; [|split].
- by rewrite <- (token_similarity_lower_eq a a a b).
- by rewrite <- (token_similarity_lower_eq a b a a).
- intros c. repeat split; apply token_similarity_lower_eq;
    by rewrite ?lower_idem.
Qed.

(** ** The thresholds of the slider *)

(** X17. Every threshold the slider can pass (an integer from 50 to 95
    divided by [100.0]) is above [0.0], at least [0.5] and below [1.0], and
    a higher setting gives a higher threshold. *)
Theorem slider_threshold_range (percent : nat) :
50 ≤ percent ≤ 95 →
PrimFloat.ltb 0 (slider_threshold percent) = true
∧ PrimFloat.leb 0.5 (slider_threshold percent) = true
∧ PrimFloat.ltb (slider_threshold percent) 1 = true
∧ ∀ higher, percent < higher ≤ 95 →
    PrimFloat.ltb (slider_threshold percent) (slider_threshold higher) = true.
Proof.
intros Hp.
assert (forallb (λ p, PrimFloat.ltb 0 (slider_threshold p)
                      && PrimFloat.leb 0.5 (slider_threshold p)
                      && PrimFloat.ltb (slider_threshold p) 1
                      && PrimFloat.ltb (slider_threshold p) (slider_threshold (S p)))
          (seq 50 46) = true) as Hall by (vm_compute; reflexivity).
rewrite forallb_forall in Hall.
assert (∀ p, 50 ≤ p ≤ 95 →
          PrimFloat.ltb (slider_threshold p) (slider_threshold (S p)) = true) as Hstep.
{ intros p Hr. specialize (Hall p). rewrite !andb_true_iff in Hall.
  apply Hall. apply in_seq. lia. }
specialize (Hall percent). rewrite !andb_true_iff in Hall.
destruct Hall as [[[H0 H1] H2] _]; [apply in_seq; lia|].
repeat split; try done.
intros higher Hh. destruct Hh as [Hlo Hhi].
induction higher as [|h IH]; [lia|].
destruct (decide (percent = h)) as [->|Hne]; [apply Hstep; lia|].
eapply FloatOrder.ltb_trans; [apply IH; lia|apply Hstep; lia].
Qed.

(** ** A document compared with nothing *)

Lemma document_items_None : document_items PNone = Ok [].
Proof. reflexivity. Qed.

Section EmptySide.
Variable py_str : pyval → string.
Variable py_round2 : float → float.

Lemma compare_with_empty_invoice (po_struct inv_struct : pyval) (threshold : float)
  (rows : list row) :
document_items inv_struct = Ok [] →
PrimFloat.ltb 0 threshold = true →
compare_structures py_str py_round2 po_struct inv_struct threshold = Ok rows →
∃ po_items, document_items po_struct = Ok po_items
            ∧ rows = unmatched_po_row py_round2 <$> po_items.
Proof.
intros Hinv Hpos (outs & U & lefts & Hrun & ->)%compare_structures_Ok.
pose proof Hrun as (po_items & inv_items & Hp & Hi & Hlen & HU & Hlo & Hpass)%reconcile_passes.
assert (inv_items = []) as -> by congruence.
exists po_items. split; [done|]. rewrite Hlo. simpl. rewrite app_nil_r.
apply list_eq. intros k. rewrite !list_lookup_fmap.
destruct (po_items !! k) as [po_it|] eqn:Hk; simpl.
- destruct (Hpass k po_it Hk) as (o & -> & Hb & _ & _ & Hr). simpl. f_equal.
  simpl in Hb. injection Hb as Hb. rewrite Hr, <- Hb.
  unfold expected_row, unmatched_po_row, classify. simpl.
  by rewrite (FloatOrder.ltb_not_leb _ _ Hpos).
- apply lookup_ge_None in Hk. rewrite <- Hlen in Hk.
  apply lookup_ge_None in Hk. by rewrite Hk.
Qed.

Lemma compare_with_empty_po (po_struct inv_struct : pyval) (threshold : float)
  (rows : list row) :
document_items po_struct = Ok [] →
compare_structures py_str py_round2 po_struct inv_struct threshold = Ok rows →
∃ inv_items, document_items inv_struct = Ok inv_items
             ∧ rows = trailing_row <$> inv_items.
Proof.
intros Hpo (outs & U & lefts & Hrun & ->)%compare_structures_Ok.
pose proof Hrun as (po_items & inv_items & Hp & Hi & Hlen & HU & Hlo & Hpass)%reconcile_passes.
assert (po_items = []) as -> by congruence.
destruct outs as [|o outs]; [|done].
exists inv_items. split; [done|]. rewrite Hlo, HU. simpl.
f_equal. unfold unclaimed. clear. generalize 0.
induction inv_items as [|it rest IH]; intros n; [done|]. simpl.
rewrite bool_decide_eq_false_2 by set_solver. f_equal. apply IH.
Qed.

Lemma total_matches_unmatched (items : list pyval) :
total_matches (unmatched_po_row py_round2 <$> items) = 0.
Proof.
unfold total_matches. induction items as [|it items IH]; [done|].
cbn [fmap list_fmap]. by rewrite filter_cons_False.
Qed.

(** X18. A document compared with a document without items, under a
    threshold above [0.0]: a purchase order gets one [Mismatch] row per
    item, with blank invoice fields; an invoice gets one trailing row per
    item; and the summary counts no match. *)
Theorem compared_with_nothing (struct empty : pyval) (threshold : float) :
document_items empty = Ok [] →
PrimFloat.ltb 0 threshold = true →
(∀ rows, compare_structures py_str py_round2 struct empty threshold = Ok rows →
   ∃ items, document_items struct = Ok items
            ∧ rows = unmatched_po_row py_round2 <$> items
            ∧ total_matches rows = 0)
∧ (∀ rows, compare_structures py_str py_round2 empty struct threshold = Ok rows →
     ∃ items, document_items struct = Ok items
              ∧ rows = trailing_row <$> items
              ∧ total_matches rows = 0).
Proof.
intros Hempty Hpos. split; intros rows Hrows.
- destruct (compare_with_empty_invoice _ _ _ _ Hempty Hpos Hrows) as (items & Hi & ->).
  exists items. by rewrite total_matches_unmatched.
- destruct (compare_with_empty_po _ _ _ _ Hempty Hrows) as (items & Hi & ->).
  exists items. by rewrite total_matches_trailing.
Qed.

End EmptySide.

(** ** The pairs of a batch *)


Lemma zip_longest_lookup {T : Type} (fill : T) (xs ys : list T) (k : nat) :
k < length xs `max` length ys →
zip_longest fill xs ys !! k = Some (default fill (xs !! k), default fill (ys !! k)).
Proof.
revert ys k. induction xs as [|x xs IH]; intros ys k Hk; simpl in *.
- rewrite list_lookup_fmap. destruct (ys !! k) as [y|] eqn:Hy; [done|].
  apply lookup_ge_None in Hy. lia.
- destruct ys as [|y ys]; simpl in *.
  + destruct k as [|k]; [done|]. simpl. rewrite list_lookup_fmap.
    destruct (xs !! k) as [x'|] eqn:Hx; [done|]. apply lookup_ge_None in Hx. lia.
  + destruct k as [|k]; [done|]. simpl. apply IH. lia.
Qed.

Section Batch.
Variable py_str : pyval → string.
Variable py_round2 : float → float.
Variable shows : list row → bool.
Context {file : Type}.
Variable extract_po : file → doc_entry.
Variable extract_inv : file → doc_entry.
Variable threshold : float.

(** The pair neither raises in [compare_structures] nor in the display. *)
Definition completes (p : doc_entry * doc_entry) : Prop :=
is_Some (pair_result py_str py_round2 shows threshold p.1 p.2).

Lemma run_pairs_reached (pairs : list (doc_entry * doc_entry)) (k : nat)
  (po inv : doc_entry) :
pairs !! k = Some (po, inv) → Forall completes (take k pairs) →
(run_pairs py_str py_round2 shows threshold pairs).1 !! (2 * k)
= Some (Header (shown_name (entry_name po)) (shown_name (entry_name inv)))
∧ (run_pairs py_str py_round2 shows threshold pairs).1 !! (2 * k + 1)
  = pair_result py_str py_round2 shows threshold po inv.
Proof.
revert k. induction pairs as [|[po0 inv0] rest IH]; intros k Hk Hall; [done|].
destruct k as [|k].
- simpl in Hk. injection Hk as -> ->. cbn [run_pairs].
  destruct (pair_result py_str py_round2 shows threshold po inv) as [ev|]; [|done].
  by destruct (run_pairs py_str py_round2 shows threshold rest).
- simpl in Hk. change (take (S k) ((po0, inv0) :: rest)) with ((po0, inv0) :: take k rest)
    in Hall.
  apply Forall_cons in Hall as [[ev Hev] Hall]. simpl in Hev.
  destruct (IH k Hk Hall) as [H0 H1]. cbn [run_pairs]. rewrite Hev.
  destruct (run_pairs py_str py_round2 shows threshold rest) as [evs e].
  replace (2 * S k) with (S (S (2 * k))) by lia.
  replace (S (S (2 * k)) + 1) with (S (S (2 * k + 1))) by lia. done.
Qed.


Lemma run_pairs_end (pairs : list (doc_entry * doc_entry)) :
(run_pairs py_str py_round2 shows threshold pairs).2 = Finished ↔ Forall completes pairs.
Proof.
induction pairs as [|[po0 inv0] rest IH]; [by split; [constructor|]|].
cbn [run_pairs]. rewrite Forall_cons. unfold completes at 1. simpl.
destruct (pair_result py_str py_round2 shows threshold po0 inv0) as [ev|].
- destruct (run_pairs py_str py_round2 shows threshold rest) as [evs e]. simpl in *.
  rewrite IH. split; [by split; [eexists|]|by intros [_ ?]].
- simpl. split; [done|]. by intros [[? ?] _].
Qed.

Lemma run_batch_pairs (po_files inv_files : list file) :
po_files ≠ [] → inv_files ≠ [] →
run_batch py_str py_round2 shows extract_po extract_inv threshold po_files inv_files
= run_pairs py_str py_round2 shows threshold
    (batch_pairs extract_po extract_inv po_files inv_files).
Proof. by destruct po_files, inv_files. Qed.

Lemma batch_pairs_lookup (po_files inv_files : list file) (k : nat) :
k < length po_files `max` length inv_files →
batch_pairs extract_po extract_inv po_files inv_files !! k
= Some (default no_entry (extract_po <$> po_files !! k),
        default no_entry (extract_inv <$> inv_files !! k)).
Proof.
intros Hk. unfold batch_pairs. rewrite zip_longest_lookup by (by rewrite !length_fmap).
by rewrite !list_lookup_fmap.
Qed.


(** X20. A document without a partner is compared with nothing: when both
    uploads hold a file and one holds more, a surplus document that the loop
    reaches and that has no error message is shown against ["N/A"], and under
    a threshold above [0.0] the comparison shown, if one is shown, reports
    every item of the document as a [Mismatch] and counts no match; if none
    is shown, the pair raised and the loop ended there. *)
Theorem surplus_document_all_mismatch (po_files inv_files : list file) (k : nat)
  (f : file) (events : list batch_event) (ending : batch_end) :
run_batch py_str py_round2 shows extract_po extract_inv threshold po_files inv_files
= (events, ending) →
po_files ≠ [] → inv_files ≠ [] →
Forall completes (take k (batch_pairs extract_po extract_inv po_files inv_files)) →
PrimFloat.ltb 0 threshold = true →
(po_files !! k = Some f → length inv_files ≤ k →
 shown_error (entry_err (extract_po f)) = None →
   events !! (2 * k) = Some (Header (shown_name (entry_name (extract_po f))) "N/A")
   ∧ (∀ ev, events !! (2 * k + 1) = Some ev →
        ∃ items, document_items (entry_struct (extract_po f)) = Ok items
                 ∧ ev = Compared (unmatched_po_row py_round2 <$> items)
                 ∧ total_matches (unmatched_po_row py_round2 <$> items) = 0)
   ∧ (events !! (2 * k + 1) = None → ending = Aborted))
∧ (inv_files !! k = Some f → length po_files ≤ k →
   shown_error (entry_err (extract_inv f)) = None →
     events !! (2 * k) = Some (Header "N/A" (shown_name (entry_name (extract_inv f))))
     ∧ (∀ ev, events !! (2 * k + 1) = Some ev →
          ∃ items, document_items (entry_struct (extract_inv f)) = Ok items
                   ∧ ev = Compared (trailing_row <$> items)
                   ∧ total_matches (trailing_row <$> items) = 0)
     ∧ (events !! (2 * k + 1) = None → ending = Aborted)).
Proof.
intros Hrun Hpo Hinv Hall Hpos. rewrite run_batch_pairs in Hrun by done.
assert (events = (run_pairs py_str py_round2 shows threshold
                    (batch_pairs extract_po extract_inv po_files inv_files)).1) as ->
  by (by rewrite Hrun).
assert (ending = (run_pairs py_str py_round2 shows threshold
                    (batch_pairs extract_po extract_inv po_files inv_files)).2) as ->
  by (by rewrite Hrun).
assert (∀ po inv,
          batch_pairs extract_po extract_inv po_files inv_files !! k = Some (po, inv) →
          pair_result py_str py_round2 shows threshold po inv = None →
          (run_pairs py_str py_round2 shows threshold
             (batch_pairs extract_po extract_inv po_files inv_files)).2 = Aborted)
  as Habort.
{ intros po inv Hk Hnone.
  destruct (run_pairs py_str py_round2 shows threshold _).2 eqn:He; [|done].
  apply run_pairs_end in He.
  pose proof (proj1 (Forall_lookup _ _) He k (po, inv) Hk) as [ev Hev].
  simpl in Hev. congruence. }
split; intros Hf Hge Herr.
- assert (batch_pairs extract_po extract_inv po_files inv_files !! k
          = Some (extract_po f, no_entry)) as Hk.
  { rewrite batch_pairs_lookup by (apply lookup_lt_Some in Hf; lia).
    rewrite Hf. apply lookup_ge_None in Hge. by rewrite Hge. }
  destruct (run_pairs_reached _ _ _ _ Hk Hall) as [H0 H1].
  split; [exact H0|]. rewrite H1. split.
  + intros ev Hev. unfold pair_result in Hev. rewrite Herr in Hev.
    cbn [no_entry entry_err shown_error entry_struct] in Hev.
    destruct (compare_structures _ _ _ _ _) as [rows|e] eqn:Hrows; [|done].
    destruct (shows rows); [|done]. injection Hev as <-.
    destruct (compare_with_empty_invoice py_str py_round2 _ _ _ _
                document_items_None Hpos Hrows) as (items & Hi & ->).
    exists items. split; [done|]. split; [done|]. apply total_matches_unmatched.
  + intros Hnone. by apply (Habort _ _ Hk).
- assert (batch_pairs extract_po extract_inv po_files inv_files !! k
          = Some (no_entry, extract_inv f)) as Hk.
  { rewrite batch_pairs_lookup by (apply lookup_lt_Some in Hf; lia).
    rewrite Hf. apply lookup_ge_None in Hge. by rewrite Hge. }
  destruct (run_pairs_reached _ _ _ _ Hk Hall) as [H0 H1].
  split; [exact H0|]. rewrite H1. split.
  + intros ev Hev. unfold pair_result in Hev.
    cbn [no_entry entry_err shown_error entry_struct] in Hev. rewrite Herr in Hev.
    destruct (compare_structures _ _ _ _ _) as [rows|e] eqn:Hrows; [|done].
    destruct (shows rows); [|done]. injection Hev as <-.
    destruct (compare_with_empty_po py_str py_round2 _ _ _ _
                document_items_None Hrows) as (items & Hi & ->).
    exists items. split; [done|]. split; [done|]. apply total_matches_trailing.
  + intros Hnone. by apply (Habort _ _ Hk).
Qed.

End Batch.

(** ** The text handed to [json.loads] *)

Lemma lstrip_middle (p : list ascii) (c : ascii) (r : list ascii) :
is_space c = false → lstrip (p ++ c :: r) = lstrip p ++ c :: r.
Proof.
intros Hc. induction p as [|x p IH]; simpl; [by rewrite Hc|].
by destruct (is_space x).
Qed.

Lemma rstrip_middle (m : list ascii) (c : ascii) (r : list ascii) :
is_space c = false → rstrip (m ++ c :: r) = m ++ c :: rstrip r.
Proof.
intros Hc. unfold rstrip. rewrite rev_app_distr. simpl. rewrite <- app_assoc. simpl.
rewrite lstrip_middle by done. rewrite rev_app_distr. simpl.
by rewrite rev_involutive, <- app_assoc.
Qed.

Lemma lstrip_elem (x : ascii) (s : list ascii) : x ∈ lstrip s → x ∈ s.
Proof.
induction s as [|c s IH]; simpl; [done|].
destruct (is_space c); [|done]. intros Hx. apply elem_of_cons. right. by apply IH.
Qed.

Lemma rstrip_elem (x : ascii) (s : list ascii) : x ∈ rstrip s → x ∈ s.
Proof.
unfold rstrip. rewrite list_elem_of_In, <- in_rev, <- list_elem_of_In.
intros Hx%lstrip_elem. by rewrite list_elem_of_In, <- in_rev, <- list_elem_of_In in Hx.
Qed.

Lemma lstrip_head (s : list ascii) (c : ascii) (t : list ascii) :
lstrip s = c :: t → is_space c = false.
Proof.
induction s as [|x s IH]; simpl; [done|].
destruct (is_space x) eqn:Hx; [done|]. by intros [= <- _].
Qed.

Lemma lstrip_idem (s : list ascii) : lstrip (lstrip s) = lstrip s.
Proof.
destruct (lstrip s) as [|c t] eqn:Hs; [done|].
simpl. by rewrite (lstrip_head s c t Hs).
Qed.

Lemma strip_idem (s : list ascii) : strip (strip s) = strip s.
Proof.
unfold strip. destruct (lstrip s) as [|c t] eqn:Hs; [done|].
pose proof (lstrip_head s c t Hs) as Hc.
pose proof (rstrip_middle [] c t Hc) as H1. simpl in H1. rewrite H1.
simpl. rewrite Hc.
pose proof (rstrip_middle [] c (rstrip t) Hc) as H2. simpl in H2. rewrite H2. f_equal.
unfold rstrip. by rewrite rev_involutive, lstrip_idem.
Qed.

Lemma open_not_space : is_space "{" = false.
Proof. reflexivity. Qed.

Lemma close_not_space : is_space "}" = false.
Proof. reflexivity. Qed.

Lemma from_first_open_app (p r : list ascii) :
"{"%char ∉ p → from_first_open (p ++ "{"%char :: r) = Some ("{"%char :: r).
Proof.
intros Hp. induction p as [|x p IH]; simpl; [done|].
apply not_elem_of_cons in Hp as [Hx Hp].
destruct (Ascii.eqb_spec x "{"); [congruence|]. by apply IH.
Qed.

Lemma from_first_open_None (s : list ascii) :
"{"%char ∉ s → from_first_open s = None.
Proof.
intros Hs. induction s as [|x s IH]; simpl; [done|].
apply not_elem_of_cons in Hs as [Hx Hs].
destruct (Ascii.eqb_spec x "{"); [congruence|]. by apply IH.
Qed.

Lemma from_first_open_Some (s t : list ascii) :
from_first_open s = Some t →
∃ p r, s = p ++ "{"%char :: r ∧ t = "{"%char :: r ∧ ("{"%char ∉ p).
Proof.
induction s as [|x s IH]; simpl; [done|].
destruct (Ascii.eqb_spec x "{") as [->|Hne].
- intros [= <-]. exists [], s. split; [done|]. split; [done|]. apply not_elem_of_nil.
- intros (p & r & -> & -> & Hp)%IH. exists (x :: p), r.
  split; [done|]. split; [done|]. apply not_elem_of_cons. by split.
Qed.

Lemma through_last_close_None (s : list ascii) :
"}"%char ∉ s → through_last_close s = None.
Proof.
intros Hs. induction s as [|x s IH]; simpl; [done|].
apply not_elem_of_cons in Hs as [Hx Hs]. rewrite IH by done.
destruct (Ascii.eqb_spec x "}"); [congruence|done].
Qed.

Lemma through_last_close_app (m r : list ascii) :
"}"%char ∉ r → through_last_close (m ++ "}"%char :: r) = Some (m ++ ["}"%char]).
Proof.
intros Hr. induction m as [|x m IH]; simpl.
- by rewrite through_last_close_None.
- by rewrite IH.
Qed.

Lemma through_last_close_Some (s t : list ascii) :
through_last_close s = Some t →
∃ m r, s = m ++ "}"%char :: r ∧ t = m ++ ["}"%char] ∧ ("}"%char ∉ r).
Proof.
revert t. induction s as [|x s IH]; intros t; simpl; [done|].
destruct (through_last_close s) as [t'|] eqn:Hs.
- intros [= <-]. destruct (IH t' eq_refl) as (m & r & -> & -> & Hr).
  by exists (x :: m), r.
- destruct (Ascii.eqb_spec x "}") as [->|Hne]; [|done].
  intros [= <-]. exists [], s. split; [done|]. split; [done|].
  intros Hin. clear IH. induction s as [|y s IH]; [by apply elem_of_nil in Hin|].
  simpl in Hs. destruct (through_last_close s) eqn:Hs'; [done|].
  destruct (Ascii.eqb_spec y "}") as [->|Hy]; [done|].
  apply elem_of_cons in Hin as [Hin|Hin]; [congruence|]. by apply IH.
Qed.

Lemma search_braces_span (pre mid post : list ascii) :
"{"%char ∉ pre → "}"%char ∉ post →
search_braces (pre ++ "{"%char :: mid ++ "}"%char :: post)
= Some ("{"%char :: mid ++ ["}"%char]).
Proof.
intros Hpre Hpost. unfold search_braces.
rewrite from_first_open_app by done. by rewrite through_last_close_app.
Qed.

Lemma search_braces_Some (raw m : list ascii) :
search_braces raw = Some m →
∃ pre mid post, raw = pre ++ "{"%char :: mid ++ "}"%char :: post
                ∧ m = "{"%char :: mid ++ ["}"%char]
                ∧ ("{"%char ∉ pre) ∧ ("}"%char ∉ post).
Proof.
unfold search_braces. destruct (from_first_open raw) as [t|] eqn:Ht; [|done].
apply from_first_open_Some in Ht as (pre & rest & -> & -> & Hpre).
destruct (through_last_close rest) as [t|] eqn:Hr; [|done].
apply through_last_close_Some in Hr as (mid & post & -> & -> & Hpost).
intros [= <-]. by exists pre, mid, post.
Qed.

Lemma strip_span (pre mid post : list ascii) :
strip (pre ++ "{"%char :: mid ++ "}"%char :: post)
= lstrip pre ++ "{"%char :: mid ++ "}"%char :: rstrip post.
Proof.
unfold strip. rewrite lstrip_middle by apply open_not_space.
rewrite rstrip_middle by apply open_not_space.
by rewrite rstrip_middle by apply close_not_space.
Qed.

Lemma list_ascii_of_string_app (s t : string) :
list_ascii_of_string (s +:+ t) = list_ascii_of_string s ++ list_ascii_of_string t.
Proof. induction s as [|c s IH]; simpl; [done|]. by rewrite IH. Qed.

Lemma string_of_list_ascii_app (s t : list ascii) :
string_of_list_ascii (s ++ t) = string_of_list_ascii s +:+ string_of_list_ascii t.
Proof. induction s as [|c s IH]; simpl; [done|]. by rewrite IH. Qed.

(** X21. When the reply holds a ["{"] and, after the first one, a ["}"],
    the text handed to [json.loads] is the span from the first ["{"] to the
    last ["}"]: whatever precedes the first ["{"] and follows the last ["}"]
    (a code fence, prose, white space) is dropped, and everything between
    them is kept, further braces included. *)
Theorem json_text_spans_first_open_to_last_close (pre mid post : string) :
"{"%char ∉ list_ascii_of_string pre → "}"%char ∉ list_ascii_of_string post →
json_text (pre +:+ "{" +:+ mid +:+ "}" +:+ post) = "{" +:+ mid +:+ "}".
Proof.
intros Hpre Hpost. unfold json_text.
assert (list_ascii_of_string (pre +:+ "{" +:+ mid +:+ "}" +:+ post)
        = list_ascii_of_string pre
          ++ "{"%char :: list_ascii_of_string mid ++ "}"%char :: list_ascii_of_string post)
  as -> by (by rewrite !list_ascii_of_string_app).
rewrite strip_span.
rewrite search_braces_span.
- simpl default. simpl. f_equal. rewrite string_of_list_ascii_app.
  by rewrite string_of_list_ascii_of_string.
- intros Hin. by apply lstrip_elem in Hin.
- intros Hin. by apply rstrip_elem in Hin.
Qed.

(** X22. The text handed to [json.loads] either starts with ["{"] and
    ends with ["}"], or is the whole reply without its leading and trailing
    white space, which then holds no ["{"] followed by a ["}"]; and
    extracting it again changes nothing. *)
Theorem json_text_idempotent (text : string) :
json_text (json_text text) = json_text text
∧ ((∃ mid, json_text text = "{" +:+ mid +:+ "}")
   ∨ (json_text text = string_of_list_ascii (strip (list_ascii_of_string text))
      ∧ search_braces (strip (list_ascii_of_string text)) = None)).
Proof.
set (raw := strip (list_ascii_of_string text)).
assert (json_text text = string_of_list_ascii (default raw (search_braces raw))) as Heq
  by reflexivity.
rewrite !Heq. clear Heq. subst raw.
destruct (search_braces (strip (list_ascii_of_string text))) as [m|] eqn:Hm.
- apply search_braces_Some in Hm as (pre & mid & post & _ & -> & _ & _).
  simpl default. split.
  + unfold json_text. rewrite list_ascii_of_string_of_list_ascii.
    pose proof (strip_span [] mid []) as Hs. simpl in Hs.
    change (rstrip []) with (@nil ascii) in Hs. rewrite Hs.
    pose proof (search_braces_span [] mid []) as Hb. simpl in Hb.
    rewrite Hb by apply not_elem_of_nil. done.
  + left. exists (string_of_list_ascii mid). simpl. f_equal.
    by rewrite string_of_list_ascii_app.
- simpl default. split; [|by right].
  unfold json_text. rewrite list_ascii_of_string_of_list_ascii, strip_idem.
  by rewrite Hm.
Qed.

(** ** The text of a PDF *)

Lemma lstrip_nil_iff (s : list ascii) : lstrip s = [] ↔ forallb is_space s = true.
Proof.
induction s as [|c s IH]; simpl; [done|].
destruct (is_space c); simpl; [done|]. split; discriminate.
Qed.

Lemma forallb_rev (f : ascii → bool) (s : list ascii) : forallb f (rev s) = forallb f s.
Proof.
induction s as [|c s IH]; simpl; [done|].
rewrite forallb_app, IH. simpl. rewrite andb_true_r. apply andb_comm.
Qed.

Lemma strip_nil_iff (s : list ascii) : strip s = [] ↔ forallb is_space s = true.
Proof.
unfold strip. destruct (lstrip s) as [|c t] eqn:Hs.
- split; [intros _; by apply lstrip_nil_iff|done].
- pose proof (lstrip_head s c t Hs) as Hc.
  pose proof (rstrip_middle [] c t Hc) as Hr. simpl in Hr. rewrite Hr.
  split; [done|]. intros Hall. apply lstrip_nil_iff in Hall. congruence.
Qed.

Lemma join_all_space (parts : list (list ascii)) :
forallb is_space (join ["010"%char; "010"%char] parts) = true
↔ Forall (λ p, forallb is_space p = true) parts.
Proof.
induction parts as [|p rest IH].
- simpl. split; [constructor|done].
- destruct rest as [|q rest].
  + simpl. split; [by repeat constructor|by intros ?%Forall_inv].
  + change (join ?sep (p :: q :: rest)) with (p ++ sep ++ join sep (q :: rest)).
    rewrite !forallb_app.
    change (forallb is_space ["010"%char; "010"%char]) with true.
    rewrite andb_true_l, andb_true_iff, IH, (Forall_cons _ p). done.
Qed.

(** X23. The text extracted from a PDF is empty exactly when every page
    has no text or white space only; and it never starts or ends with
    white space. *)
Theorem extract_text_empty_iff (pages : list (option string)) :
(extract_text pages = ""
 ↔ ∀ s, Some s ∈ pages → all_space s = true)
∧ strip (list_ascii_of_string (extract_text pages))
  = list_ascii_of_string (extract_text pages).
Proof.
unfold extract_text. split.
- set (l := strip _).
  assert (string_of_list_ascii l = "" ↔ l = []) as ->.
  { destruct l; simpl; split; congruence. }
  subst l. rewrite strip_nil_iff, join_all_space, Forall_fmap, Forall_forall.
  unfold pages_text, all_space. split.
  + intros Hall s Hs. destruct (String.eqb_spec s "") as [->|Hne]; [done|].
    apply (Hall s). apply list_elem_of_omap. exists (Some s). split; [done|].
    by destruct (String.eqb_spec s "").
  + intros Hall s (t & Ht & Hs)%list_elem_of_omap. destruct t as [s'|]; [|done].
    destruct (String.eqb_spec s' ""); [done|]. injection Hs as ->. by apply Hall.
- by rewrite list_ascii_of_string_of_list_ascii, strip_idem.
Qed.

(** ** Runs on sample documents *)

Definition sample_po : pyval :=
doc [item "Widget A" [("qty", PInt 10); ("unit_price", PInt 5); ("total", PInt 50)];
     item "Widget A" [("total", PInt 50)]].

Definition sample_inv : pyval :=
doc [item "Widget A" [("qty", PInt 10); ("total", PStr "50")]; item "Cable" []].

Definition sample_inv_items : list pyval :=
[item "Widget A" [("qty", PInt 10); ("total", PStr "50")]; item "Cable" []].

Definition sample_outcomes : list po_outcome :=
[PoOutcome
   (Best (Some (item "Widget A" [("qty", PInt 10); ("total", PStr "50")])) 1%float (Some 0))
   (Some 0)
   (Row (PStr "Widget A") (PInt 10) (PInt 5) (PInt 50)
        (PStr "Widget A") (PInt 10) blank (PStr "50") Match 1%float);
 PoOutcome
   (Best (Some (item "Cable" [])) (token_similarity "Widget A" "Cable") (Some 1))
   None
   (Row (PStr "Widget A") blank blank (PInt 50)
        (PStr "Cable") blank blank blank Mismatch (token_similarity "Widget A" "Cable"))].

Definition sample_leftovers : list row := [trailing_row (item "Cable" [])].

Definition sample_rows : list row := map out_row sample_outcomes ++ sample_leftovers.

Lemma status_classification_witness :
reconcile str_of_scalar round2_id sample_po sample_inv (slider_threshold 70)
= Ok (sample_outcomes, {[0]}, sample_leftovers)
∧ ∃ po_items inv_items,
    document_items sample_po = Ok po_items
    ∧ document_items sample_inv = Ok inv_items
    ∧ ∀ k po_it, po_items !! k = Some po_it →
        ∃ o, sample_outcomes !! k = Some o
             ∧ status_rule str_of_scalar (slider_threshold 70) inv_items
                 (used_before sample_outcomes k) po_it o.
Proof.
split; [vm_compute; reflexivity|].
apply (status_classification str_of_scalar round2_id sample_po sample_inv
         (slider_threshold 70) sample_outcomes {[0]} sample_leftovers).
vm_compute. reflexivity.
Defined.

(** Both totals absent and the descriptions equal: the row is [Match], not
    [PartialMatch]. *)
Lemma absent_totals_match :
compare_structures str_of_scalar round2_id
  (doc [item "a" []]) (doc [item "a" []]) (slider_threshold 70)
= Ok [Row (PStr "a") blank blank blank (PStr "a") blank blank blank Match 1%float]
∧ has_key (item "a" []) "total" = false.
Proof. split; vm_compute; reflexivity. Qed.

Lemma greedy_selection_witness :
reconcile str_of_scalar round2_id sample_po sample_inv (slider_threshold 70)
= Ok (sample_outcomes, {[0]}, sample_leftovers)
∧ ∃ po_items inv_items,
    document_items sample_po = Ok po_items
    ∧ document_items sample_inv = Ok inv_items
    ∧ ∀ k po_it, po_items !! k = Some po_it →
        ∃ o, sample_outcomes !! k = Some o
             ∧ selection_rule (slider_threshold 70) inv_items
                 (used_before sample_outcomes k) po_it o
             ∧ used_before sample_outcomes (S k)
               = add_claim (used_before sample_outcomes k) (out_claim o).
Proof.
split; [vm_compute; reflexivity|].
apply (greedy_selection str_of_scalar round2_id sample_po sample_inv
         (slider_threshold 70) sample_outcomes {[0]} sample_leftovers).
vm_compute. reflexivity.
Defined.

(** The only invoice item scores [0.0] against the purchase-order item: it
    exists and is unclaimed, yet the row reports no invoice item. *)
Lemma zero_score_candidate_not_reported :
token_similarity "abc" "xyz" = 0%float
∧ compare_structures str_of_scalar round2_id
    (doc [item "abc" []]) (doc [item "xyz" [("total", PInt 5)]]) (slider_threshold 70)
  = Ok [Row (PStr "abc") blank blank blank blank blank blank blank Mismatch 0%float;
        Row blank blank blank blank (PStr "xyz") blank blank (PInt 5) Mismatch 0%float].
Proof. split; vm_compute; reflexivity. Qed.

Lemma claims_one_to_one_witness :
reconcile str_of_scalar round2_id sample_po sample_inv (slider_threshold 70)
= Ok (sample_outcomes, {[0]}, sample_leftovers)
∧ ∃ inv_items,
    document_items sample_inv = Ok inv_items
    ∧ NoDup (claims sample_outcomes)
    ∧ (∀ k1 k2 o1 o2 i, sample_outcomes !! k1 = Some o1 → sample_outcomes !! k2 = Some o2 →
         out_claim o1 = Some i → out_claim o2 = Some i → k1 = k2)
    ∧ (∀ i, i ∈ claims sample_outcomes → i < length inv_items)
    ∧ (∀ k o i, sample_outcomes !! k = Some o → is_matched (out_row o) = true →
         best_idx (out_best o) = Some i → out_claim o = Some i)
    ∧ ({[0]} : gset nat) = list_to_set (claims sample_outcomes)
    ∧ sample_leftovers
      = trailing_row <$> unclaimed (list_to_set (claims sample_outcomes)) inv_items.
Proof.
split; [vm_compute; reflexivity|].
apply (claims_one_to_one str_of_scalar round2_id sample_po sample_inv
         (slider_threshold 70) sample_outcomes {[0]} sample_leftovers).
vm_compute. reflexivity.
Defined.

(** Scenario A of the specification: the two descriptions score about
    [0.68], between the thresholds of the slider at 60 and at 70. *)
Definition hs_po : pyval :=
doc [item "Widget A" [("qty", PInt 10); ("unit_price", PInt 5); ("total", PInt 50)]].

Definition hs_inv : pyval :=
doc [item "Widget A HS1234" [("qty", PInt 10); ("unit_price", PInt 5); ("total", PInt 50)]].

Definition hs_rows_60 : list row :=
[Row (PStr "Widget A") (PInt 10) (PInt 5) (PInt 50)
     (PStr "Widget A HS1234") (PInt 10) (PInt 5) (PInt 50)
     Match (token_similarity "Widget A" "Widget A HS1234")].

Definition hs_rows_70 : list row :=
[Row (PStr "Widget A") (PInt 10) (PInt 5) (PInt 50)
     (PStr "Widget A HS1234") (PInt 10) (PInt 5) (PInt 50)
     Mismatch (token_similarity "Widget A" "Widget A HS1234");
 Row blank blank blank blank
     (PStr "Widget A HS1234") (PInt 10) (PInt 5) (PInt 50) Mismatch 0%float].

Lemma threshold_monotone_witness :
PrimFloat.leb (slider_threshold 60) (slider_threshold 70) = true
∧ compare_structures str_of_scalar round2_id hs_po hs_inv (slider_threshold 60)
  = Ok hs_rows_60
∧ compare_structures str_of_scalar round2_id hs_po hs_inv (slider_threshold 70)
  = Ok hs_rows_70
∧ count_matched hs_rows_70 ≤ count_matched hs_rows_60
∧ count_mismatch hs_rows_60 ≤ count_mismatch hs_rows_70.
Proof.
split; [vm_compute; reflexivity|]. split; [vm_compute; reflexivity|].
split; [vm_compute; reflexivity|].
apply (threshold_monotone str_of_scalar round2_id hs_po hs_inv
         (slider_threshold 60) (slider_threshold 70)); vm_compute; reflexivity.
Defined.

Lemma absent_document_is_empty_witness :
document_absent (PDict [("vendor", PStr "ACME")])
∧ document_items (PDict [("vendor", PStr "ACME")]) = Ok []
∧ compare_structures str_of_scalar round2_id (PDict [("vendor", PStr "ACME")]) sample_inv
    (slider_threshold 70)
  = compare_structures str_of_scalar round2_id (doc []) sample_inv (slider_threshold 70)
∧ compare_structures str_of_scalar round2_id sample_inv (PDict [("vendor", PStr "ACME")])
    (slider_threshold 70)
  = compare_structures str_of_scalar round2_id sample_inv (doc []) (slider_threshold 70)
∧ (document_absent sample_inv ∨ document_ok sample_inv →
   (∃ rows, compare_structures str_of_scalar round2_id (PDict [("vendor", PStr "ACME")])
              sample_inv (slider_threshold 70) = Ok rows)
   ∧ (∃ rows, compare_structures str_of_scalar round2_id sample_inv
                (PDict [("vendor", PStr "ACME")]) (slider_threshold 70) = Ok rows))
∧ compare_structures str_of_scalar round2_id (PDict [("vendor", PStr "ACME")])
    (PDict [("vendor", PStr "ACME")]) (slider_threshold 70) = Ok [].
Proof.
assert (document_absent (PDict [("vendor", PStr "ACME")])) as Ha.
{ right. exists [("vendor", PStr "ACME")]. split; [reflexivity|].
  simpl. intros Hin. apply list_elem_of_singleton in Hin. discriminate Hin. }
split; [exact Ha|].
apply (absent_document_is_empty str_of_scalar round2_id
         (PDict [("vendor", PStr "ACME")]) sample_inv (slider_threshold 70) Ha).
Defined.


(** With the threshold [0.0] and no invoice, a purchase-order item without a
    total gets the status [Match] and blank invoice fields. *)
Lemma zero_threshold_run :
compare_structures str_of_scalar round2_id (doc [item "abc" []]) PNone 0%float
= Ok [Row (PStr "abc") blank blank blank blank blank blank blank Match 0%float].
Proof. vm_compute. reflexivity. Qed.

(** ** More runs on the sample documents *)

Definition sample_outcome_0 : po_outcome :=
PoOutcome
  (Best (Some (item "Widget A" [("qty", PInt 10); ("total", PStr "50")])) 1%float (Some 0))
  (Some 0)
  (Row (PStr "Widget A") (PInt 10) (PInt 5) (PInt 50)
       (PStr "Widget A") (PInt 10) blank (PStr "50") Match 1%float).

Definition sample_outcome_1 : po_outcome :=
PoOutcome
  (Best (Some (item "Cable" [])) (token_similarity "Widget A" "Cable") (Some 1))
  None
  (Row (PStr "Widget A") blank blank (PInt 50)
       (PStr "Cable") blank blank blank Mismatch (token_similarity "Widget A" "Cable")).

Lemma row_count_bounds_witness :
compare_structures str_of_scalar round2_id sample_po sample_inv (slider_threshold 70)
= Ok sample_rows
∧ ∃ po_items inv_items outcomes inv_used leftovers,
    document_items sample_po = Ok po_items
    ∧ document_items sample_inv = Ok inv_items
    ∧ reconcile str_of_scalar round2_id sample_po sample_inv (slider_threshold 70)
      = Ok (outcomes, inv_used, leftovers)
    ∧ sample_rows = map out_row outcomes ++ leftovers
    ∧ size inv_used = length (claims outcomes)
    ∧ length sample_rows + size inv_used = length po_items + length inv_items
    ∧ size inv_used ≤ length po_items `min` length inv_items
    ∧ length po_items `max` length inv_items ≤ length sample_rows
    ∧ length sample_rows ≤ length po_items + length inv_items.
Proof.
split; [vm_compute; reflexivity|].
apply (row_count_bounds str_of_scalar round2_id sample_po sample_inv (slider_threshold 70)).
vm_compute. reflexivity.
Defined.

Lemma rows_layout_witness :
compare_structures str_of_scalar round2_id sample_po sample_inv (slider_threshold 70)
= Ok sample_rows
∧ ∃ po_items inv_items outcomes inv_used leftovers,
    document_items sample_po = Ok po_items
    ∧ document_items sample_inv = Ok inv_items
    ∧ reconcile str_of_scalar round2_id sample_po sample_inv (slider_threshold 70)
      = Ok (outcomes, inv_used, leftovers)
    ∧ sample_rows = map out_row outcomes ++ leftovers
    ∧ length outcomes = length po_items
    ∧ (∀ k po_it, po_items !! k = Some po_it →
         ∃ o, outcomes !! k = Some o
           ∧ pass_ok str_of_scalar round2_id inv_items (slider_threshold 70) outcomes
               k po_it o
           ∧ po_item (out_row o) = field po_it "description"
           ∧ po_qty (out_row o) = field po_it "qty"
           ∧ po_price (out_row o) = field po_it "unit_price"
           ∧ po_total (out_row o) = field po_it "total")
    ∧ (∀ i, i ∈ inv_used ↔ ∃ k o, outcomes !! k = Some o ∧ out_claim o = Some i)
    ∧ leftovers = trailing_row <$> unclaimed inv_used inv_items
    ∧ (∀ r, r ∈ leftovers ↔
            ∃ i inv_it, inv_items !! i = Some inv_it ∧ (i ∉ inv_used)
                        ∧ r = trailing_row inv_it)
    ∧ length sample_rows = length po_items + length (unclaimed inv_used inv_items)
    ∧ length (unclaimed inv_used inv_items) + size inv_used = length inv_items.
Proof.
split; [vm_compute; reflexivity|].
apply (rows_layout str_of_scalar round2_id sample_po sample_inv (slider_threshold 70)).
vm_compute. reflexivity.
Defined.

(** The run the layout is read on: two rows for the two purchase-order
    items, the first claiming invoice item 0, then the trailing row of
    invoice item 1, which the second row reports without claiming it. *)
Lemma rows_layout_run :
reconcile str_of_scalar round2_id sample_po sample_inv (slider_threshold 70)
= Ok (sample_outcomes, {[0]}, sample_leftovers)
∧ sample_rows = map out_row sample_outcomes ++ sample_leftovers
∧ length sample_rows = 3.
Proof. split; [vm_compute; reflexivity|]. split; reflexivity. Qed.

Lemma every_invoice_item_has_a_row_witness :
reconcile str_of_scalar round2_id sample_po sample_inv (slider_threshold 70)
= Ok (sample_outcomes, {[0]}, sample_leftovers)
∧ ∃ inv_items,
    document_items sample_inv = Ok inv_items
    ∧ ∀ i it, inv_items !! i = Some it →
        (i ∈ claims sample_outcomes
         ∧ ∃ k o, sample_outcomes !! k = Some o ∧ out_claim o = Some i
                  ∧ best_match (out_best o) = Some it
                  ∧ invoice_item (out_row o) = field it "description"
                  ∧ invoice_total (out_row o) = field it "total")
        ∨ ((i ∉ claims sample_outcomes) ∧ trailing_row it ∈ sample_leftovers).
Proof.
split; [vm_compute; reflexivity|].
apply (every_invoice_item_has_a_row str_of_scalar round2_id sample_po sample_inv
         (slider_threshold 70) sample_outcomes {[0]} sample_leftovers).
vm_compute. reflexivity.
Defined.

Lemma claimed_item_not_reported_later_witness :
reconcile str_of_scalar round2_id sample_po sample_inv (slider_threshold 70)
= Ok (sample_outcomes, {[0]}, sample_leftovers)
∧ sample_outcomes !! 0 = Some sample_outcome_0
∧ sample_outcomes !! 1 = Some sample_outcome_1
∧ 0 < 1
∧ out_claim sample_outcome_0 = Some 0
∧ best_idx (out_best sample_outcome_1) ≠ Some 0
∧ out_claim sample_outcome_1 ≠ Some 0.
Proof.
split; [vm_compute; reflexivity|]. split; [reflexivity|]. split; [reflexivity|].
split; [lia|]. split; [reflexivity|].
apply (claimed_item_not_reported_later str_of_scalar round2_id sample_po sample_inv
         (slider_threshold 70) sample_outcomes {[0]} sample_leftovers 0 1 0
         sample_outcome_0 sample_outcome_1);
  [vm_compute; reflexivity|reflexivity|reflexivity|lia|reflexivity].
Defined.

Lemma positive_threshold_matched_iff_claimed_witness :
PrimFloat.ltb 0 (slider_threshold 70) = true
∧ reconcile str_of_scalar round2_id sample_po sample_inv (slider_threshold 70)
  = Ok (sample_outcomes, {[0]}, sample_leftovers)
∧ sample_outcomes !! 0 = Some sample_outcome_0
∧ (is_matched (out_row sample_outcome_0) = true ↔ ∃ i, out_claim sample_outcome_0 = Some i)
∧ (best_idx (out_best sample_outcome_0) = None →
   status (out_row sample_outcome_0) = Mismatch
   ∧ invoice_item (out_row sample_outcome_0) = blank
   ∧ invoice_qty (out_row sample_outcome_0) = blank
   ∧ invoice_price (out_row sample_outcome_0) = blank
   ∧ invoice_total (out_row sample_outcome_0) = blank).
Proof.
split; [vm_compute; reflexivity|]. split; [vm_compute; reflexivity|].
split; [reflexivity|].
apply (positive_threshold_matched_iff_claimed str_of_scalar round2_id sample_po sample_inv
         (slider_threshold 70) sample_outcomes {[0]} sample_leftovers 0 sample_outcome_0);
  [vm_compute; reflexivity|vm_compute; reflexivity|reflexivity].
Defined.

Lemma total_matches_bounds_witness :
compare_structures str_of_scalar round2_id sample_po sample_inv (slider_threshold 70)
= Ok sample_rows
∧ ∃ po_items inv_items,
    document_items sample_po = Ok po_items
    ∧ document_items sample_inv = Ok inv_items
    ∧ total_matches sample_rows ≤ length po_items
    ∧ (PrimFloat.ltb 0 (slider_threshold 70) = true →
       total_matches sample_rows ≤ length inv_items
       ∧ (total_matches sample_rows = length sample_rows →
          length po_items = length inv_items)).
Proof.
split; [vm_compute; reflexivity|].
apply (total_matches_bounds str_of_scalar round2_id sample_po sample_inv
         (slider_threshold 70)).
vm_compute. reflexivity.
Defined.

Definition sample_po_items : list pyval :=
[item "Widget A" [("qty", PInt 10); ("unit_price", PInt 5); ("total", PInt 50)];
 item "Widget A" [("total", PInt 50)]].

Lemma returns_only_on_dict_items_witness :
compare_structures str_of_scalar round2_id sample_po sample_inv (slider_threshold 70)
= Ok sample_rows
∧ ∃ po_items inv_items,
    document_items sample_po = Ok po_items
    ∧ document_items sample_inv = Ok inv_items
    ∧ Forall is_dict po_items
    ∧ Forall is_dict inv_items
    ∧ ∀ po_it, head po_items = Some po_it →
        Forall item_ok inv_items ∧ (inv_items ≠ [] → item_ok po_it).
Proof.
split; [vm_compute; reflexivity|].
apply (returns_only_on_dict_items str_of_scalar round2_id sample_po sample_inv
         (slider_threshold 70) sample_rows).
vm_compute. reflexivity.
Defined.

(** A document that is a list, as a reply holding a bare JSON array gives. *)
Lemma non_dict_document_witness :
(∀ d, PList [PInt 1] ≠ PDict d)
∧ (py_truthy (PList [PInt 1]) = true →
   compare_structures str_of_scalar round2_id (PList [PInt 1]) sample_inv
     (slider_threshold 70) = Raise AttributeError
   ∧ compare_structures str_of_scalar round2_id sample_inv (PList [PInt 1])
       (slider_threshold 70) = Raise AttributeError)
∧ (py_truthy (PList [PInt 1]) = false →
   compare_structures str_of_scalar round2_id (PList [PInt 1]) sample_inv
     (slider_threshold 70)
   = compare_structures str_of_scalar round2_id (doc []) sample_inv (slider_threshold 70)
   ∧ compare_structures str_of_scalar round2_id sample_inv (PList [PInt 1])
       (slider_threshold 70)
     = compare_structures str_of_scalar round2_id sample_inv (doc [])
         (slider_threshold 70)).
Proof.
assert (∀ d, PList [PInt 1] ≠ PDict d) as Hnd by (intros d Hd; discriminate Hd).
split; [exact Hnd|].
apply (non_dict_document str_of_scalar round2_id (PList [PInt 1]) sample_inv
         (slider_threshold 70) Hnd).
Defined.

(** An [items] entry that is [null] raises [TypeError]. *)
Lemma items_null_raises_type_error :
compare_structures str_of_scalar round2_id (PDict [("items", PNone)]) sample_inv
  (slider_threshold 70) = Raise TypeError.
Proof. vm_compute. reflexivity. Qed.

Lemma sample_po_ok : document_ok sample_po.
Proof.
exists [("items", PList sample_po_items)], sample_po_items.
split; [reflexivity|]. split; [reflexivity|].
repeat constructor; simpl; eexists; reflexivity.
Qed.

Lemma sample_inv_ok : document_ok sample_inv.
Proof.
exists [("items", PList sample_inv_items)], sample_inv_items.
split; [reflexivity|]. split; [reflexivity|].
repeat constructor; simpl; eexists; reflexivity.
Qed.

Lemma well_formed_documents_never_raise_witness :
(document_absent sample_po ∨ document_ok sample_po)
∧ (document_absent sample_inv ∨ document_ok sample_inv)
∧ ∃ rows po_items inv_items,
    compare_structures str_of_scalar round2_id sample_po sample_inv (slider_threshold 70)
    = Ok rows
    ∧ document_items sample_po = Ok po_items
    ∧ document_items sample_inv = Ok inv_items
    ∧ Forall item_ok po_items ∧ Forall item_ok inv_items.
Proof.
split; [right; apply sample_po_ok|]. split; [right; apply sample_inv_ok|].
apply (well_formed_documents_never_raise str_of_scalar round2_id sample_po sample_inv
         (slider_threshold 70)); right; [apply sample_po_ok|apply sample_inv_ok].
Defined.

Lemma quantity_and_price_ignored_witness :
document_items sample_po = Ok sample_po_items
∧ document_items sample_inv = Ok sample_inv_items
∧ compare_structures str_of_scalar round2_id
    (doc (core_of <$> sample_po_items)) (doc (core_of <$> sample_inv_items))
    (slider_threshold 70)
  = fmap (M := list) without_qty_price
    <$> compare_structures str_of_scalar round2_id sample_po sample_inv
          (slider_threshold 70).
Proof.
split; [reflexivity|]. split; [reflexivity|].
apply (quantity_and_price_ignored str_of_scalar round2_id sample_po sample_inv
         (slider_threshold 70) sample_po_items sample_inv_items); reflexivity.
Defined.

Lemma token_similarity_between_0_and_1_witness :
(Z.of_nat (String.length "Widget A" + String.length "Widget A HS1234") < 2 ^ 53)%Z
∧ (PrimFloat.leb 0 (token_similarity "Widget A" "Widget A HS1234") = true
   ∧ PrimFloat.leb (token_similarity "Widget A" "Widget A HS1234") 1 = true)
∧ (PrimFloat.leb 0 (token_overlap "Widget A" "Widget A HS1234") = true
   ∧ PrimFloat.leb (token_overlap "Widget A" "Widget A HS1234") 1 = true)
∧ (PrimFloat.leb 0 (char_sim "Widget A" "Widget A HS1234") = true
   ∧ PrimFloat.leb (char_sim "Widget A" "Widget A HS1234") 1 = true).
Proof.
split; [reflexivity|].
apply (token_similarity_between_0_and_1 "Widget A" "Widget A HS1234"). reflexivity.
Defined.

Lemma sample_inv_describable : Forall describable sample_inv_items.
Proof.
repeat constructor.
- exists [("description", PStr "Widget A"); ("qty", PInt 10); ("total", PStr "50")],
    "Widget A". by repeat split.
- exists [("description", PStr "Cable")], "Cable". by repeat split.
Qed.

Lemma identical_documents_all_match_witness :
document_items sample_inv = Ok sample_inv_items
∧ Forall describable sample_inv_items
∧ PrimFloat.leb (slider_threshold 70) 1 = true
∧ reconcile str_of_scalar round2_id sample_inv sample_inv (slider_threshold 70)
  = Ok (imap (outcome_with_itself round2_id) sample_inv_items,
        list_to_set (seq 0 (length sample_inv_items)), [])
∧ compare_structures str_of_scalar round2_id sample_inv sample_inv (slider_threshold 70)
  = Ok (matched_with_itself round2_id <$> sample_inv_items)
∧ total_matches (matched_with_itself round2_id <$> sample_inv_items)
  = length sample_inv_items.
Proof.
split; [reflexivity|]. split; [apply sample_inv_describable|].
split; [vm_compute; reflexivity|].
apply (identical_documents_all_match str_of_scalar round2_id sample_inv
         (slider_threshold 70) sample_inv_items);
  [reflexivity|apply sample_inv_describable|vm_compute; reflexivity].
Defined.

Lemma blank_description_scores_zero_witness :
"Cable" ≠ "" ∧ (Z.of_nat (String.length "Cable") < 2 ^ 53)%Z
∧ token_similarity "" "Cable" = 0%float ∧ token_similarity "Cable" "" = 0%float.
Proof.
assert ("Cable" ≠ "") as Hne by discriminate.
split; [exact Hne|]. split; [reflexivity|].
apply (blank_description_scores_zero "Cable" Hne). reflexivity.
Defined.

Definition nameless_item : pyval := PDict [("qty", PInt 1)].

Definition nameless_po_outcome : po_outcome :=
PoOutcome best0 None
  (Row blank (PInt 1) blank blank blank blank blank blank Mismatch 0%float).

Lemma cable_described : Forall described [item "Cable" []].
Proof.
repeat constructor. exists "Cable". split; [reflexivity|]. split; [discriminate|reflexivity].
Qed.

Lemma po_item_without_description_unmatched_witness :
reconcile str_of_scalar round2_id (doc [nameless_item]) (doc [item "Cable" []])
  (slider_threshold 70)
= Ok ([nameless_po_outcome], ∅, [trailing_row (item "Cable" [])])
∧ document_items (doc [nameless_item]) = Ok [nameless_item]
∧ document_items (doc [item "Cable" []]) = Ok [item "Cable" []]
∧ [nameless_item] !! 0 = Some nameless_item
∧ [nameless_po_outcome] !! 0 = Some nameless_po_outcome
∧ field nameless_item "description" = blank
∧ Forall described [item "Cable" []]
∧ out_best nameless_po_outcome = best0 ∧ out_claim nameless_po_outcome = None
∧ invoice_item (out_row nameless_po_outcome) = blank
∧ invoice_qty (out_row nameless_po_outcome) = blank
∧ invoice_price (out_row nameless_po_outcome) = blank
∧ invoice_total (out_row nameless_po_outcome) = blank
∧ (PrimFloat.ltb 0 (slider_threshold 70) = true →
   status (out_row nameless_po_outcome) = Mismatch).
Proof.
split; [vm_compute; reflexivity|]. split; [reflexivity|]. split; [reflexivity|].
split; [reflexivity|]. split; [reflexivity|]. split; [reflexivity|].
split; [apply cable_described|].
apply (po_item_without_description_unmatched str_of_scalar round2_id
         (doc [nameless_item]) (doc [item "Cable" []]) (slider_threshold 70)
         [nameless_po_outcome] ∅ [trailing_row (item "Cable" [])]
         [nameless_item] [item "Cable" []] 0 nameless_item nameless_po_outcome);
  [vm_compute; reflexivity|reflexivity|reflexivity|reflexivity|reflexivity|reflexivity
  |apply cable_described].
Defined.

Definition cable_po_outcome : po_outcome :=
PoOutcome best0 None
  (Row (PStr "Cable") blank blank blank blank blank blank blank Mismatch 0%float).

Lemma invoice_item_without_description_unmatched_witness :
reconcile str_of_scalar round2_id (doc [item "Cable" []]) (doc [nameless_item])
  (slider_threshold 70)
= Ok ([cable_po_outcome], ∅, [trailing_row nameless_item])
∧ document_items (doc [item "Cable" []]) = Ok [item "Cable" []]
∧ document_items (doc [nameless_item]) = Ok [nameless_item]
∧ [nameless_item] !! 0 = Some nameless_item
∧ field nameless_item "description" = blank
∧ Forall described [item "Cable" []]
∧ (∀ k o, [cable_po_outcome] !! k = Some o →
     best_idx (out_best o) ≠ Some 0 ∧ out_claim o ≠ Some 0)
∧ (0 ∉ (∅ : gset nat))
∧ trailing_row nameless_item ∈ [trailing_row nameless_item].
Proof.
split; [vm_compute; reflexivity|]. split; [reflexivity|]. split; [reflexivity|].
split; [reflexivity|]. split; [reflexivity|]. split; [apply cable_described|].
apply (invoice_item_without_description_unmatched str_of_scalar round2_id
         (doc [item "Cable" []]) (doc [nameless_item]) (slider_threshold 70)
         [cable_po_outcome] ∅ [trailing_row nameless_item]
         [item "Cable" []] [nameless_item] 0 nameless_item);
  [vm_compute; reflexivity|reflexivity|reflexivity|reflexivity|reflexivity
  |apply cable_described].
Defined.

Lemma token_similarity_ignores_case_witness :
PyStr.lower "Widget A" = PyStr.lower "WIDGET a"
∧ has_word_char "Widget A" = true
∧ (Z.of_nat (String.length "Widget A") < 2 ^ 52)%Z
∧ token_similarity "Widget A" "WIDGET a" = 1%float
∧ token_similarity "WIDGET a" "Widget A" = 1%float
∧ ∀ c, token_similarity "Widget A" c = token_similarity "WIDGET a" c
       ∧ token_similarity c "Widget A" = token_similarity c "WIDGET a"
       ∧ token_similarity (PyStr.lower "Widget A") c = token_similarity "Widget A" c
       ∧ token_similarity c (PyStr.lower "Widget A") = token_similarity c "Widget A".
Proof.
split; [reflexivity|]. split; [reflexivity|]. split; [reflexivity|].
apply (token_similarity_ignores_case "Widget A" "WIDGET a"); reflexivity.
Defined.

Lemma slider_threshold_range_witness :
50 ≤ 70 ≤ 95
∧ PrimFloat.ltb 0 (slider_threshold 70) = true
∧ PrimFloat.leb 0.5 (slider_threshold 70) = true
∧ PrimFloat.ltb (slider_threshold 70) 1 = true
∧ ∀ higher, 70 < higher ≤ 95 →
    PrimFloat.ltb (slider_threshold 70) (slider_threshold higher) = true.
Proof.
split; [lia|]. apply (slider_threshold_range 70). lia.
Defined.

Lemma compared_with_nothing_witness :
document_items PNone = Ok []
∧ PrimFloat.ltb 0 (slider_threshold 70) = true
∧ (∀ rows, compare_structures str_of_scalar round2_id sample_po PNone
             (slider_threshold 70) = Ok rows →
     ∃ items, document_items sample_po = Ok items
              ∧ rows = unmatched_po_row round2_id <$> items
              ∧ total_matches rows = 0)
∧ (∀ rows, compare_structures str_of_scalar round2_id PNone sample_po
             (slider_threshold 70) = Ok rows →
     ∃ items, document_items sample_po = Ok items
              ∧ rows = trailing_row <$> items
              ∧ total_matches rows = 0).
Proof.
split; [reflexivity|]. split; [vm_compute; reflexivity|].
apply (compared_with_nothing str_of_scalar round2_id sample_po PNone (slider_threshold 70));
  [reflexivity|vm_compute; reflexivity].
Defined.

(** A purchase order compared with nothing: one [Mismatch] row per item. *)
Lemma compared_with_nothing_run :
compare_structures str_of_scalar round2_id sample_po PNone (slider_threshold 70)
= Ok (unmatched_po_row round2_id <$> sample_po_items).
Proof. vm_compute. reflexivity. Qed.

Definition sample_po_data : list doc_entry :=
[DocEntry (Some "po1.pdf") sample_po None;
 DocEntry (Some "po2.pdf") sample_po None;
 DocEntry (Some "po3.pdf") PNone (Some "Gemini parsing failed: no reply")].

Definition sample_inv_data : list doc_entry :=
[DocEntry (Some "inv1.pdf") sample_inv None].

(** A stand-in for the display that always runs to its end. *)
Definition always_shows (rows : list row) : bool := true.

Definition same_entry (e : doc_entry) : doc_entry := e.

Definition sample_batch_events : list batch_event :=
[Header "po1.pdf" "inv1.pdf"; Compared sample_rows;
 Header "po2.pdf" "N/A"; Compared (unmatched_po_row round2_id <$> sample_po_items);
 Header "po3.pdf" "N/A"; PoErrorShown "Gemini parsing failed: no reply"].

Lemma sample_batch_run :
run_batch str_of_scalar round2_id always_shows same_entry same_entry (slider_threshold 70)
  sample_po_data sample_inv_data
= (sample_batch_events, Finished).
Proof. vm_compute. reflexivity. Qed.


(** A purchase order that is a JSON array raises in [compare_structures]:
    its header is the last thing shown, and the pair after it never is. *)
Lemma batch_aborts_on_malformed_document :
run_batch str_of_scalar round2_id always_shows same_entry same_entry (slider_threshold 70)
  [DocEntry (Some "po1.pdf") (PList [PInt 1]) None; DocEntry (Some "po2.pdf") sample_po None]
  [DocEntry (Some "inv1.pdf") sample_inv None; DocEntry (Some "inv2.pdf") sample_inv None]
= ([Header "po1.pdf" "inv1.pdf"], Aborted).
Proof. vm_compute. reflexivity. Qed.

(** With one of the two uploads empty nothing is compared. *)
Lemma batch_without_invoices :
run_batch str_of_scalar round2_id always_shows same_entry same_entry (slider_threshold 70)
  sample_po_data []
= ([UploadsMissing], Finished).
Proof. reflexivity. Qed.

Definition surplus_entry : doc_entry := DocEntry (Some "po2.pdf") sample_po None.

Lemma sample_first_pair_completes :
Forall (completes str_of_scalar round2_id always_shows (slider_threshold 70))
  (take 1 (batch_pairs same_entry same_entry sample_po_data sample_inv_data)).
Proof.
apply Forall_cons. split; [|constructor].
exists (Compared sample_rows). vm_compute. reflexivity.
Qed.

Lemma sample_po_data_nonempty : sample_po_data ≠ [].
Proof. discriminate. Qed.

Lemma sample_inv_data_nonempty : sample_inv_data ≠ [].
Proof. discriminate. Qed.

Lemma surplus_document_all_mismatch_witness :
run_batch str_of_scalar round2_id always_shows same_entry same_entry (slider_threshold 70)
  sample_po_data sample_inv_data
= (sample_batch_events, Finished)
∧ sample_po_data ≠ [] ∧ sample_inv_data ≠ []
∧ Forall (completes str_of_scalar round2_id always_shows (slider_threshold 70))
    (take 1 (batch_pairs same_entry same_entry sample_po_data sample_inv_data))
∧ PrimFloat.ltb 0 (slider_threshold 70) = true
∧ (sample_po_data !! 1 = Some surplus_entry → length sample_inv_data ≤ 1 →
   shown_error (entry_err (same_entry surplus_entry)) = None →
     sample_batch_events !! (2 * 1)
     = Some (Header (shown_name (entry_name (same_entry surplus_entry))) "N/A")
     ∧ (∀ ev, sample_batch_events !! (2 * 1 + 1) = Some ev →
          ∃ items, document_items (entry_struct (same_entry surplus_entry)) = Ok items
                   ∧ ev = Compared (unmatched_po_row round2_id <$> items)
                   ∧ total_matches (unmatched_po_row round2_id <$> items) = 0)
     ∧ (sample_batch_events !! (2 * 1 + 1) = None → Finished = Aborted))
∧ (sample_inv_data !! 1 = Some surplus_entry → length sample_po_data ≤ 1 →
   shown_error (entry_err (same_entry surplus_entry)) = None →
     sample_batch_events !! (2 * 1)
     = Some (Header "N/A" (shown_name (entry_name (same_entry surplus_entry))))
     ∧ (∀ ev, sample_batch_events !! (2 * 1 + 1) = Some ev →
          ∃ items, document_items (entry_struct (same_entry surplus_entry)) = Ok items
                   ∧ ev = Compared (trailing_row <$> items)
                   ∧ total_matches (trailing_row <$> items) = 0)
     ∧ (sample_batch_events !! (2 * 1 + 1) = None → Finished = Aborted)).
Proof.
split; [apply sample_batch_run|].
split; [apply sample_po_data_nonempty|]. split; [apply sample_inv_data_nonempty|].
split; [apply sample_first_pair_completes|]. split; [vm_compute; reflexivity|].
apply (surplus_document_all_mismatch str_of_scalar round2_id always_shows
         same_entry same_entry (slider_threshold 70) sample_po_data sample_inv_data
         1 surplus_entry sample_batch_events Finished);
  [apply sample_batch_run|apply sample_po_data_nonempty|apply sample_inv_data_nonempty
  |apply sample_first_pair_completes|vm_compute; reflexivity].
Defined.

Lemma no_open_brace_in_prose : "{"%char ∉ list_ascii_of_string "Here is the JSON: ".
Proof. apply (bool_decide_unpack _). vm_compute. reflexivity. Qed.

Lemma no_close_brace_in_thanks : "}"%char ∉ list_ascii_of_string " Thanks!".
Proof. apply (bool_decide_unpack _). vm_compute. reflexivity. Qed.

Lemma json_text_spans_first_open_to_last_close_witness :
("{"%char ∉ list_ascii_of_string "Here is the JSON: ")
∧ ("}"%char ∉ list_ascii_of_string " Thanks!")
∧ json_text ("Here is the JSON: " +:+ "{" +:+ "items: [{}, {}]" +:+ "}" +:+ " Thanks!")
  = "{" +:+ "items: [{}, {}]" +:+ "}".
Proof.
split; [apply no_open_brace_in_prose|]. split; [apply no_close_brace_in_thanks|].
apply (json_text_spans_first_open_to_last_close
         "Here is the JSON: " "items: [{}, {}]" " Thanks!");
  [apply no_open_brace_in_prose|apply no_close_brace_in_thanks].
Defined.

(** Two objects in one reply: the span runs from the first ["{"] to the
    last ["}"] and holds both. *)
Lemma json_text_two_objects :
json_text "{a} and {b}" = "{a} and {b}" ∧ json_text " [1, 2] " = "[1, 2]".
Proof. split; reflexivity. Qed.

Lemma earlier_rows_ignore_later_items_witness :
reconcile str_of_scalar round2_id
  (doc ([item "Widget A" [("qty", PInt 10); ("unit_price", PInt 5); ("total", PInt 50)]]
        ++ [item "Widget A" [("total", PInt 50)]]))
  sample_inv (slider_threshold 70)
= Ok (sample_outcomes, {[0]}, sample_leftovers)
∧ ∃ inv_used1 leftovers1,
    reconcile str_of_scalar round2_id
      (doc [item "Widget A" [("qty", PInt 10); ("unit_price", PInt 5); ("total", PInt 50)]])
      sample_inv (slider_threshold 70)
    = Ok (take 1 sample_outcomes, inv_used1, leftovers1)
    ∧ inv_used1 ⊆ ({[0]} : gset nat)
    ∧ length sample_leftovers ≤ length leftovers1.
Proof.
split; [vm_compute; reflexivity|].
apply (earlier_rows_ignore_later_items str_of_scalar round2_id
         [item "Widget A" [("qty", PInt 10); ("unit_price", PInt 5); ("total", PInt 50)]]
         [item "Widget A" [("total", PInt 50)]]
         sample_inv (slider_threshold 70) sample_outcomes {[0]} sample_leftovers).
vm_compute. reflexivity.
Defined.
